(** * stock-chart: the [StockChart] class of [script.js]

    A shallow embedding of the chart's data pipeline ([processCSVData],
    [calculateMovingAverage]), of its scale computation and drawing code
    ([plotChart] and the functions it calls), and of its pointer and wheel
    listeners, followed by the properties that the specification states
    about them.

    Numbers. A JavaScript number is an IEEE-754 binary64 value. The code
    is written once, over the interface [JSNumber] of the number
    operations that the script uses, and is read at two instances:

    - [double]: Rocq's primitive binary64 floats, which round as a
      JavaScript engine does. This is what the script computes.
    - [ideal]: the rationals extended with [Infinity], [-Infinity] and
      [NaN], that is the same operations without rounding and without
      overflow. This is the arithmetic in which the specification writes
      its formulas.

    A property that holds of the code whatever the arithmetic is stated
    for every instance. A property of the scale that rounding breaks is
    stated in exact arithmetic, next to the doubles on which it fails.

    Strings are sequences of 8-bit code units. An array is a list; a
    property that may be [undefined] is an [option].

    Drawing. A 2D context is the list of the calls made on it, in order.
    A loop of the script whose number of iterations is not bounded by its
    form takes a [fuel]: enough of it gives the result, and [None] for
    every [fuel] means that the loop does not end. *)

From Stdlib Require Import ZArith NArith QArith Qround Lia Lqa.
From Stdlib Require Import List Bool String Ascii DecimalString Floats.
Import ListNotations.

Set Warnings "-inexact-float".

(* ================================================================== *)
(** * Numbers *)

Declare Scope js_scope.
Delimit Scope js_scope with js.

(** The operations of a JavaScript number that [script.js] uses. *)
Class JSNumber (num : Type) := {
  (** an integer literal, an array length or an array index *)
  of_Z : Z -> num;
  (** the value of a decimal literal: sign, digits, power of ten *)
  of_decimal : bool -> N -> Z -> num;
  NaN : num;
  Infinity : num;
  num_neg : num -> num;
  num_add : num -> num -> num;
  num_sub : num -> num -> num;
  num_mul : num -> num -> num;
  num_div : num -> num -> num;
  (** [a < b], [a <= b] and [a == b]; all three are false on [NaN] *)
  num_ltb : num -> num -> bool;
  num_leb : num -> num -> bool;
  num_eqb : num -> num -> bool;
  isNaN : num -> bool;
  (** the negative zero, which [Math.max] and [Math.min] tell from [+0] *)
  isNegZero : num -> bool;
  (** [Math.floor] *)
  Math_floor : num -> num;
  (** the array index a number denotes when used as a property key:
      a non-negative integer value *)
  to_index : num -> option nat;
  (** the integer part of a number, towards zero; [0] for [NaN] and the
      infinities (how a number becomes an integer of the document) *)
  truncate : num -> Z
}.

Notation "x + y" := (num_add x y) : js_scope.
Notation "x - y" := (num_sub x y) : js_scope.
Notation "x * y" := (num_mul x y) : js_scope.
Notation "x / y" := (num_div x y) : js_scope.
Notation "x <? y" := (num_ltb x y) : js_scope.
Notation "x <=? y" := (num_leb x y) : js_scope.
Notation "x >=? y" := (num_leb y x) (at level 70) : js_scope.
Notation "x =? y" := (num_eqb x y) : js_scope.

Definition of_nat {num} `{JSNumber num} (n : nat) : num := of_Z (Z.of_nat n).

(** A number is finite when it is neither [NaN] nor an infinity
    ([Number.isFinite]). *)
Definition isFinite {num} `{JSNumber num} (x : num) : bool :=
  negb (isNaN x) && negb (num_eqb x Infinity) && negb (num_eqb x (num_neg Infinity)).

(* ------------------------------------------------------------------ *)
(** ** IEEE-754 binary64 *)

Module Double.

Definition of_SF (x : spec_float) : float := SF2Prim x.

(** Integers are rounded to the nearest double (exact below 2^53). *)
Definition of_Z (z : Z) : float := of_SF (binary_normalize prec emax z 0 false).

(** [digits * 10^e], correctly rounded (round to nearest, ties to even). *)
Definition of_decimal (neg : bool) (digits : N) (e : Z) : float :=
  match digits with
  | N0 => of_SF (S754_zero neg)
  | Npos p =>
      match e with
      | Zneg k =>
          of_SF (SFdiv prec emax (S754_finite neg p 0)
                       (S754_finite false (Pos.pow 10 k) 0))
      | _ =>
          let m := (Zpos p * 10 ^ e)%Z in
          of_SF (binary_normalize prec emax (if neg then (- m)%Z else m) 0 neg)
      end
  end.

Definition isNegZero (x : float) : bool :=
  match Prim2SF x with S754_zero true => true | _ => false end.

Definition floor (x : float) : float :=
  match Prim2SF x with
  | S754_finite s m e =>
      if (0 <=? e)%Z then x
      else
        let q := Z.shiftr (Zpos m) (- e) in
        if s then
          if (Z.shiftl q (- e) =? Zpos m)%Z then of_Z (- q) else of_Z (- q - 1)
        else of_Z q
  | _ => x
  end.

Definition to_index (x : float) : option nat :=
  match Prim2SF x with
  | S754_zero _ => Some O
  | S754_finite false m e =>
      if (0 <=? e)%Z then Some (Z.to_nat (Z.shiftl (Zpos m) e))
      else
        let q := Z.shiftr (Zpos m) (- e) in
        if (Z.shiftl q (- e) =? Zpos m)%Z then Some (Z.to_nat q) else None
  | _ => None
  end.

Definition truncate (x : float) : Z :=
  match Prim2SF x with
  | S754_finite s m e =>
      let a := if (0 <=? e)%Z then Z.shiftl (Zpos m) e else Z.shiftr (Zpos m) (- e) in
      if s then (- a)%Z else a
  | _ => 0%Z
  end.

End Double.

Definition double : Type := float.

#[export] Instance double_number : JSNumber double := {
  of_Z := Double.of_Z;
  of_decimal := Double.of_decimal;
  NaN := PrimFloat.nan;
  Infinity := PrimFloat.infinity;
  num_neg := PrimFloat.opp;
  num_add := PrimFloat.add;
  num_sub := PrimFloat.sub;
  num_mul := PrimFloat.mul;
  num_div := PrimFloat.div;
  num_ltb := PrimFloat.ltb;
  num_leb := PrimFloat.leb;
  num_eqb := PrimFloat.eqb;
  isNaN := PrimFloat.is_nan;
  isNegZero := Double.isNegZero;
  Math_floor := Double.floor;
  to_index := Double.to_index;
  truncate := Double.truncate
}.

(* ------------------------------------------------------------------ *)
(** ** Exact arithmetic *)

(** The rationals with the three special values of a JavaScript number.
    There is one zero; it behaves as [+0]. *)
Inductive ideal : Type :=
| IFin (q : Q)
| IPosInf
| INegInf
| INaN.

Module Ideal.

Definition sgn (q : Q) : comparison := (0 ?= q)%Q.

Definition inf (negative : bool) : ideal := if negative then INegInf else IPosInf.

Definition of_decimal (neg : bool) (digits : N) (e : Z) : ideal :=
  let m := inject_Z (Z.of_N digits) in
  let v := match e with
           | Zneg k => (m / inject_Z (Zpos (Pos.pow 10 k)))%Q
           | _ => (m * inject_Z (10 ^ e))%Q
           end in
  IFin (if neg then (- v)%Q else v).

Definition neg (x : ideal) : ideal :=
  match x with
  | IFin q => IFin (- q)
  | IPosInf => INegInf
  | INegInf => IPosInf
  | INaN => INaN
  end.

Definition add (x y : ideal) : ideal :=
  match x, y with
  | INaN, _ | _, INaN => INaN
  | IPosInf, INegInf | INegInf, IPosInf => INaN
  | IPosInf, _ | _, IPosInf => IPosInf
  | INegInf, _ | _, INegInf => INegInf
  | IFin a, IFin b => IFin (a + b)
  end.

Definition sub (x y : ideal) : ideal := add x (neg y).

(** The sign of an infinity times a finite or infinite factor. *)
Definition scale_inf (negative : bool) (y : ideal) : ideal :=
  match y with
  | INaN => INaN
  | IPosInf => inf negative
  | INegInf => inf (negb negative)
  | IFin b =>
      match sgn b with
      | Eq => INaN
      | Lt => inf negative
      | Gt => inf (negb negative)
      end
  end.

Definition mul (x y : ideal) : ideal :=
  match x, y with
  | IFin a, IFin b => IFin (a * b)
  | IPosInf, _ => scale_inf false y
  | INegInf, _ => scale_inf true y
  | _, IPosInf => scale_inf false x
  | _, INegInf => scale_inf true x
  | INaN, _ | _, INaN => INaN
  end.

Definition div (x y : ideal) : ideal :=
  match x, y with
  | INaN, _ | _, INaN => INaN
  | IFin a, IFin b =>
      match sgn b with
      | Eq => match sgn a with
              | Eq => INaN
              | Lt => IPosInf
              | Gt => INegInf
              end
      | _ => IFin (a / b)
      end
  | IFin _, (IPosInf | INegInf) => IFin 0
  | (IPosInf | INegInf), (IPosInf | INegInf) => INaN
  | IPosInf, IFin b => inf (Qle_bool b 0 && negb (Qeq_bool b 0))
  | INegInf, IFin b => inf (negb (Qle_bool b 0 && negb (Qeq_bool b 0)))
  end.

Definition compare (x y : ideal) : option comparison :=
  match x, y with
  | INaN, _ | _, INaN => None
  | IFin a, IFin b => Some (a ?= b)%Q
  | IPosInf, IPosInf | INegInf, INegInf => Some Eq
  | INegInf, _ | _, IPosInf => Some Lt
  | IPosInf, _ | _, INegInf => Some Gt
  end.

Definition ltb (x y : ideal) : bool :=
  match compare x y with Some Lt => true | _ => false end.
Definition leb (x y : ideal) : bool :=
  match compare x y with Some (Lt | Eq) => true | _ => false end.
Definition eqb (x y : ideal) : bool :=
  match compare x y with Some Eq => true | _ => false end.

Definition isNaN (x : ideal) : bool :=
  match x with INaN => true | _ => false end.

Definition floor (x : ideal) : ideal :=
  match x with
  | IFin q => IFin (inject_Z (Qfloor q))
  | _ => x
  end.

Definition to_index (x : ideal) : option nat :=
  match x with
  | IFin q =>
      if Qeq_bool q (inject_Z (Qfloor q)) && (0 <=? Qfloor q)%Z
      then Some (Z.to_nat (Qfloor q)) else None
  | _ => None
  end.

Definition truncate (x : ideal) : Z :=
  match x with
  | IFin q => Z.quot (Qnum q) (Zpos (Qden q))
  | _ => 0%Z
  end.

End Ideal.

#[export] Instance ideal_number : JSNumber ideal := {
  of_Z := fun z => IFin (inject_Z z);
  of_decimal := Ideal.of_decimal;
  NaN := INaN;
  Infinity := IPosInf;
  num_neg := Ideal.neg;
  num_add := Ideal.add;
  num_sub := Ideal.sub;
  num_mul := Ideal.mul;
  num_div := Ideal.div;
  num_ltb := Ideal.ltb;
  num_leb := Ideal.leb;
  num_eqb := Ideal.eqb;
  isNaN := Ideal.isNaN;
  isNegZero := fun _ => false;
  Math_floor := Ideal.floor;
  to_index := Ideal.to_index;
  truncate := Ideal.truncate
}.

(* ================================================================== *)
(** * Strings *)

Open Scope string_scope.
Open Scope list_scope.

(** White space and line terminators among the 8-bit code units: TAB, LF,
    VT, FF, CR, SP and NBSP. *)
Definition isWhiteSpace (c : ascii) : bool :=
  let n := nat_of_ascii c in
  ((9 <=? n) && (n <=? 13) || (n =? 32) || (n =? 160))%nat.

Fixpoint trimStart (s : string) : string :=
  match s with
  | String c s' => if isWhiteSpace c then trimStart s' else s
  | EmptyString => EmptyString
  end.

Definition reverse (s : string) : string :=
  string_of_list_ascii (rev (list_ascii_of_string s)).

(** [String.prototype.trim] *)
Definition trim (s : string) : string :=
  reverse (trimStart (reverse (trimStart s))).

(** [s.split(sep)] for a one-character separator: never empty. *)
Fixpoint split (sep : ascii) (s : string) : list string :=
  match s with
  | EmptyString => [EmptyString]
  | String c s' =>
      if Ascii.eqb c sep then EmptyString :: split sep s'
      else match split sep s' with
           | h :: t => String c h :: t
           | [] => [String c EmptyString]
           end
  end.

(** [a.slice(from, to)] for [0 <= from <= to]. *)
Definition slice {A} (from to : nat) (l : list A) : list A :=
  firstn (to - from) (skipn from l).

(* ================================================================== *)
(** * The chart *)

Section StockChart.

Context {num : Type} `{JSNumber num}.
Local Open Scope js_scope.

(** A property that may be [undefined]. *)
Definition ToNumber (v : option num) : num :=
  match v with Some x => x | None => NaN end.

(* ---------------------------------------------------------------- *)
(** ** [parseFloat] *)

Definition digitValue (c : ascii) : option N :=
  let n := N_of_ascii c in
  if ((48 <=? n) && (n <=? 57))%N then Some (n - 48)%N else None.

(** Reads the leading decimal digits of [s] on top of [acc]: the number
    read, how many digits it has, and the rest of [s]. *)
Fixpoint decimalDigits (acc : N) (count : nat) (s : string) : N * nat * string :=
  match s with
  | String c s' =>
      match digitValue c with
      | Some d => decimalDigits (acc * 10 + d)%N (S count) s'
      | None => (acc, count, s)
      end
  | EmptyString => (acc, count, s)
  end.

(** The exponent part: [e] or [E], an optional sign and at least one
    digit; anything else is not part of the literal. *)
Definition exponentPart (s : string) : Z :=
  match s with
  | String c s' =>
      if Ascii.eqb c "e" || Ascii.eqb c "E" then
        let '(negative, s'') :=
          match s' with
          | String c' t =>
              if Ascii.eqb c' "-" then (true, t)
              else if Ascii.eqb c' "+" then (false, t)
              else (false, s')
          | EmptyString => (false, s')
          end in
        let '(v, n, _) := decimalDigits 0 0 s'' in
        match n with
        | O => 0%Z
        | S _ => if negative then (- Z.of_N v)%Z else Z.of_N v
        end
      else 0%Z
  | EmptyString => 0%Z
  end.

(** The value of the longest prefix of [s] that is an unsigned decimal
    literal: [Infinity], digits with an optional fraction, or a fraction
    alone, each with an optional exponent. *)
Definition unsignedLiteral (negative : bool) (s : string) : num :=
  if prefix "Infinity" s then (if negative then num_neg Infinity else Infinity)
  else
    let '(ip, n1, r1) := decimalDigits 0 0 s in
    let integerOnly :=
      match n1 with
      | O => NaN
      | S _ => of_decimal negative ip (exponentPart r1)
      end in
    match r1 with
    | String c r2 =>
        if Ascii.eqb c "." then
          let '(m, n2, r3) := decimalDigits ip 0 r2 in
          match (n1 + n2)%nat with
          | O => NaN
          | S _ => of_decimal negative m (exponentPart r3 - Z.of_nat n2)
          end
        else integerOnly
    | EmptyString => integerOnly
    end.

(** [parseFloat(s)]: leading white space is skipped, the longest prefix
    that is a decimal literal is converted, and [NaN] is returned when
    there is none. *)
Definition parseFloat (s : string) : num :=
  let t := trimStart s in
  match t with
  | String c r =>
      if Ascii.eqb c "-" then unsignedLiteral true r
      else if Ascii.eqb c "+" then unsignedLiteral false r
      else unsignedLiteral false t
  | EmptyString => unsignedLiteral false t
  end.

(* ---------------------------------------------------------------- *)
(** ** Data *)

(** An element of [fullData].  A numeric property is [None] when it is
    [undefined]. *)
Record QuoteRecord := {
  date : string;
  open : option num;
  high : option num;
  low : option num;
  close : option num
}.

(** An element of [closingPrices]. *)
Record ClosingPrice := {
  cp_date : string;
  cp_close : option num
}.

(** An element of [movingAverage]. *)
Record MovingAveragePoint := {
  ma_date : string;
  avg : num
}.

Record Canvas := {
  width : num;
  height : num
}.

Record StockChart := {
  stockCanvas : Canvas;
  overlayCanvas : Canvas;
  padding : num;
  fullData : list QuoteRecord;
  closingPrices : list ClosingPrice;
  movingAverage : list MovingAveragePoint;
  (** the [(xScale, height)] captured by each registered pointer listener *)
  crosshairs : list (num * num)
}.

(** [constructor]: the two canvases are those of the document. *)
Definition constructor (stock overlay : Canvas) : StockChart :=
  {| stockCanvas := stock;
     overlayCanvas := overlay;
     padding := of_Z 60;
     fullData := [];
     closingPrices := [];
     movingAverage := [];
     crosshairs := [] |}.

(* ---------------------------------------------------------------- *)
(** ** [processCSVData] *)

(** [line.split(',').map((field, index) => index === 0 ? field :
    parseFloat(field))], destructured into [date, open, high, low,
    close]: a position beyond the last field is [undefined], fields after
    the fifth are dropped.  The first position always exists. *)
Definition parseLine (line : string) : QuoteRecord :=
  let fields := split "," line in
  let number (index : nat) := option_map parseFloat (nth_error fields index) in
  {| date := nth 0 fields "";
     open := number 1%nat;
     high := number 2%nat;
     low := number 3%nat;
     close := number 4%nat |}.

(** [csvData.trim().split('\n').slice(1)] *)
Definition dataLines (csvData : string) : list string :=
  tl (split "010" (trim csvData)).

(** The body of the [forEach]: two pushes. *)
Definition pushLine (s : StockChart) (line : string) : StockChart :=
  let r := parseLine line in
  {| stockCanvas := stockCanvas s;
     overlayCanvas := overlayCanvas s;
     padding := padding s;
     fullData := fullData s ++ [r];
     closingPrices := closingPrices s ++ [{| cp_date := date r; cp_close := close r |}];
     movingAverage := movingAverage s;
     crosshairs := crosshairs s |}.

Definition processCSVData (csvData : string) (s : StockChart) : StockChart :=
  fold_left pushLine (dataLines csvData) s.

(* ---------------------------------------------------------------- *)
(** ** [calculateMovingAverage] *)

Definition period : nat := 20.

(** [l.reduce((acc, val) => acc + val.close, 0)] *)
Definition sumClose (l : list ClosingPrice) : num :=
  fold_left (fun acc val => acc + ToNumber (cp_close val)) l (of_Z 0).

(** The body of the loop at index [i]; the loop keeps [i] below the length,
    so that [this.closingPrices[i]] is an element. *)
Definition averageStep (s : StockChart) (i : nat) : StockChart :=
  if (period - 1 <=? i)%nat then
    let sum := sumClose (slice (i - (period - 1)) (i + 1) (closingPrices s)) in
    let a := sum / of_nat period in
    match nth_error (closingPrices s) i with
    | Some c =>
        {| stockCanvas := stockCanvas s;
           overlayCanvas := overlayCanvas s;
           padding := padding s;
           fullData := fullData s;
           closingPrices := closingPrices s;
           movingAverage := movingAverage s ++ [{| ma_date := cp_date c; avg := a |}];
           crosshairs := crosshairs s |}
    | None => s
    end
  else s.

(** [for (let i = 0; i < this.closingPrices.length; i++)] *)
Definition calculateMovingAverage (s : StockChart) : StockChart :=
  fold_left averageStep (seq 0 (List.length (closingPrices s))) s.

(* ---------------------------------------------------------------- *)
(** ** The drawing surface *)

(** The text handed to [fillText].  The decimal rendering done by
    [toFixed(2)] is kept symbolic. *)
Inductive Text :=
| Price (p : num)
| Label (d : string)
| OHLC (o h l c : num).

(** The calls made on a 2D context, in order. *)
Inductive Command :=
| clearRect (x y w h : num)
| strokeStyle (v : string)
| fillStyle (v : string)
| lineWidth (v : num)
| textAlign (v : string)
| font (v : string)
| beginPath
| moveTo (x y : num)
| lineTo (x y : num)
| closePath
| fill
| stroke
| fillText (t : Text) (x y : num).

Definition isFillText (c : Command) : bool :=
  match c with fillText _ _ _ => true | _ => false end.

(** [a.forEach((element, index) => ...)] *)
Definition forEach {A} (f : A -> nat -> list Command) (a : list A) : list Command :=
  flat_map (fun '(index, element) => f element index)
           (combine (seq 0 (List.length a)) a).

(** [Math.max(...l)] and [Math.min(...l)] *)
Definition Math_max (l : list num) : num :=
  if existsb isNaN l then NaN
  else fold_left
         (fun highest number =>
            if (isNegZero highest && (number =? of_Z 0) && negb (isNegZero number))
               || (highest <? number)
            then number else highest)
         l (num_neg Infinity).

Definition Math_min (l : list num) : num :=
  if existsb isNaN l then NaN
  else fold_left
         (fun lowest number =>
            if (isNegZero number && (lowest =? of_Z 0) && negb (isNegZero lowest))
               || (number <? lowest)
            then number else lowest)
         l Infinity.

(* ---------------------------------------------------------------- *)
(** ** The scale ([plotChart], lines 72 to 77) *)

Definition contentWidth (s : StockChart) : num :=
  width (stockCanvas s) - of_Z 2 * padding s.

Definition contentHeight (s : StockChart) : num :=
  height (stockCanvas s) - of_Z 2 * padding s.

Definition closes (s : StockChart) : list num :=
  map (fun p => ToNumber (close p)) (fullData s).

Definition maxPrice (s : StockChart) : num := Math_max (closes s).
Definition minPrice (s : StockChart) : num := Math_min (closes s).

Definition xScale (s : StockChart) : num :=
  contentWidth s / of_nat (List.length (fullData s)).

Definition yScale (s : StockChart) : num :=
  contentHeight s / (maxPrice s - minPrice s).

(** The two coordinate maps, as [plotClosingPrices] and
    [plotMovingAverage] write them inline, and the inverse that the
    pointer listener computes. *)
Definition indexToX (pad xs : num) (index : nat) : num :=
  pad + of_nat index * xs.

Definition priceToY (pad h minP ys : num) (p : num) : num :=
  pad + h - (p - minP) * ys.

Definition xToIndex (pad xs : num) (x : num) : num :=
  Math_floor ((x - pad) / xs).

(* ---------------------------------------------------------------- *)
(** ** [drawGridLines] and [drawAxisLabels] *)

Definition drawGridLines (h w : num) (s : StockChart) : list Command :=
  [strokeStyle "#e0e0e0"; lineWidth (of_Z 1)]
  ++ flat_map
       (fun i =>
          let y := padding s + of_nat i * (h / of_Z 5) in
          [beginPath; moveTo (padding s) y; lineTo (w + padding s) y; stroke])
       (seq 0 6).

Definition priceLabels (h maxP minP : num) (s : StockChart) : list Command :=
  map (fun i =>
         let y := padding s + of_nat i * (h / of_Z 5) in
         let price := maxP - of_nat i * ((maxP - minP) / of_Z 5) in
         fillText (Price price) (padding s - of_Z 10) (y + of_Z 3))
      (seq 0 6).

(** [for (let i = 0; i < this.fullData.length;
         i += Math.floor(this.fullData.length / 10))]:
    the loop from a given [i].  [fuel] bounds the number of times the
    condition is evaluated; [None] means the bound was reached with the
    loop still running.  The counter and the step are integers below
    2^32, on which the number operations are exact. *)
Fixpoint dateLabels (fuel : nat) (h w : num) (s : StockChart) (i : nat)
  : option (list Command) :=
  match fuel with
  | O => None
  | S fuel' =>
      if (i <? List.length (fullData s))%nat then
        let x := padding s + of_nat i * (w / of_nat (List.length (fullData s))) in
        match nth_error (fullData s) i with
        | Some r =>
            option_map (cons (fillText (Label (date r)) x (h + padding s + of_Z 20)))
                       (dateLabels fuel' h w s (i + List.length (fullData s) / 10)%nat)
        | None => None
        end
      else Some []
  end.

Definition drawAxisLabels (fuel : nat) (h maxP minP w : num) (s : StockChart)
  : option (list Command) :=
  option_map
    (fun labels =>
       [textAlign "right"; fillStyle "#000"; font "12px Arial"]
       ++ priceLabels h maxP minP s
       ++ [textAlign "center"]
       ++ labels)
    (dateLabels fuel h w s 0).

(* ---------------------------------------------------------------- *)
(** ** [plotClosingPrices] and [plotMovingAverage] *)

Definition closingPoint (xs ys h minP : num) (s : StockChart)
           (price : QuoteRecord) (index : nat) : list Command :=
  let x := indexToX (padding s) xs index in
  let y := priceToY (padding s) h minP ys (ToNumber (close price)) in
  match index with
  | O => [moveTo x (h + padding s); lineTo x y]
  | S _ => [lineTo x y]
  end.

Definition plotClosingPrices (xs ys h minP : num) (s : StockChart) : list Command :=
  [fillStyle "rgba(0, 0, 255, 0.2)"; strokeStyle "blue"; beginPath]
  ++ forEach (closingPoint xs ys h minP s) (fullData s)
  ++ [lineTo (padding s + (of_nat (List.length (fullData s)) - of_Z 1) * xs) (h + padding s);
      closePath; fill; stroke].

Definition averagePoint (xs ys h minP : num) (s : StockChart)
           (ma : MovingAveragePoint) (index : nat) : list Command :=
  let x := indexToX (padding s) xs index in
  let y := priceToY (padding s) h minP ys (avg ma) in
  match index with
  | O => [moveTo x y]
  | S _ => [lineTo x y]
  end.

Definition plotMovingAverage (xs ys h minP : num) (s : StockChart) : list Command :=
  [strokeStyle "red"; beginPath]
  ++ forEach (averagePoint xs ys h minP s) (movingAverage s)
  ++ [stroke].

(* ---------------------------------------------------------------- *)
(** ** The pointer listeners ([addCrosshairsFunctionality]) *)

(** How a listener ends: normally, or by the [TypeError] of reading a
    property of [undefined]; either way with the calls made so far. *)
Inductive Completion :=
| Normal (calls : list Command)
| TypeError (calls : list Command).

Definition calls (c : Completion) : list Command :=
  match c with Normal l | TypeError l => l end.

(** The [mousemove] listener registered with [xs] and [h], for a pointer
    at [x = event.clientX - rect.left], [y = event.clientY - rect.top]. *)
Definition mousemove (xs h : num) (s : StockChart) (x y : num) : Completion :=
  let crosshair :=
    [clearRect (of_Z 0) (of_Z 0) (width (overlayCanvas s)) (height (overlayCanvas s));
     strokeStyle "rgba(0, 0, 0, 0.5)";
     beginPath; moveTo x (padding s); lineTo x (h + padding s); stroke;
     beginPath; moveTo (padding s) y;
     lineTo (width (stockCanvas s) - padding s) y; stroke] in
  let dataIndex := xToIndex (padding s) xs x in
  if (dataIndex >=? of_Z 0) && (dataIndex <? of_nat (List.length (fullData s))) then
    match match to_index dataIndex with
          | Some n => nth_error (fullData s) n
          | None => None
          end with
    | Some {| open := Some o; high := Some hi; low := Some lo; close := Some c |} =>
        Normal (crosshair ++ [fillStyle "black";
                              fillText (OHLC o hi lo c) (x + of_Z 10) (y - of_Z 10)])
    | _ => TypeError (crosshair ++ [fillStyle "black"])
    end
  else Normal crosshair.

(** The [mouseout] listener. *)
Definition mouseout (s : StockChart) : list Command :=
  [clearRect (of_Z 0) (of_Z 0) (width (overlayCanvas s)) (height (overlayCanvas s))].

(* ---------------------------------------------------------------- *)
(** ** [plotChart] *)

(** What a call of [plotChart] leaves behind: the chart (with the new
    listener), and the calls made on the two contexts. *)
Record Plot := {
  chart : StockChart;
  ctx : list Command;
  overlayCtx : list Command
}.

Definition addCrosshairsFunctionality (xs h : num) (s : StockChart) : StockChart :=
  {| stockCanvas := stockCanvas s;
     overlayCanvas := overlayCanvas s;
     padding := padding s;
     fullData := fullData s;
     closingPrices := closingPrices s;
     movingAverage := movingAverage s;
     crosshairs := crosshairs s ++ [(xs, h)] |}.

Definition plotChart (fuel : nat) (showCrosshairs : bool) (s : StockChart)
  : option Plot :=
  let w := contentWidth s in
  let h := contentHeight s in
  let maxP := maxPrice s in
  let minP := minPrice s in
  let xs := xScale s in
  let ys := yScale s in
  match drawAxisLabels fuel h maxP minP w s with
  | None => None
  | Some labels =>
      Some {| chart := if showCrosshairs then addCrosshairsFunctionality xs h s else s;
              ctx := [clearRect (of_Z 0) (of_Z 0)
                                (width (stockCanvas s)) (height (stockCanvas s))]
                     ++ drawGridLines h w s
                     ++ labels
                     ++ plotClosingPrices xs ys h minP s
                     ++ plotMovingAverage xs ys h minP s;
              overlayCtx := [clearRect (of_Z 0) (of_Z 0)
                                       (width (overlayCanvas s))
                                       (height (overlayCanvas s))] |}
  end.

(* ---------------------------------------------------------------- *)
(** ** The wheel listener ([addEventListeners]) *)

Definition zoomFactor : num := of_decimal false 11 (-1).

(** [stockCanvas] is a canvas element of the document, and its [width] is
    an attribute of type [unsigned long] that reflects the content
    attribute.  A number written to it is converted first: its integer
    part, modulo [2^32]. *)
Definition ToUint32 (v : num) : Z := (truncate v mod 2 ^ 32)%Z.

(** What is read back from [canvas.width] after [v] has been written to
    it: a value above [2147483647] is replaced by the default width of a
    canvas, [300]. *)
Definition canvasWidth (v : num) : num :=
  let n := ToUint32 v in
  of_Z (if (n <=? 2147483647)%Z then n else 300%Z).

(** [this.stockCanvas.width *= zoomFactor] and
    [this.stockCanvas.width /= zoomFactor]: the width that the canvas has
    afterwards. *)
Definition zoom (deltaY : num) (w : num) : num :=
  canvasWidth (if deltaY <? of_Z 0 then w * zoomFactor else w / zoomFactor).

Definition setWidth (w : num) (s : StockChart) : StockChart :=
  {| stockCanvas := {| width := w; height := height (stockCanvas s) |};
     overlayCanvas := overlayCanvas s;
     padding := padding s;
     fullData := fullData s;
     closingPrices := closingPrices s;
     movingAverage := movingAverage s;
     crosshairs := crosshairs s |}.

Definition wheel (fuel : nat) (deltaY : num) (s : StockChart) : option Plot :=
  plotChart fuel true (setWidth (zoom deltaY (width (stockCanvas s))) s).

(** [n] wheel steps with the same [deltaY], on the width alone. *)
Definition zoomSteps (deltaY : num) (n : nat) (w : num) : num :=
  Nat.iter n (zoom deltaY) w.

(* ---------------------------------------------------------------- *)
(** ** [fetchCSVData], once the response text is there

    The wheel listener of [addEventListeners] is registered after
    [plotChart] has returned. *)

Definition load (csvData : string) (s : StockChart) : StockChart :=
  calculateMovingAverage (processCSVData csvData s).

Definition fetchCSVData (fuel : nat) (csvData : string) (s : StockChart)
  : option Plot :=
  plotChart fuel true (load csvData s).

End StockChart.

Arguments QuoteRecord num : clear implicits.
Arguments ClosingPrice num : clear implicits.
Arguments MovingAveragePoint num : clear implicits.
Arguments Canvas num : clear implicits.
Arguments StockChart num : clear implicits.
Arguments Text num : clear implicits.
Arguments Command num : clear implicits.
Arguments Completion num : clear implicits.
Arguments Plot num : clear implicits.


(* ================================================================== *)
(** * Vocabulary of the properties *)

Section Vocabulary.

Context {num : Type} `{JSNumber num}.
Local Open Scope js_scope.

(** The closing-price view of a record, as [processCSVData] pushes it. *)
Definition closingOf (r : QuoteRecord num) : ClosingPrice num :=
  {| cp_date := date r; cp_close := close r |}.

(** The closing price of an element of [closingPrices], as a number. *)
Definition closeValue (c : ClosingPrice num) : num := ToNumber (cp_close c).

(** The sum of a list of numbers, added from the left starting at [0], and
    their arithmetic mean. *)
Definition sum (l : list num) : num := fold_left num_add l (of_Z 0).

Definition mean (l : list num) : num := sum l / of_nat (List.length l).

(** What [averageStep] appends at index [i]: nothing, or one point. *)
Definition averageAt (cps : list (ClosingPrice num)) (i : nat)
  : list (MovingAveragePoint num) :=
  if (period - 1 <=? i)%nat then
    match nth_error cps i with
    | Some c =>
        [{| ma_date := cp_date c;
            avg := sumClose (slice (i - (period - 1)) (i + 1) cps) / of_nat period |}]
    | None => []
    end
  else [].

(** A default element, for [nth]. *)
Definition noClosingPrice : ClosingPrice num := {| cp_date := ""; cp_close := None |}.

(** The path command of a [forEach] body: [moveTo] at index 0, [lineTo]
    afterwards. *)
Definition pen (index : nat) (x y : num) : Command num :=
  match index with
  | O => moveTo x y
  | S _ => lineTo x y
  end.

(** Some text is drawn. *)
Definition drawsText (l : list (Command num)) : bool := existsb isFillText l.

Definition isDigit (c : ascii) : bool :=
  match digitValue c with Some _ => true | None => false end.

(** [s], after leading white space and an optional sign, starts with
    [Infinity], with a digit, or with a dot and a digit. *)
Definition startsLiteral (s : string) : bool :=
  let t := trimStart s in
  let u := match t with
           | String c r => if Ascii.eqb c "-" || Ascii.eqb c "+" then r else t
           | EmptyString => t
           end in
  prefix "Infinity" u
  || match u with
     | String c r =>
         isDigit c
         || (Ascii.eqb c "."
             && match r with String d _ => isDigit d | EmptyString => false end)
     | EmptyString => false
     end.

End Vocabulary.

(** A double that is an infinity or [NaN], and one that is a zero or
    [NaN], read off its IEEE-754 decomposition. *)
Definition notFinite (x : double) : Prop :=
  match Prim2SF x with
  | S754_infinity _ | S754_nan => True
  | _ => False
  end.

Definition zeroOrNaN (x : double) : Prop :=
  match Prim2SF x with
  | S754_zero _ | S754_nan => True
  | _ => False
  end.

(* ================================================================== *)
(** * Sample inputs *)

Definition newline : string := String "010" "".

(** A CSV text: the header line, then the given data lines. *)
Definition csvText (rows : list string) : string :=
  String.concat newline ("date,open,high,low,close" :: rows).

Definition decimal (n : nat) : string := NilEmpty.string_of_uint (Nat.to_uint n).

(** The data line of day [n]: it closes at [n]. *)
Definition row (n : nat) : string :=
  ("d" ++ decimal n ++ ",1,2,0.5," ++ decimal n)%string.

Definition canvas800x600 : Canvas double :=
  {| width := Double.of_Z 800; height := Double.of_Z 600 |}.

(** 25 days closing at 1, 2, ..., 25. *)
Definition csv25 : string := csvText (map row (seq 1 25)).

(** Five days. *)
Definition csv5 : string := csvText (map row (seq 1 5)).

(** Three days. *)
Definition csv3 : string := csvText ["d1,1,2,0.5,10"; "d2,1,2,0.5,12"; "d3,1,2,0.5,11"].

(** A single day. *)
Definition csv1 : string := csvText ["d1,1,2,0.5,10"].

(** Two days, closing at 10 and 17.25. *)
Definition csv2 : string := csvText ["d1,1,2,0.5,10"; "d2,1,2,0.5,17.25"].

(** A line of four fields, and a line whose last field has trailing text. *)
Definition csvShort : string := csvText ["2024-01-02,1,2,3"].
Definition csvTrailing : string := csvText ["2024-01-02,1,2,3,12abc"].

Definition fresh : StockChart double := constructor canvas800x600 canvas800x600.

Definition chart25 : StockChart double := load csv25 fresh.
Definition chart5 : StockChart double := load csv5 fresh.
Definition chart3 : StockChart double := load csv3 fresh.
Definition chart2 : StockChart double := load csv2 fresh.
Definition chart1 : StockChart double := load csv1 fresh.

(** Ten days, on a canvas 100 pixels wide: narrower than twice the
    padding. *)
Definition csv10 : string := csvText (map row (seq 1 10)).

Definition canvas100x600 : Canvas double :=
  {| width := Double.of_Z 100; height := Double.of_Z 600 |}.

Definition chartNarrow : StockChart double :=
  load csv10 (constructor canvas100x600 canvas800x600).

(** Two days, on a canvas 100 pixels high, in exact arithmetic. *)
Definition canvas800x100 : Canvas ideal :=
  {| width := IFin (inject_Z 800); height := IFin (inject_Z 100) |}.

Definition chartLow : StockChart ideal :=
  load csv2 (constructor canvas800x100 canvas800x100).

(** The same days in exact arithmetic, on a canvas of 800 by 600. *)
Definition exactCanvas800x600 : Canvas ideal :=
  {| width := IFin (inject_Z 800); height := IFin (inject_Z 600) |}.

Definition exactChart3 : StockChart ideal :=
  load csv3 (constructor exactCanvas800x600 exactCanvas800x600).

Definition exactChart2 : StockChart ideal :=
  load csv2 (constructor exactCanvas800x600 exactCanvas800x600).

(* ================================================================== *)
(** * The number literals that [parseFloat] reads

    [parseFloat] converts the longest prefix of its trimmed argument
    that is a decimal literal. This is the grammar of those literals,
    as the language defines it, with the number that each one denotes:
    an optional sign, then [Infinity], or digits with an optional
    fraction, or a fraction alone, each with an optional exponent. *)

Definition startsWithDigit (s : string) : bool :=
  match s with
  | String c _ => isDigit c
  | EmptyString => false
  end.

Definition digitsOnly (s : string) : bool :=
  forallb isDigit (list_ascii_of_string s).

(** The number that a string of digits denotes, read on top of [acc]. *)
Fixpoint digitsValue (acc : N) (s : string) : N :=
  match s with
  | String c s' =>
      match digitValue c with
      | Some d => digitsValue (acc * 10 + d)%N s'
      | None => acc
      end
  | EmptyString => acc
  end.

Definition isExponentIndicator (c : ascii) : bool :=
  Ascii.eqb c "e" || Ascii.eqb c "E".

(** A sign, and whether it is the minus sign. *)
Inductive Sign : string -> bool -> Prop :=
| no_sign : Sign "" false
| plus_sign : Sign "+" false
| minus_sign : Sign "-" true.

(** [e] or [E], a sign, and at least one digit. *)
Inductive ExponentPart : string -> Z -> Prop :=
| exponent_part (c : ascii) (sign digits : string) (negative : bool) :
    isExponentIndicator c = true ->
    Sign sign negative ->
    digits <> EmptyString ->
    digitsOnly digits = true ->
    ExponentPart (String c (sign ++ digits))
                 (if negative then (- Z.of_N (digitsValue 0 digits))%Z
                  else Z.of_N (digitsValue 0 digits)).

Inductive OptionalExponent : string -> Z -> Prop :=
| without_exponent : OptionalExponent "" 0
| with_exponent (ex : string) (e : Z) : ExponentPart ex e -> OptionalExponent ex e.

(** An unsigned decimal literal, with its digits and its power of ten:
    it denotes [digits * 10^e]. *)
Inductive UnsignedDecimal : string -> N -> Z -> Prop :=
| decimal_integer (ip ex : string) (e : Z) :
    ip <> EmptyString ->
    digitsOnly ip = true ->
    OptionalExponent ex e ->
    UnsignedDecimal (ip ++ ex) (digitsValue 0 ip) e
| decimal_fraction (ip fp ex : string) (e : Z) :
    digitsOnly ip = true ->
    digitsOnly fp = true ->
    ip <> EmptyString \/ fp <> EmptyString ->
    OptionalExponent ex e ->
    UnsignedDecimal (ip ++ "." ++ fp ++ ex)
                    (digitsValue 0 (ip ++ fp))
                    (e - Z.of_nat (String.length fp)).

Section Literals.

Context {num : Type} `{JSNumber num}.

(** A numeric literal and the number that it denotes. *)
Inductive NumericLiteral : string -> num -> Prop :=
| literal_Infinity (sign : string) (negative : bool) :
    Sign sign negative ->
    NumericLiteral (sign ++ "Infinity")
                   (if negative then num_neg Infinity else Infinity)
| literal_decimal (sign u : string) (negative : bool) (digits : N) (e : Z) :
    Sign sign negative ->
    UnsignedDecimal u digits e ->
    NumericLiteral (sign ++ u) (of_decimal negative digits e).

(** [literal] is the longest prefix of [text] that is a numeric literal,
    and it denotes [value]. *)
Definition longestLiteral (text literal : string) (value : num) : Prop :=
  (exists rest, text = (literal ++ rest)%string)
  /\ NumericLiteral literal value
  /\ forall literal' rest' value',
       text = (literal' ++ rest')%string ->
       NumericLiteral literal' value' ->
       (String.length literal' <= String.length literal)%nat.

End Literals.

(* ================================================================== *)
(** * Further vocabulary *)

(** How many times the character [c] occurs in [s]. *)
Fixpoint occurrences (c : ascii) (s : string) : nat :=
  match s with
  | EmptyString => 0
  | String c' s' => (if Ascii.eqb c' c then 1 else 0) + occurrences c s'
  end.

(** [s] consists of white space only. *)
Fixpoint allWhiteSpace (s : string) : bool :=
  match s with
  | EmptyString => true
  | String c s' => isWhiteSpace c && allWhiteSpace s'
  end.

(** [fields.join(sep)] *)
Definition join (sep : ascii) (fields : list string) : string :=
  String.concat (String sep "") fields.

Section MoreVocabulary.

Context {num : Type} `{JSNumber num}.
Local Open Scope js_scope.

(** The points that [calculateMovingAverage] computes from a list of
    closing prices: one per window of [period] prices. *)
Definition windowMeans (cps : list (ClosingPrice num)) : list (MovingAveragePoint num) :=
  map (fun j =>
         {| ma_date := cp_date (nth (j + (period - 1)) cps noClosingPrice);
            avg := mean (map closeValue (slice j (j + period) cps)) |})
      (seq 0 (List.length cps - (period - 1))).

(** [closingPrices] is the closing-price view of [fullData]. *)
Definition aligned (s : StockChart num) : Prop :=
  closingPrices s = map closingOf (fullData s).

(** Two charts that differ at most in [movingAverage]. *)
Definition sameButAverage (s s' : StockChart num) : Prop :=
  stockCanvas s' = stockCanvas s
  /\ overlayCanvas s' = overlayCanvas s
  /\ padding s' = padding s
  /\ fullData s' = fullData s
  /\ closingPrices s' = closingPrices s
  /\ crosshairs s' = crosshairs s.

(** The steps of [Math_max] and [Math_min]. *)
Definition maxStep (highest number : num) : num :=
  if (isNegZero highest && (number =? of_Z 0) && negb (isNegZero number))
     || (highest <? number)
  then number else highest.

Definition minStep (lowest number : num) : num :=
  if (isNegZero number && (lowest =? of_Z 0) && negb (isNegZero lowest))
     || (number <? lowest)
  then number else lowest.

End MoreVocabulary.

(** The 25 days with the line of day 22 cut short, as [processCSVData]
    leaves them. *)
Definition csvGap : string :=
  csvText (map row (seq 1 21) ++ ["d22,1,2"] ++ map row (seq 23 3)).

Definition chartGap : StockChart double := processCSVData csvGap fresh.

(** The rational that a finite exact number is. *)
Definition toQ (x : ideal) : Q :=
  match x with IFin q => q | _ => 0 end.

(** Every record has a finite close. *)
Definition finiteCloses {num} `{JSNumber num} (s : StockChart num) : Prop :=
  forall r, In r (fullData s) -> isFinite (ToNumber (close r)) = true.

(** The point [(x, y)] lies in the content area of the chart, whose right
    edge is excluded. *)
Definition insideContentArea {num} `{JSNumber num} (s : StockChart num) (x y : num)
  : Prop :=
  (padding s <=? x)%js = true
  /\ (x <? width (stockCanvas s) - padding s)%js = true
  /\ (padding s <=? y)%js = true
  /\ (y <=? height (stockCanvas s) - padding s)%js = true.

(** The 25 days in exact arithmetic, as [processCSVData] leaves them. *)
Definition exactChart25 : StockChart ideal :=
  processCSVData csv25 (constructor exactCanvas800x600 exactCanvas800x600).

(** Three days in exact arithmetic, the line of the second cut short. *)
Definition exactChartShort : StockChart ideal :=
  load (csvText ["d1,1,2,0.5,10"; "d2,1,2"; "d3,1,2,0.5,11"])
       (constructor exactCanvas800x600 exactCanvas800x600).

Section Events.

Context {num : Type} `{JSNumber num}.

(** A sequence of wheel events, each handled once the redraw of the one
    before has returned. *)
Fixpoint wheels (fuel : nat) (deltas : list num) (s : StockChart num)
  : option (StockChart num) :=
  match deltas with
  | [] => Some s
  | deltaY :: rest =>
      match wheel fuel deltaY s with
      | Some plot => wheels fuel rest (chart plot)
      | None => None
      end
  end.

End Events.

(** A carriage return, and a text with its line feeds turned into
    carriage return and line feed, as a file with Windows line endings
    has them; [lfcr] is its mirror image. *)
Definition cr : string := String "013" EmptyString.

Fixpoint crlf (s : string) : string :=
  match s with
  | String c s' =>
      if Ascii.eqb c "010" then String "013" (String "010" (crlf s'))
      else String c (crlf s')
  | EmptyString => EmptyString
  end.

Fixpoint lfcr (s : string) : string :=
  match s with
  | String c s' =>
      if Ascii.eqb c "010" then String "010" (String "013" (lfcr s'))
      else String c (lfcr s')
  | EmptyString => EmptyString
  end.

(** Twenty-five days that all close at 10. *)
Definition csvFlat : string :=
  csvText (map (fun n => ("d" ++ decimal n ++ ",1,2,0.5,10")%string) (seq 1 25)).

Definition chartFlat : StockChart double := load csvFlat fresh.

(** A mantissa shifted to the right has lost something when its round bit
    or its sticky bit is set. *)
Definition inexact (mrs : shr_record) : bool := shr_r mrs || shr_s mrs.

(* ================================================================== *)
(** * [parseFloat] reads the longest literal *)

Section DigitRuns.

Local Open Scope string_scope.

Lemma digitsOnly_String (c : ascii) (s : string) :
  digitsOnly (String c s) = isDigit c && digitsOnly s.
Proof. reflexivity. Qed.

Lemma digitsOnly_starts (ds rest : string) :
  digitsOnly ds = true -> ds <> "" -> startsWithDigit (ds ++ rest) = true.
Proof.
  destruct ds as [|c ds]; [congruence|].
  rewrite digitsOnly_String. intros Hds _. now apply andb_true_iff in Hds.
Qed.

(** A string is its leading digits, which [decimalDigits] reads, and a
    rest that does not start with a digit. *)
Lemma digits_split (s : string) :
  exists ds rest,
    s = ds ++ rest
    /\ digitsOnly ds = true
    /\ startsWithDigit rest = false
    /\ forall acc k,
         decimalDigits acc k s
         = (digitsValue acc ds, (k + String.length ds)%nat, rest).
Proof.
  induction s as [|c s IH].
  - exists "", "". repeat split. intros acc k. cbn. now rewrite Nat.add_0_r.
  - destruct IH as (ds & rest & Hs & Hds & Hrest & Hdec).
    destruct (digitValue c) as [d|] eqn:Hc.
    + exists (String c ds), rest.
      split; [cbn; now rewrite <- Hs|].
      split; [rewrite digitsOnly_String; unfold isDigit; now rewrite Hc|].
      split; [exact Hrest|].
      intros acc k. cbn [decimalDigits digitsValue String.length].
      rewrite Hc, Hdec. now rewrite Nat.add_succ_r.
    + exists "", (String c s).
      split; [reflexivity|]. split; [reflexivity|].
      split; [cbn; unfold isDigit; now rewrite Hc|].
      intros acc k. cbn. now rewrite Hc, Nat.add_0_r.
Qed.

(** The leading digits of a string are its longest prefix of digits. *)
Lemma digits_prefix (ds rest ds' rest' : string) :
  digitsOnly ds = true ->
  startsWithDigit rest = false ->
  digitsOnly ds' = true ->
  ds ++ rest = ds' ++ rest' ->
  (String.length ds' <= String.length ds)%nat
  /\ (startsWithDigit rest' = false -> ds' = ds /\ rest' = rest).
Proof.
  revert ds'. induction ds as [|c ds IH]; intros ds' Hds Hrest Hds' Heq.
  - destruct ds' as [|c' ds'].
    + cbn in Heq. subst rest'. split; [cbn; lia | auto].
    + cbn in Heq. subst rest. rewrite digitsOnly_String in Hds'.
      apply andb_true_iff in Hds' as [Hc' _]. cbn in Hrest. congruence.
  - rewrite digitsOnly_String in Hds. apply andb_true_iff in Hds as [Hc Hds].
    destruct ds' as [|c' ds'].
    + cbn in Heq. subst rest'. split; [cbn; lia|].
      cbn. congruence.
    + cbn in Heq. injection Heq as <- Heq.
      rewrite digitsOnly_String in Hds'.
      apply andb_true_iff in Hds' as [_ Hds'].
      destruct (IH ds' Hds Hrest Hds' Heq) as [Hlen Hsame].
      split; [cbn; lia|].
      intros Hr. destruct (Hsame Hr) as [-> ->]. auto.
Qed.

Lemma digitsValue_append (a b : string) (acc : N) :
  digitsOnly a = true ->
  digitsValue acc (a ++ b) = digitsValue (digitsValue acc a) b.
Proof.
  revert acc; induction a as [|c a IH]; intros acc Ha; [reflexivity|].
  rewrite digitsOnly_String in Ha. apply andb_true_iff in Ha as [Hc Ha].
  cbn. unfold isDigit in Hc. destruct (digitValue c); [|discriminate].
  now apply IH.
Qed.

Lemma string_append_assoc (a b c : string) :
  (a ++ b) ++ c = a ++ (b ++ c).
Proof. induction a as [|x a IH]; cbn; [reflexivity | now rewrite IH]. Qed.

Lemma string_append_nil (a : string) : a ++ "" = a.
Proof. induction a as [|x a IH]; cbn; [reflexivity | now rewrite IH]. Qed.

Lemma length_append (a b : string) :
  String.length (a ++ b) = (String.length a + String.length b)%nat.
Proof. induction a as [|c a IH]; cbn; [reflexivity | now rewrite IH]. Qed.

Lemma length_zero (a : string) : String.length a = 0%nat -> a = "".
Proof. destruct a; [reflexivity | discriminate]. Qed.

End DigitRuns.

Section Exponents.

Local Open Scope string_scope.

(** The text after the exponent indicator: an optional sign and the
    digits that follow it. Whatever sign and digits are found at the
    start of [s] are those that [exponentPart] reads. *)
Lemma exponent_sign (s : string) :
  exists sign negative tail,
    Sign sign negative
    /\ s = sign ++ tail
    /\ match s with
       | String c' t =>
           if Ascii.eqb c' "-" then (true, t)
           else if Ascii.eqb c' "+" then (false, t)
           else (false, s)
       | EmptyString => (false, s)
       end = (negative, tail)
    /\ forall sign' negative' digits' rest',
         Sign sign' negative' ->
         digitsOnly digits' = true ->
         digits' <> "" ->
         s = sign' ++ digits' ++ rest' ->
         sign' = sign /\ negative' = negative.
Proof.
  assert (Hfirst : forall digits' rest' c,
             digitsOnly digits' = true -> digits' <> "" ->
             isDigit c = false ->
             forall t, String c t = digits' ++ rest' -> False).
  { intros digits' rest' c Hd Hne Hc t Heq.
    destruct digits' as [|d digits']; [congruence|].
    rewrite digitsOnly_String in Hd. apply andb_true_iff in Hd as [Hd _].
    cbn in Heq. injection Heq as -> _. congruence. }
  destruct s as [|c' t].
  - exists "", false, "". repeat split; try constructor.
    + destruct H as [| |]; cbn in H2; try discriminate; reflexivity.
    + destruct H as [| |]; cbn in H2; try discriminate; reflexivity.
  - destruct (Ascii.eqb_spec c' "-") as [-> | Hminus].
    + exists "-", true, t. repeat split; try constructor;
        destruct H as [| |]; cbn in H2; try discriminate; try reflexivity;
        exfalso; eapply (Hfirst _ _ "-"%char H0 H1 eq_refl); exact H2.
    + destruct (Ascii.eqb_spec c' "+") as [-> | Hplus].
      * exists "+", false, t. repeat split; try constructor;
          destruct H as [| |]; cbn in H2; try discriminate; try reflexivity;
          exfalso; eapply (Hfirst _ _ "+"%char H0 H1 eq_refl); exact H2.
      * exists "", false, (String c' t). repeat split; try constructor;
          destruct H as [| |]; cbn in H2; try reflexivity;
          injection H2 as Hc _; congruence.
Qed.

(** [exponentPart] reads the longest exponent part at the start of its
    argument. *)
Lemma exponent_longest (r : string) :
  exists ex rest,
    r = ex ++ rest
    /\ OptionalExponent ex (exponentPart r)
    /\ forall ex' e' rest',
         r = ex' ++ rest' ->
         OptionalExponent ex' e' ->
         (String.length ex' <= String.length ex)%nat.
Proof.
  destruct r as [|c s].
  - exists "", "". split; [reflexivity|]. split; [constructor|].
    intros ex' e' rest' Hr _. destruct ex'; [cbn; lia | discriminate].
  - destruct (isExponentIndicator c) eqn:Hc.
    + destruct (exponent_sign s) as (sign & negative & tail & Hsign & Hs & Hread & Hunique).
      destruct (digits_split tail) as (ds & rest & Htail & Hds & Hrest & Hdec).
      assert (Hvalue : exponentPart (String c s)
                       = match String.length ds with
                         | O => 0%Z
                         | S _ => if negative then (- Z.of_N (digitsValue 0 ds))%Z
                                  else Z.of_N (digitsValue 0 ds)
                         end).
      { unfold exponentPart.
        change (Ascii.eqb c "e" || Ascii.eqb c "E") with (isExponentIndicator c).
        rewrite Hc, Hread, Hdec. reflexivity. }
      assert (Hlonger : forall ex' e' rest',
                 String c s = ex' ++ rest' ->
                 ExponentPart ex' e' ->
                 exists digits',
                   String.length ex'
                   = S (String.length sign + String.length digits')
                   /\ digits' <> ""
                   /\ (String.length digits' <= String.length ds)%nat).
      { intros ex' e' rest' Hr Hex.
        destruct Hex as [c0 sign' digits' negative' _ Hsign' Hne Hdigits'].
        cbn in Hr. injection Hr as _ Hr.
        rewrite string_append_assoc in Hr.
        destruct (Hunique sign' negative' digits' rest' Hsign' Hdigits' Hne Hr)
          as [-> ->].
        exists digits'. split; [cbn; now rewrite length_append|].
        split; [exact Hne|].
        rewrite Hs in Hr.
        assert (Hsame : tail = digits' ++ rest').
        { clear - Hr Hsign. destruct Hsign; cbn in Hr; congruence. }
        rewrite Htail in Hsame.
        now destruct (digits_prefix ds rest digits' rest' Hds Hrest Hdigits' Hsame). }
      destruct ds as [|d ds].
      * exists "", (String c s). split; [reflexivity|].
        split; [rewrite Hvalue; constructor|].
        intros ex' e' rest' Hr Hex.
        destruct Hex as [|ex' e' Hpart]; [cbn; lia|].
        destruct (Hlonger ex' e' rest' Hr Hpart) as (digits' & _ & Hne & Hlen).
        cbn in Hlen. apply Nat.le_0_r, length_zero in Hlen. congruence.
      * exists (String c (sign ++ String d ds)), rest.
        split; [cbn; now rewrite string_append_assoc, <- Htail, <- Hs|].
        split.
        -- rewrite Hvalue. cbn [String.length]. apply with_exponent.
           now apply exponent_part.
        -- intros ex' e' rest' Hr Hex.
           destruct Hex as [|ex' e' Hpart]; [cbn; lia|].
           destruct (Hlonger ex' e' rest' Hr Hpart) as (digits' & Hex' & _ & Hlen).
           rewrite Hex'. cbn [String.length]. rewrite length_append. lia.
    + exists "", (String c s). split; [reflexivity|]. split.
      * unfold exponentPart.
        change (Ascii.eqb c "e" || Ascii.eqb c "E") with (isExponentIndicator c).
        rewrite Hc. constructor.
      * intros ex' e' rest' Hr Hex.
        destruct Hex as [|ex' e' Hpart]; [cbn; lia|].
        destruct Hpart as [c0 sign' digits' negative' Hc0 _ _ _].
        cbn in Hr. injection Hr as -> _. congruence.
Qed.

End Exponents.

Section LongestLiteral.

Context {num : Type} `{JSNumber num}.
Local Open Scope string_scope.

Lemma indicator_no_digit (c : ascii) :
  isExponentIndicator c = true -> isDigit c = false /\ Ascii.eqb c "." = false.
Proof.
  unfold isExponentIndicator. intros Hc. apply orb_true_iff in Hc as [Hc | Hc];
    apply Ascii.eqb_eq in Hc; subst c; split; reflexivity.
Qed.

Lemma exponent_starts (ex rest : string) (e : Z) :
  ExponentPart ex e ->
  exists c tail,
    (ex ++ rest) = String c tail
    /\ isDigit c = false /\ Ascii.eqb c "." = false.
Proof.
  intros [c sign digits negative Hc _ _ _].
  destruct (indicator_no_digit c Hc) as [Hd Hdot].
  exists c, ((sign ++ digits) ++ rest). repeat split; assumption.
Qed.

(** What [unsignedLiteral] reads when its argument starts with a digit
    or with a dot and a digit: the longest unsigned decimal literal at
    the start of the argument. *)
Lemma unsigned_longest (negative : bool) (t : string) :
  prefix "Infinity" t = false ->
  match t with
  | String c r =>
      isDigit c
      || (Ascii.eqb c "."
          && match r with String d _ => isDigit d | EmptyString => false end)
  | EmptyString => false
  end = true ->
  exists u rest digits e,
    t = u ++ rest
    /\ UnsignedDecimal u digits e
    /\ unsignedLiteral negative t = of_decimal negative digits e
    /\ forall u' rest' digits' e',
         t = u' ++ rest' ->
         UnsignedDecimal u' digits' e' ->
         (String.length u' <= String.length u)%nat.
Proof.
  intros Hinf Hstart. unfold unsignedLiteral. rewrite Hinf.
  destruct (digits_split t) as (ip & r1 & Ht & Hip & Hr1 & Hdec).
  rewrite Hdec. cbn [Nat.add].
  (* what a literal at the start of [t] looks like *)
  assert (Hinteger : forall ip' tail',
             digitsOnly ip' = true -> t = ip' ++ tail' ->
             (String.length ip' <= String.length ip)%nat
             /\ (startsWithDigit tail' = false -> ip' = ip /\ tail' = r1)).
  { intros ip' tail' Hip' Heq. rewrite Ht in Heq.
    exact (digits_prefix ip r1 ip' tail' Hip Hr1 Hip' Heq). }
  destruct r1 as [|c r2] eqn:Er1; [|destruct (Ascii.eqb c ".") eqn:Hdot].
  - (* digits to the end *)
    assert (Hne : ip <> "").
    { intros ->. cbn in Ht. subst t. discriminate. }
    exists ip, "", (digitsValue 0 ip), 0%Z.
    split; [exact Ht|]. split.
    { rewrite <- (string_append_nil ip) at 1. apply decimal_integer; auto. constructor. }
    split.
    { destruct (String.length ip) eqn:El; [apply length_zero in El; congruence|].
      reflexivity. }
    intros u' rest' digits' e' Hu' Hliteral.
    destruct Hliteral as [ip' ex' e0 Hne' Hip' Hex' | ip' fp' ex' e0 Hip' Hfp' _ Hex'].
    + rewrite string_append_assoc in Hu'.
      destruct (Hinteger ip' (ex' ++ rest') Hip' Hu') as [Hlen Hsame].
      destruct Hex' as [|ex' e0 Hpart]; [rewrite string_append_nil; exact Hlen|].
      destruct (exponent_starts ex' rest' e0 Hpart) as (c0 & tail & Hc0 & Hd0 & _).
      rewrite Hc0 in Hsame. destruct Hsame as [_ Hnil]; [exact Hd0 | discriminate].
    + rewrite !string_append_assoc in Hu'.
      destruct (Hinteger ip' ("." ++ fp' ++ ex' ++ rest') Hip' Hu') as [_ Hsame].
      destruct Hsame as [_ Hnil]; [reflexivity | discriminate].
  - (* a fraction *)
    apply Ascii.eqb_eq in Hdot. subst c.
    destruct (digits_split r2) as (fp & r3 & Hr2 & Hfp & Hr3 & Hdec2).
    rewrite Hdec2. cbn [Nat.add].
    destruct (exponent_longest r3) as (ex & rest & Hr3' & Hex & Hlongest).
    assert (Hne : ip <> "" \/ fp <> "").
    { destruct ip as [|d ip]; [right | left; discriminate].
      cbn in Ht. subst t. cbn in Hstart.
      intros ->. cbn in Hr2. subst r2.
      destruct r3 as [|d r3]; [discriminate|]. cbn in Hr3. cbn in Hstart. congruence. }
    exists (ip ++ "." ++ fp ++ ex), rest,
           (digitsValue 0 (ip ++ fp)), (exponentPart r3 - Z.of_nat (String.length fp))%Z.
    split.
    { rewrite Ht, Hr2, Hr3' at 1. now rewrite !string_append_assoc. }
    split; [now apply decimal_fraction|].
    split.
    { rewrite (digitsValue_append ip fp 0 Hip).
      destruct (String.length ip + String.length fp)%nat eqn:El; [|reflexivity].
      destruct Hne as [Hne | Hne]; exfalso; apply Hne; apply length_zero; lia. }
    intros u' rest' digits' e' Hu' Hliteral.
    rewrite !length_append. cbn [String.length].
    destruct Hliteral as [ip' ex' e0 Hne' Hip' Hex' | ip' fp' ex' e0 Hip' Hfp' _ Hex'].
    + rewrite string_append_assoc in Hu'.
      destruct (Hinteger ip' (ex' ++ rest') Hip' Hu') as [Hlen Hsame].
      rewrite length_append.
      destruct Hex' as [|ex' e0 Hpart]; [cbn; lia|].
      destruct (exponent_starts ex' rest' e0 Hpart) as (c0 & tail & Hc0 & Hd0 & Hdot0).
      rewrite Hc0 in Hsame. destruct Hsame as [_ Hsame]; [exact Hd0|].
      injection Hsame as -> _. discriminate.
    + rewrite !string_append_assoc in Hu'.
      destruct (Hinteger ip' ("." ++ fp' ++ ex' ++ rest') Hip' Hu') as [_ Hsame].
      destruct Hsame as [-> Hsame]; [reflexivity|].
      cbn in Hsame. injection Hsame as Hsame.
      rewrite Hr2 in Hsame. symmetry in Hsame.
      destruct (digits_prefix fp r3 fp' (ex' ++ rest') Hfp Hr3 Hfp' Hsame)
        as [Hlen Hsame'].
      rewrite !length_append. cbn [String.length].
      destruct Hex' as [|ex' e0 Hpart]; [cbn; lia|].
      destruct (exponent_starts ex' rest' e0 Hpart) as (c0 & tail & Hc0 & Hd0 & _).
      destruct Hsame' as [-> Hsame']; [rewrite Hc0; exact Hd0|].
      pose proof (Hlongest ex' e0 rest' (eq_sym Hsame') (with_exponent _ _ Hpart)).
      lia.
  - (* digits, then something that is no dot *)
    assert (Hne : ip <> "").
    { intros ->. cbn in Ht. subst t. cbn in Hstart, Hr1.
      rewrite Hr1, Hdot in Hstart. discriminate. }
    destruct (exponent_longest (String c r2)) as (ex & rest & Hr1' & Hex & Hlongest).
    exists (ip ++ ex), rest, (digitsValue 0 ip), (exponentPart (String c r2)).
    split.
    { rewrite Ht, Hr1' at 1. now rewrite string_append_assoc. }
    split; [now apply decimal_integer|].
    split.
    { destruct (String.length ip) eqn:El; [apply length_zero in El; congruence|].
      reflexivity. }
    intros u' rest' digits' e' Hu' Hliteral.
    rewrite length_append.
    destruct Hliteral as [ip' ex' e0 Hne' Hip' Hex' | ip' fp' ex' e0 Hip' Hfp' _ Hex'].
    + rewrite string_append_assoc in Hu'.
      destruct (Hinteger ip' (ex' ++ rest') Hip' Hu') as [Hlen Hsame].
      rewrite length_append.
      destruct Hex' as [|ex' e0 Hpart]; [cbn; lia|].
      destruct (exponent_starts ex' rest' e0 Hpart) as (c0 & tail & Hc0 & Hd0 & _).
      destruct Hsame as [-> Hsame]; [rewrite Hc0; exact Hd0|].
      pose proof (Hlongest ex' e0 rest' (eq_sym Hsame) (with_exponent _ _ Hpart)).
      lia.
    + rewrite !string_append_assoc in Hu'.
      destruct (Hinteger ip' ("." ++ fp' ++ ex' ++ rest') Hip' Hu') as [_ Hsame].
      destruct Hsame as [_ Hsame]; [reflexivity|].
      cbn in Hsame. injection Hsame as <- _. discriminate.
Qed.

Lemma prefix_append (p rest : string) : prefix p (p ++ rest) = true.
Proof.
  induction p as [|c p IH]; [destruct rest; reflexivity|].
  cbn. destruct (ascii_dec c c); [exact IH | congruence].
Qed.

Lemma prefix_split (p u : string) :
  prefix p u = true -> exists rest, u = p ++ rest.
Proof.
  revert u; induction p as [|c p IH]; intros u Hp; [now exists u|].
  destruct u as [|d u]; [discriminate|]. cbn in Hp.
  destruct (ascii_dec c d) as [-> | _]; [|discriminate].
  destruct (IH u Hp) as [rest ->]. now exists rest.
Qed.

(** An unsigned decimal literal starts with a digit, or with a dot and a
    digit; it does not start with a sign nor with the [I] of
    [Infinity]. *)
Lemma decimal_starts (u rest : string) (digits : N) (e : Z) :
  UnsignedDecimal u digits e ->
  exists c tail,
    u ++ rest = String c tail
    /\ (isDigit c = true
        \/ (c = "."%char /\ startsWithDigit tail = true)).
Proof.
  intros [ip ex e0 Hne Hip _ | ip fp ex e0 Hip Hfp Hne _].
  - destruct ip as [|c ip]; [congruence|].
    rewrite digitsOnly_String in Hip. apply andb_true_iff in Hip as [Hc _].
    exists c, ((ip ++ ex) ++ rest). split; [reflexivity | now left].
  - destruct ip as [|c ip].
    + destruct Hne as [Hne | Hne]; [congruence|].
      exists "."%char, ((fp ++ ex) ++ rest). split; [reflexivity|]. right.
      split; [reflexivity|].
      rewrite string_append_assoc. now apply digitsOnly_starts.
    + rewrite digitsOnly_String in Hip. apply andb_true_iff in Hip as [Hc _].
      exists c, ((ip ++ "." ++ fp ++ ex) ++ rest). split; [reflexivity | now left].
Qed.

Lemma decimal_starts_literal (u rest : string) (digits : N) (e : Z) :
  UnsignedDecimal u digits e ->
  match u ++ rest with
  | String c r =>
      isDigit c
      || (Ascii.eqb c "."
          && match r with String d _ => isDigit d | EmptyString => false end)
  | EmptyString => false
  end = true
  /\ prefix "Infinity" (u ++ rest) = false
  /\ exists c tail,
       u ++ rest = String c tail
       /\ Ascii.eqb c "-" = false /\ Ascii.eqb c "+" = false.
Proof.
  intros Hu. destruct (decimal_starts u rest digits e Hu) as (c & tail & -> & Hc).
  destruct Hc as [Hc | [-> Htail]].
  - split; [now rewrite Hc|]. split.
    + change (prefix "Infinity" (String c tail))
        with (if ascii_dec "I" c then prefix "nfinity" tail else false).
      destruct (ascii_dec "I" c) as [<- | _]; [discriminate | reflexivity].
    + exists c, tail. split; [reflexivity|].
      split; destruct (Ascii.eqb_spec c "-"), (Ascii.eqb_spec c "+");
        subst; try discriminate; reflexivity.
  - split.
    + rewrite orb_true_iff. right. exact Htail.
    + split; [reflexivity|]. exists "."%char, tail. repeat split.
Qed.

(** The text after the sign: [unsignedLiteral] reads the longest literal
    body at its start. *)
Lemma body_longest (sign : string) (negative : bool) (u : string) :
  Sign sign negative ->
  prefix "Infinity" u
  || match u with
     | String c r =>
         isDigit c
         || (Ascii.eqb c "."
             && match r with String d _ => isDigit d | EmptyString => false end)
     | EmptyString => false
     end = true ->
  exists body rest,
    u = body ++ rest
    /\ NumericLiteral (sign ++ body) (unsignedLiteral negative u)
    /\ (forall rest', u = "Infinity" ++ rest' ->
                      (String.length "Infinity" <= String.length body)%nat)
    /\ (forall u' rest' digits' e',
          u = u' ++ rest' -> UnsignedDecimal u' digits' e' ->
          (String.length u' <= String.length body)%nat).
Proof.
  intros Hsign Hstart.
  destruct (prefix "Infinity" u) eqn:Hinf.
  - destruct (prefix_split _ _ Hinf) as [rest Hu].
    exists "Infinity", rest. split; [exact Hu|]. split.
    + unfold unsignedLiteral. rewrite Hinf. now apply literal_Infinity.
    + split; [intros; apply Nat.le_refl|].
      intros u' rest' digits' e' Hu' Hliteral.
      destruct (decimal_starts_literal u' rest' digits' e' Hliteral) as (_ & Hno & _).
      rewrite <- Hu' in Hno. congruence.
  - cbn [orb] in Hstart.
    destruct (unsigned_longest negative u Hinf Hstart)
      as (body & rest & digits & e & Hu & Hliteral & Hvalue & Hlongest).
    exists body, rest. split; [exact Hu|]. split.
    + rewrite Hvalue. now apply literal_decimal.
    + split; [|exact Hlongest].
      intros rest' Hu'. rewrite Hu' in Hinf.
      now rewrite (prefix_append "Infinity" rest') in Hinf.
Qed.

(** [parseFloat] on a text that starts with a literal: the value of
    the longest literal at the start of the trimmed text. *)
Lemma parseFloat_longest (field : string) :
  startsLiteral field = true ->
  exists literal, longestLiteral (trimStart field) literal (parseFloat field).
Proof.
  unfold startsLiteral, parseFloat, longestLiteral.
  set (t := trimStart field). clearbody t. intros Hstart.
  (* the sign that the text starts with, and the text after it *)
  assert (Hcases : exists sign negative u,
             Sign sign negative
             /\ t = sign ++ u
             /\ match t with
                | String c r =>
                    if Ascii.eqb c "-" then unsignedLiteral true r
                    else if Ascii.eqb c "+" then unsignedLiteral false r
                    else unsignedLiteral false t
                | EmptyString => unsignedLiteral false t
                end = unsignedLiteral negative u
             /\ match t with
                | String c r => if Ascii.eqb c "-" || Ascii.eqb c "+" then r else t
                | EmptyString => t
                end = u
             /\ forall sign' negative' body' tail c,
                  Sign sign' negative' ->
                  t = sign' ++ body' ->
                  body' = String c tail ->
                  Ascii.eqb c "-" = false -> Ascii.eqb c "+" = false ->
                  sign' = sign /\ negative' = negative).
  { destruct t as [|c r]; cbv beta iota.
    - exists "", false, "".
      split; [constructor|]. do 3 (split; [reflexivity|]).
      intros sign' negative' body' tail c0 Hs' Ht' -> _ _.
      destruct Hs'; discriminate.
    - destruct (Ascii.eqb_spec c "-") as [-> | Hminus].
      + exists "-", true, r.
        split; [constructor|]. do 3 (split; [reflexivity|]).
        intros sign' negative' body' tail c0 Hs' Ht' -> Hm _.
        destruct Hs'; cbn in Ht'; try discriminate; [|auto].
        injection Ht' as <- _. discriminate.
      + destruct (Ascii.eqb_spec c "+") as [-> | Hplus].
        * exists "+", false, r.
          split; [constructor|]. do 3 (split; [reflexivity|]).
          intros sign' negative' body' tail c0 Hs' Ht' -> _ Hp.
          destruct Hs'; cbn in Ht'; try discriminate; [|auto].
          injection Ht' as <- _. discriminate.
        * exists "", false, (String c r).
          split; [constructor|]. do 3 (split; [reflexivity|]).
          intros sign' negative' body' tail c0 Hs' Ht' -> _ _.
          destruct Hs'; cbn in Ht'; [auto| |]; injection Ht' as Hc _; congruence. }
  destruct Hcases as (sign & negative & u & Hsign & Ht & Hvalue & Hu & Hunique).
  rewrite Hu in Hstart. rewrite Hvalue.
  destruct (body_longest sign negative u Hsign Hstart)
    as (body & rest & Hbody & Hliteral & Hinfinity & Hdecimal).
  exists (sign ++ body). split.
  { exists rest. rewrite Ht, Hbody. now rewrite string_append_assoc. }
  split; [exact Hliteral|].
  intros literal' rest' value' Ht' Hliteral'.
  rewrite !length_append.
  destruct Hliteral' as [sign' negative' Hsign' | sign' u' negative' digits' e' Hsign' Hu'].
  - rewrite string_append_assoc in Ht'.
    destruct (Hunique sign' negative' ("Infinity" ++ rest') _ _ Hsign' Ht' eq_refl
                      eq_refl eq_refl) as [-> ->].
    rewrite Ht in Ht'.
    assert (Hsame : u = "Infinity" ++ rest').
    { clear - Ht' Hsign.
      destruct Hsign; [exact Ht' | injection Ht' as Ht' | injection Ht' as Ht'];
        exact Ht'. }
    pose proof (Hinfinity rest' Hsame). rewrite length_append. lia.
  - rewrite string_append_assoc in Ht'.
    destruct (decimal_starts_literal u' rest' digits' e' Hu')
      as (_ & _ & c & tail & Hfirst & Hminus & Hplus).
    destruct (Hunique sign' negative' (u' ++ rest') tail c Hsign' Ht' Hfirst
                      Hminus Hplus) as [-> ->].
    rewrite Ht in Ht'.
    assert (Hsame : u = u' ++ rest').
    { clear - Ht' Hsign.
      destruct Hsign; [exact Ht' | injection Ht' as Ht' | injection Ht' as Ht'];
        exact Ht'. }
    pose proof (Hdecimal u' rest' digits' e' Hsame Hu'). rewrite length_append. lia.
Qed.

(** A text that does not start with a literal has no prefix that is
    one. *)
Lemma no_literal_prefix (field : string) :
  startsLiteral field = false ->
  forall literal rest value,
    trimStart field = literal ++ rest -> ~ NumericLiteral literal value.
Proof.
  unfold startsLiteral.
  set (t := trimStart field). clearbody t.
  intros Hstart.
  apply orb_false_iff in Hstart as [Hinf Hdecimal].
  assert (Hbody : forall sign negative body,
             Sign sign negative ->
             t = sign ++ body ->
             (exists c tail, body = String c tail
                             /\ Ascii.eqb c "-" = false /\ Ascii.eqb c "+" = false) ->
             match t with
             | String c r => if Ascii.eqb c "-" || Ascii.eqb c "+" then r else t
             | EmptyString => t
             end = body).
  { intros sign negative body Hsign Hbody (c & tail & -> & Hminus & Hplus).
    rewrite Hbody. destruct Hsign; cbn; [|reflexivity|reflexivity].
    now rewrite Hminus, Hplus. }
  intros literal rest value Ht Hliteral.
  destruct Hliteral as [sign negative Hsign | sign u negative digits e Hsign Hu].
  - rewrite string_append_assoc in Ht.
    rewrite (Hbody sign negative ("Infinity" ++ rest) Hsign Ht) in Hinf.
    + now rewrite prefix_append in Hinf.
    + exists "I"%char, ("nfinity" ++ rest). repeat split.
  - rewrite string_append_assoc in Ht.
    destruct (decimal_starts_literal u rest digits e Hu)
      as (Hstarts & _ & c & tail & Hfirst & Hminus & Hplus).
    rewrite (Hbody sign negative (u ++ rest) Hsign Ht) in Hdecimal.
    + congruence.
    + exists c, tail. auto.
Qed.

End LongestLiteral.
(* ================================================================== *)
(** * Parsing: one record per line *)

Section Parsing.

Context {num : Type} `{JSNumber num}.

Lemma split_not_nil (sep : ascii) (s : string) : split sep s <> [].
Proof.
  induction s as [|c s IH]; simpl; [discriminate|].
  destruct (Ascii.eqb c sep); [discriminate|].
  destruct (split sep s); [congruence | discriminate].
Qed.

Lemma pushLines_fullData (lines : list string) (s : StockChart num) :
  fullData (fold_left pushLine lines s) = fullData s ++ map parseLine lines.
Proof.
  revert s; induction lines as [|l lines IH]; intros s; simpl.
  - now rewrite app_nil_r.
  - rewrite IH; simpl. now rewrite <- app_assoc.
Qed.

Lemma pushLines_closingPrices (lines : list string) (s : StockChart num) :
  closingPrices (fold_left pushLine lines s)
  = closingPrices s ++ map closingOf (map parseLine lines).
Proof.
  revert s; induction lines as [|l lines IH]; intros s; simpl.
  - now rewrite app_nil_r.
  - rewrite IH; simpl. now rewrite <- app_assoc.
Qed.

Lemma pushLines_movingAverage (lines : list string) (s : StockChart num) :
  movingAverage (fold_left pushLine lines s) = movingAverage s.
Proof.
  revert s; induction lines as [|l lines IH]; intros s; simpl; [reflexivity|].
  now rewrite IH.
Qed.

Lemma processCSVData_fullData (csvData : string) (s : StockChart num) :
  fullData (processCSVData csvData s)
  = fullData s ++ map parseLine (dataLines csvData).
Proof. apply pushLines_fullData. Qed.

Lemma processCSVData_closingPrices (csvData : string) (s : StockChart num) :
  closingPrices (processCSVData csvData s)
  = closingPrices s ++ map closingOf (map parseLine (dataLines csvData)).
Proof. apply pushLines_closingPrices. Qed.

(** C10. After [processCSVData] has run on the freshly constructed chart,
    [fullData] holds the records of the data lines in input order,
    [closingPrices] has the same length, and at every index the two
    arrays agree on [date] and on [close]; hence the closing values that
    the price range reads from [fullData] are those that the moving
    average reads from [closingPrices]. *)
Theorem parsed_series_aligned (csvData : string) (stock overlay : Canvas num) :
  let s := processCSVData csvData (constructor stock overlay) in
  fullData s = map parseLine (dataLines csvData)
  /\ List.length (closingPrices s) = List.length (fullData s)
  /\ (forall i, nth_error (closingPrices s) i
                = option_map closingOf (nth_error (fullData s) i))
  /\ map cp_date (closingPrices s) = map date (fullData s)
  /\ map cp_close (closingPrices s) = map close (fullData s)
  /\ map closeValue (closingPrices s) = closes s.
Proof.
  intros s; subst s. unfold closes.
  rewrite processCSVData_fullData, processCSVData_closingPrices; simpl.
  set (records := map parseLine (dataLines csvData)).
  repeat split.
  - now rewrite length_map.
  - intros i. apply nth_error_map.
  - rewrite map_map. reflexivity.
  - rewrite map_map. reflexivity.
  - rewrite map_map. reflexivity.
Qed.

(** [parseFloat] finds no literal. *)
Lemma decimalDigits_stop (acc : N) (k : nat) (c : ascii) (r : string) :
  isDigit c = false -> decimalDigits acc k (String c r) = (acc, k, String c r).
Proof.
  unfold isDigit; simpl. destruct (digitValue c); [discriminate | reflexivity].
Qed.

Lemma unsignedLiteral_nan (negative : bool) (u : string) :
  prefix "Infinity" u = false ->
  match u with
  | String c r =>
      isDigit c
      || (Ascii.eqb c "."
          && match r with String d _ => isDigit d | EmptyString => false end)
  | EmptyString => false
  end = false ->
  unsignedLiteral negative u = NaN.
Proof.
  intros Hinf Hstart. unfold unsignedLiteral. rewrite Hinf.
  destruct u as [|c r]; [reflexivity|].
  apply orb_false_iff in Hstart as [Hc Hdot].
  rewrite (decimalDigits_stop _ _ _ _ Hc).
  destruct (Ascii.eqb c "."); [|reflexivity].
  simpl in Hdot.
  destruct r as [|d r']; [reflexivity|].
  now rewrite (decimalDigits_stop _ _ _ _ Hdot).
Qed.

Lemma parseFloat_nan (field : string) :
  startsLiteral field = false -> parseFloat field = NaN.
Proof.
  unfold startsLiteral, parseFloat.
  destruct (trimStart field) as [|c r]; intros Hs.
  - apply orb_false_iff in Hs as [Hinf Hstart].
    now apply unsignedLiteral_nan.
  - destruct (Ascii.eqb c "-"); simpl in Hs |- *.
    + apply orb_false_iff in Hs as [Hinf Hstart]. now apply unsignedLiteral_nan.
    + destruct (Ascii.eqb c "+"); simpl in Hs;
        apply orb_false_iff in Hs as [Hinf Hstart]; now apply unsignedLiteral_nan.
Qed.

(** [parseFloat] finds a literal: its value is that of a decimal
    literal, or an infinity. *)
Lemma decimalDigits_count (s : string) (acc : N) (k : nat) :
  (k <= snd (fst (decimalDigits acc k s)))%nat.
Proof.
  revert acc k; induction s as [|c s IH]; intros acc k; simpl; [lia|].
  destruct (digitValue c); simpl; [|lia].
  specialize (IH (acc * 10 + n)%N (S k)). lia.
Qed.

Lemma decimalDigits_digit (c : ascii) (r : string) (acc : N) (k : nat) :
  isDigit c = true ->
  (S k <= snd (fst (decimalDigits acc k (String c r))))%nat.
Proof.
  unfold isDigit; simpl. destruct (digitValue c); [|discriminate].
  intros _. apply decimalDigits_count.
Qed.

Lemma unsignedLiteral_value (negative : bool) (u : string) :
  prefix "Infinity" u = false ->
  match u with
  | String c r =>
      isDigit c
      || (Ascii.eqb c "."
          && match r with String d _ => isDigit d | EmptyString => false end)
  | EmptyString => false
  end = true ->
  exists digits e, unsignedLiteral negative u = of_decimal negative digits e.
Proof.
  intros Hinf Hstart. unfold unsignedLiteral. rewrite Hinf.
  destruct u as [|c r]; [discriminate|].
  destruct (isDigit c) eqn:Hc.
  - pose proof (decimalDigits_digit c r 0 0 Hc) as Hn.
    destruct (decimalDigits 0 0 (String c r)) as [[ip n1] r1]. simpl in Hn.
    destruct n1 as [|n1]; [lia|].
    destruct r1 as [|c1 r2]; [eauto|].
    destruct (Ascii.eqb c1 "."); [|eauto].
    destruct (decimalDigits ip 0 r2) as [[m n2] r3]. simpl. eauto.
  - simpl in Hstart. apply andb_true_iff in Hstart as [Hdot Hd].
    unfold isDigit in Hc. simpl.
    destruct (digitValue c); [discriminate|].
    rewrite Hdot.
    destruct r as [|d r']; [discriminate|].
    pose proof (decimalDigits_digit d r' 0 0 Hd) as Hn.
    destruct (decimalDigits 0 0 (String d r')) as [[m n2] r3]. simpl in Hn.
    destruct n2 as [|n2]; [lia|]. simpl. eauto.
Qed.

Lemma parseFloat_value (field : string) :
  startsLiteral field = true ->
  parseFloat field = Infinity
  \/ parseFloat field = num_neg Infinity
  \/ exists negative digits e, parseFloat field = of_decimal negative digits e.
Proof.
  unfold startsLiteral, parseFloat.
  assert (Hu : forall negative u,
             prefix "Infinity" u
             || match u with
                | String c r =>
                    isDigit c
                    || (Ascii.eqb c "."
                        && match r with
                           | String d _ => isDigit d
                           | EmptyString => false
                           end)
                | EmptyString => false
                end = true ->
             unsignedLiteral negative u = Infinity
             \/ unsignedLiteral negative u = num_neg Infinity
             \/ exists neg' digits e,
                  unsignedLiteral negative u = of_decimal neg' digits e).
  { intros negative u Hs.
    destruct (prefix "Infinity" u) eqn:Hinf.
    - unfold unsignedLiteral. rewrite Hinf. destruct negative; auto.
    - simpl in Hs.
      destruct (unsignedLiteral_value negative u Hinf Hs) as (digits & e & Hv).
      right; right. eauto. }
  destruct (trimStart field) as [|c r]; intros Hs; [now apply Hu|].
  destruct (Ascii.eqb c "-"); simpl in Hs; [now apply Hu|].
  destruct (Ascii.eqb c "+"); simpl in Hs; now apply Hu.
Qed.

(** C9, as the code has it. [processCSVData] is total: it never fails and
    never skips a line, every data line yielding one record, in order.
    In a record, a numeric position beyond the last field of the line is
    [undefined], fields after the fifth are dropped, and a field that is
    there is stored as [parseFloat] of its text: [NaN] when no prefix of
    the text, after leading white space, is a numeric literal, and
    otherwise the number that the longest such prefix denotes, whatever
    follows it. *)
Theorem malformed_lines_are_kept (csvData : string) (s : StockChart num) :
  fullData (processCSVData csvData s)
  = fullData s ++ map parseLine (dataLines csvData)
  /\ (forall line,
        let fields := split "," line in
        let r := parseLine line in
        open r = option_map parseFloat (nth_error fields 1)
        /\ high r = option_map parseFloat (nth_error fields 2)
        /\ low r = option_map parseFloat (nth_error fields 3)
        /\ close r = option_map parseFloat (nth_error fields 4))
  /\ (forall line index,
        (List.length (split "," line) <= index)%nat ->
        option_map parseFloat (nth_error (split "," line) index) = None)
  /\ (forall field,
        startsLiteral field = false ->
        parseFloat field = NaN
        /\ forall literal rest value,
             trimStart field = (literal ++ rest)%string ->
             ~ NumericLiteral literal value)
  /\ (forall field,
        startsLiteral field = true ->
        exists literal,
          longestLiteral (trimStart field) literal (parseFloat field)).
Proof.
  split; [apply processCSVData_fullData|].
  split; [intros line; cbv zeta; unfold parseLine; simpl; auto|].
  split.
  { intros line index Hlen. apply nth_error_None in Hlen. now rewrite Hlen. }
  split.
  - intros field Hstart.
    split; [now apply parseFloat_nan | now apply no_literal_prefix].
  - exact parseFloat_longest.
Qed.

End Parsing.

(** C9, as stated, fails. The data line [2024-01-02,1,2,3] has four
    fields; its [close] is [undefined], not [NaN]. In the line
    [2024-01-02,1,2,3,12abc] the last field is no number literal; its
    [close] is stored as [12], not as [NaN]. No row is dropped in either
    case. *)
Lemma malformed_field_is_not_NaN :
  let affected (r : QuoteRecord double) :=
    match close r with Some x => isNaN x | None => false end in
  map (fun line => List.length (split "," line)) (dataLines csvShort) = [4%nat]
  /\ map close (fullData (processCSVData csvShort fresh)) = [None]
  /\ map affected (fullData (processCSVData csvShort fresh)) = [false]
  /\ startsLiteral "12abc" = true
  /\ map close (fullData (processCSVData csvTrailing fresh)) = [Some (Double.of_Z 12)]
  /\ map affected (fullData (processCSVData csvTrailing fresh)) = [false].
Proof. vm_compute. repeat split. Qed.

(** A line with trailing text after its last number is kept, as one
    record; a field without a number reads as [NaN], and [12abc] as the
    number that its longest literal denotes, 12. *)
Lemma trailing_text_is_kept :
  List.length (fullData (processCSVData csvTrailing fresh)) = 1%nat
  /\ isNaN (parseFloat "abc" : double) = true
  /\ exists literal, longestLiteral "12abc" literal (Double.of_Z 12 : double).
Proof.
  destruct (malformed_lines_are_kept csvTrailing fresh)
    as (Hrows & _ & _ & Hnan & Hliteral).
  split; [rewrite Hrows; vm_compute; reflexivity|].
  split.
  - destruct (Hnan "abc"%string) as [-> _]; vm_compute; reflexivity.
  - destruct (Hliteral "12abc"%string) as [literal Hlongest];
      [vm_compute; reflexivity|].
    exists literal. exact Hlongest.
Defined.

(* ================================================================== *)
(** * The moving average *)

Section MovingAverage.

Context {num : Type} `{JSNumber num}.
Local Open Scope js_scope.

Lemma sumClose_sum (l : list (ClosingPrice num)) :
  sumClose l = sum (map closeValue l).
Proof.
  unfold sumClose, sum. generalize (of_Z 0 : num).
  induction l as [|c l IH]; intros acc; simpl; [reflexivity | apply IH].
Qed.

Lemma averageStep_appends (s : StockChart num) (i : nat) :
  closingPrices (averageStep s i) = closingPrices s
  /\ movingAverage (averageStep s i)
     = movingAverage s ++ averageAt (closingPrices s) i.
Proof.
  unfold averageStep, averageAt.
  destruct (period - 1 <=? i)%nat; simpl.
  - destruct (nth_error (closingPrices s) i); simpl; split; auto using app_nil_r.
  - split; auto using app_nil_r.
Qed.

Lemma averageSteps_append (indices : list nat) (s : StockChart num) :
  closingPrices (fold_left averageStep indices s) = closingPrices s
  /\ movingAverage (fold_left averageStep indices s)
     = movingAverage s ++ flat_map (averageAt (closingPrices s)) indices.
Proof.
  revert s; induction indices as [|i indices IH]; intros s; simpl.
  - split; auto using app_nil_r.
  - destruct (IH (averageStep s i)) as [Hc Hm].
    destruct (averageStep_appends s i) as [Hc1 Hm1].
    rewrite Hc, Hm, Hc1, Hm1, <- app_assoc. auto.
Qed.

(** The loop over the indices visits [period - 1] of them for nothing and
    then yields one point per index. *)
Lemma flat_map_from {A} (f : nat -> list A) (g : nat -> A) (k n : nat) :
  (forall i, i < k -> f i = [])%nat ->
  (forall j, j + k < n -> f (j + k)%nat = [g j])%nat ->
  flat_map f (seq 0 n) = map g (seq 0 (n - k)).
Proof.
  intros Hearly Hlate.
  destruct (Nat.le_gt_cases n k) as [Hle | Hgt].
  - replace (n - k)%nat with 0%nat by lia. simpl.
    assert (Hall : forall i, In i (seq 0 n) -> f i = []).
    { intros i Hi. apply in_seq in Hi. apply Hearly. lia. }
    clear Hlate. induction (seq 0 n) as [|i l IH]; simpl; [reflexivity|].
    rewrite Hall by (left; reflexivity). simpl. apply IH.
    intros j Hj. apply Hall. now right.
  - replace n with (k + (n - k))%nat at 1 by lia.
    rewrite seq_app, flat_map_app. simpl.
    assert (Hnil : flat_map f (seq 0 k) = []).
    { assert (Hall : forall i, In i (seq 0 k) -> f i = []).
      { intros i Hi. apply in_seq in Hi. apply Hearly. lia. }
      induction (seq 0 k) as [|i l IH]; simpl; [reflexivity|].
      rewrite Hall by (left; reflexivity). simpl. apply IH.
      intros j Hj. apply Hall. now right. }
    rewrite Hnil. simpl.
    assert (Hshift : forall m start,
               (start + m <= n - k)%nat ->
               flat_map f (seq (k + start) m) = map g (seq start m)).
    { induction m as [|m IH]; intros start Hm; simpl; [reflexivity|].
      replace (k + start)%nat with (start + k)%nat at 1 by lia.
      rewrite Hlate by lia. simpl. f_equal.
      replace (S (k + start)) with (k + S start)%nat by lia.
      apply IH. lia. }
    specialize (Hshift (n - k)%nat 0%nat).
    rewrite Nat.add_0_r in Hshift. apply Hshift. lia.
Qed.

Lemma averageAt_early (cps : list (ClosingPrice num)) (i : nat) :
  (i < period - 1)%nat -> averageAt cps i = [].
Proof.
  intros Hi. unfold averageAt.
  destruct (Nat.leb_spec (period - 1) i); [lia | reflexivity].
Qed.

Lemma averageAt_window (cps : list (ClosingPrice num)) (j : nat) :
  (j + (period - 1) < List.length cps)%nat ->
  averageAt cps (j + (period - 1))
  = [{| ma_date := cp_date (nth (j + (period - 1)) cps noClosingPrice);
        avg := mean (map closeValue (slice j (j + period) cps)) |}].
Proof.
  intros Hj. unfold averageAt.
  destruct (Nat.leb_spec (period - 1) (j + (period - 1))); [|lia].
  rewrite (nth_error_nth' cps noClosingPrice Hj).
  replace (j + (period - 1) - (period - 1))%nat with j by lia.
  replace (j + (period - 1) + 1)%nat with (j + period)%nat by (unfold period; lia).
  rewrite sumClose_sum. unfold mean.
  replace (List.length (map closeValue (slice j (j + period) cps))) with period;
    [reflexivity|].
  rewrite length_map. unfold slice.
  rewrite length_firstn, length_skipn. unfold period in *. lia.
Qed.

Lemma calculateMovingAverage_points (s : StockChart num) :
  closingPrices (calculateMovingAverage s) = closingPrices s
  /\ movingAverage (calculateMovingAverage s)
     = movingAverage s
       ++ map (fun j =>
                 {| ma_date := cp_date (nth (j + (period - 1)) (closingPrices s)
                                            noClosingPrice);
                    avg := mean (map closeValue
                                     (slice j (j + period) (closingPrices s))) |})
              (seq 0 (List.length (closingPrices s) - (period - 1))).
Proof.
  unfold calculateMovingAverage.
  destruct (averageSteps_append (seq 0 (List.length (closingPrices s))) s) as [Hc Hm].
  split; [exact Hc|]. rewrite Hm. f_equal.
  apply flat_map_from.
  - apply averageAt_early.
  - apply averageAt_window.
Qed.

(** C1. On a chart whose [movingAverage] is still empty, as the
    constructor leaves it, [calculateMovingAverage] produces
    [max(0, N - 19)] points, [N] being the number of closing prices.
    Point [i] carries the date of the closing price at index [i + 19], and
    its value is the arithmetic mean of the 20 closing prices at indices
    [i] to [i + 19]. *)
Theorem moving_average_is_window_mean (s : StockChart num) :
  movingAverage s = [] ->
  let N := List.length (closingPrices s) in
  let average := movingAverage (calculateMovingAverage s) in
  Z.of_nat (List.length average) = Z.max 0 (Z.of_nat N - 19)
  /\ forall (i : nat) (c : ClosingPrice num),
       nth_error (closingPrices s) (i + 19) = Some c ->
       let window := slice i (i + 20) (closingPrices s) in
       List.length window = 20%nat
       /\ (forall k, (k < 20)%nat ->
                     nth_error window k = nth_error (closingPrices s) (i + k))
       /\ nth_error average i
          = Some {| ma_date := cp_date c; avg := mean (map closeValue window) |}.
Proof.
  intros Hempty N average. subst average.
  destruct (calculateMovingAverage_points s) as [_ Hm].
  rewrite Hempty in Hm; simpl in Hm. rewrite Hm. clear Hm.
  split; [rewrite length_map, length_seq; fold N; unfold period; lia|].
  intros i c Hc window.
  assert (Hlt : (i + 19 < N)%nat).
  { apply nth_error_Some. subst N. rewrite Hc. discriminate. }
  split.
  { subst window. unfold slice. rewrite length_firstn, length_skipn. fold N. lia. }
  split.
  { intros k Hk. subst window. unfold slice.
    replace (i + 20 - i)%nat with 20%nat by lia.
    rewrite nth_error_firstn.
    destruct (Nat.ltb_spec k 20); [|lia].
    apply nth_error_skipn. }
  rewrite nth_error_map.
  rewrite nth_error_seq. fold N.
  unfold period. cbn [Nat.add Nat.sub].
  destruct (Nat.ltb_spec i (N - 19)) as [_ | Hge]; [|lia].
  cbn [option_map].
  rewrite (nth_error_nth _ _ noClosingPrice Hc). reflexivity.
Qed.

End MovingAverage.

(** Twenty-five days closing at 1 to 25: six points, the first one dated
    day 20 with the mean 10.5 of the closes 1 to 20. *)
Lemma moving_average_of_25_days :
  let s := processCSVData csv25 fresh in
  Z.of_nat (List.length (movingAverage (calculateMovingAverage s))) = 6%Z
  /\ nth_error (movingAverage (calculateMovingAverage s)) 0
     = Some {| ma_date := "d20"; avg := 10.5%float |}.
Proof.
  cbv zeta.
  destruct (moving_average_is_window_mean (processCSVData csv25 fresh))
    as [Hlength Hpoints].
  - vm_compute. reflexivity.
  - destruct (Hpoints 0%nat {| cp_date := "d20"; cp_close := Some 20%float |})
      as (_ & _ & Hpoint).
    + vm_compute. reflexivity.
    + split.
      * rewrite Hlength. vm_compute. reflexivity.
      * rewrite Hpoint. vm_compute. reflexivity.
Defined.

(** A header alone: no closing price, no point. *)
Lemma moving_average_of_no_day :
  movingAverage (load (csvText []) fresh) = [].
Proof. vm_compute. reflexivity. Qed.

(* ================================================================== *)
(** * Drawing *)

Section Drawing.

Context {num : Type} `{JSNumber num}.
Local Open Scope js_scope.

Lemma nth_error_indexed {A} (a : list A) (start j : nat) :
  nth_error (combine (seq start (List.length a)) a) j
  = option_map (fun element => ((start + j)%nat, element)) (nth_error a j).
Proof.
  revert start j; induction a as [|e a IH]; intros start [|j]; simpl; try reflexivity.
  - now rewrite Nat.add_0_r.
  - rewrite IH. now rewrite Nat.add_succ_r.
Qed.

(** A [forEach] whose body makes one call per element makes its [j]-th
    call for element [j]. *)
Lemma forEach_one_call {A} (f : A -> nat -> list (Command num))
      (g : A -> nat -> Command num) (a : list A) (j : nat) :
  (forall element index, f element index = [g element index]) ->
  nth_error (forEach f a) j = option_map (fun element => g element j) (nth_error a j).
Proof.
  intros Hone. unfold forEach.
  rewrite (flat_map_ext _ (fun p => [g (snd p) (fst p)])).
  2:{ intros [index element]. apply Hone. }
  rewrite flat_map_concat_map.
  assert (Hsingle : forall (B : Type) (k : B -> Command num) (l : list B),
             List.concat (map (fun p => [k p]) l) = map k l).
  { intros B k l. induction l; simpl; congruence. }
  rewrite (Hsingle _ (fun p => g (snd p) (fst p))).
  rewrite nth_error_map, nth_error_indexed.
  destruct (nth_error a j); reflexivity.
Qed.

Lemma averagePoint_pen (xs ys h minP : num) (s : StockChart num)
      (ma : MovingAveragePoint num) (index : nat) :
  averagePoint xs ys h minP s ma index
  = [pen index (indexToX (padding s) xs index)
         (priceToY (padding s) h minP ys (avg ma))].
Proof. destruct index; reflexivity. Qed.

(** C5. [plotMovingAverage] sets the stroke style, begins a path, and
    then moves or draws to one point per element of [movingAverage]:
    element [j] goes to [x = padding + j * xScale], its own index [j]
    being the x index, and [y = padding + height - (avg - minPrice) *
    yScale]. *)
Theorem moving_average_plotted_at_own_index
        (xs ys h minP : num) (s : StockChart num) (j : nat)
        (ma : MovingAveragePoint num) :
  nth_error (movingAverage s) j = Some ma ->
  nth_error (plotMovingAverage xs ys h minP s) (2 + j)
  = Some (pen j (padding s + of_nat j * xs)
              (padding s + h - (avg ma - minP) * ys)).
Proof.
  intros Hma. unfold plotMovingAverage. simpl.
  rewrite nth_error_app1.
  - rewrite (forEach_one_call _ _ _ _ (averagePoint_pen xs ys h minP s)).
    now rewrite Hma.
  - apply nth_error_Some.
    rewrite (forEach_one_call _ _ _ _ (averagePoint_pen xs ys h minP s)).
    now rewrite Hma.
Qed.

(** [plotClosingPrices] draws a line to the point of every record. *)
Lemma closing_path_points (xs ys h minP : num) (s : StockChart num)
      (j : nat) (r : QuoteRecord num) :
  nth_error (fullData s) j = Some r ->
  In (lineTo (indexToX (padding s) xs j)
             (priceToY (padding s) h minP ys (ToNumber (close r))))
     (plotClosingPrices xs ys h minP s).
Proof.
  intros Hr. unfold plotClosingPrices.
  apply in_or_app; right. apply in_or_app; left.
  unfold forEach. apply in_flat_map. exists (j, r). split.
  - apply nth_error_In with (n := j).
    rewrite nth_error_indexed, Hr. reflexivity.
  - destruct j; simpl; auto.
Qed.

(** [plotMovingAverage] moves or draws to the point of every average. *)
Lemma average_path_points (xs ys h minP : num) (s : StockChart num)
      (j : nat) (ma : MovingAveragePoint num) :
  nth_error (movingAverage s) j = Some ma ->
  In (pen j (indexToX (padding s) xs j) (priceToY (padding s) h minP ys (avg ma)))
     (plotMovingAverage xs ys h minP s).
Proof.
  intros Hma. unfold plotMovingAverage.
  apply in_or_app; right. apply in_or_app; left.
  apply nth_error_In with (n := j).
  rewrite (forEach_one_call _ _ _ _ (averagePoint_pen xs ys h minP s)).
  now rewrite Hma.
Qed.

(** ** The date labels *)

(** With a zero step the loop stays where it is. *)
Lemma dateLabels_zero_step (h w : num) (s : StockChart num) (i fuel : nat) :
  (List.length (fullData s) / 10 = 0)%nat ->
  (i < List.length (fullData s))%nat ->
  dateLabels fuel h w s i = None.
Proof.
  intros Hstep Hi. induction fuel as [|fuel IH]; cbn [dateLabels]; [reflexivity|].
  destruct (Nat.ltb_spec i (List.length (fullData s))); [|lia].
  destruct (nth_error (fullData s) i); [|reflexivity].
  rewrite Hstep, Nat.add_0_r, IH. reflexivity.
Qed.

(** With a positive step the loop ends, within [N - i + 1] tests of its
    condition. *)
Lemma dateLabels_terminates (h w : num) (s : StockChart num) (fuel i : nat) :
  (0 < List.length (fullData s) / 10)%nat ->
  (List.length (fullData s) - i < fuel)%nat ->
  exists labels, dateLabels fuel h w s i = Some labels.
Proof.
  intros Hstep. revert i.
  induction fuel as [|fuel IH]; intros i Hfuel; [lia|]. cbn [dateLabels].
  destruct (Nat.ltb_spec i (List.length (fullData s))) as [Hi | Hi].
  - destruct (nth_error (fullData s) i) as [r|] eqn:Hr.
    + destruct (IH (i + List.length (fullData s) / 10)%nat) as [labels Hl]; [lia|].
      rewrite Hl. simpl. eauto.
    + apply nth_error_None in Hr. lia.
  - eauto.
Qed.

(** For an empty series, or one of ten records or more, [drawAxisLabels]
    returns. *)
Lemma drawAxisLabels_terminates (h maxP minP w : num) (s : StockChart num) :
  (List.length (fullData s) = 0 \/ 10 <= List.length (fullData s))%nat ->
  exists labels,
    drawAxisLabels (S (List.length (fullData s))) h maxP minP w s = Some labels.
Proof.
  intros [Hempty | Hten]; unfold drawAxisLabels.
  - cbn [dateLabels]. rewrite Hempty. simpl. eauto.
  - destruct (dateLabels_terminates h w s (S (List.length (fullData s))) 0)
      as [labels Hl].
    + apply Nat.div_str_pos. lia.
    + lia.
    + rewrite Hl. simpl. eauto.
Qed.

Lemma plotChart_returns (showCrosshairs : bool) (s : StockChart num) :
  (List.length (fullData s) = 0 \/ 10 <= List.length (fullData s))%nat ->
  exists plot, plotChart (S (List.length (fullData s))) showCrosshairs s = Some plot.
Proof.
  intros HN. unfold plotChart.
  destruct (drawAxisLabels_terminates
              (contentHeight s) (maxPrice s) (minPrice s) (contentWidth s) s HN)
    as [labels Hlabels].
  rewrite Hlabels. eauto.
Qed.

(** The two paths are part of what [plotChart] draws, with the scale of
    [plotChart]. *)
Lemma plotChart_paths (fuel : nat) (showCrosshairs : bool) (s : StockChart num)
      (plot : Plot num) (call : Command num) :
  plotChart fuel showCrosshairs s = Some plot ->
  In call (plotClosingPrices (xScale s) (yScale s) (contentHeight s) (minPrice s) s)
  \/ In call (plotMovingAverage (xScale s) (yScale s) (contentHeight s) (minPrice s) s) ->
  In call (ctx plot).
Proof.
  unfold plotChart.
  destruct (drawAxisLabels fuel (contentHeight s) (maxPrice s) (minPrice s)
                           (contentWidth s) s); [|discriminate].
  intros Hplot Hcall.
  assert (Hctx : ctx plot
                 = [clearRect (of_Z 0) (of_Z 0)
                              (width (stockCanvas s)) (height (stockCanvas s))]
                   ++ drawGridLines (contentHeight s) (contentWidth s) s
                   ++ l
                   ++ plotClosingPrices (xScale s) (yScale s) (contentHeight s)
                                        (minPrice s) s
                   ++ plotMovingAverage (xScale s) (yScale s) (contentHeight s)
                                        (minPrice s) s).
  { apply (f_equal (fun o => match o with Some p => ctx p | None => [] end))
      in Hplot.
    symmetry. exact Hplot. }
  rewrite Hctx.
  apply in_or_app; right. apply in_or_app; right. apply in_or_app; right.
  apply in_or_app. exact Hcall.
Qed.

(** C4, on the code. For a series of one to nine records the step
    [Math.floor(N / 10)] is [0] and nothing guards against it: the label
    loop never leaves index [0], so that [drawAxisLabels], and with it
    [plotChart], does not return, whatever the number of iterations
    allowed. *)
Theorem date_labels_diverge_below_ten
        (s : StockChart num) (fuel : nat) (h maxP minP w : num)
        (showCrosshairs : bool) :
  (1 <= List.length (fullData s) <= 9)%nat ->
  dateLabels fuel h w s 0 = None
  /\ drawAxisLabels fuel h maxP minP w s = None
  /\ plotChart fuel showCrosshairs s = None.
Proof.
  intros HN.
  assert (Hloop : forall h' w', dateLabels fuel h' w' s 0 = None).
  { intros h' w'. apply dateLabels_zero_step; [|lia].
    apply Nat.div_small. lia. }
  split; [apply Hloop|].
  split.
  - unfold drawAxisLabels. now rewrite Hloop.
  - unfold plotChart, drawAxisLabels. now rewrite Hloop.
Qed.

End Drawing.

(** Day 20's average, the first point, is drawn at [x = 60], the left end
    of the chart. *)
Lemma first_average_point_at_left_edge :
  nth_error (plotMovingAverage (xScale chart25) (yScale chart25)
                               (contentHeight chart25) (minPrice chart25) chart25) 2
  = Some (moveTo 60%float 350%float).
Proof.
  rewrite (moving_average_plotted_at_own_index
             (xScale chart25) (yScale chart25) (contentHeight chart25)
             (minPrice chart25) chart25 0
             {| ma_date := "d20"; avg := 10.5%float |}).
  - vm_compute. reflexivity.
  - vm_compute. reflexivity.
Defined.

(** Five days: the label loop never ends. *)
Lemma five_days_never_drawn :
  plotChart 1000 true chart5 = None.
Proof.
  assert (HN : (1 <= List.length (fullData chart5) <= 9)%nat)
    by (vm_compute; lia).
  exact (proj2 (proj2 (date_labels_diverge_below_ten chart5 1000
                         (contentHeight chart5) (maxPrice chart5)
                         (minPrice chart5) (contentWidth chart5) true HN))).
Defined.

(* ================================================================== *)
(** * The scale, in exact arithmetic *)

Section ExactArithmetic.

Local Open Scope js_scope.

Lemma ideal_finite (x : ideal) : isFinite x = true -> exists q, x = IFin q.
Proof. destruct x; try discriminate. eauto. Qed.

(** Names the rational behind a number known to be finite. *)
Ltac finite H q := apply ideal_finite in H as [q H]; rewrite H in *.

Lemma ideal_ltb_lt (a b : Q) : (IFin a <? IFin b) = true <-> (a < b)%Q.
Proof.
  simpl. unfold Ideal.ltb; simpl. rewrite Qlt_alt.
  destruct (a ?= b)%Q; split; congruence.
Qed.

Lemma ideal_leb_le (a b : Q) : (IFin a <=? IFin b) = true <-> (a <= b)%Q.
Proof.
  simpl. unfold Ideal.leb; simpl. rewrite Qle_alt.
  destruct (a ?= b)%Q; split; congruence.
Qed.

Lemma ideal_eqb_eq (a b : Q) : (IFin a =? IFin b) = true <-> (a == b)%Q.
Proof.
  simpl. unfold Ideal.eqb; simpl. rewrite Qeq_alt.
  destruct (a ?= b)%Q; split; congruence.
Qed.

Lemma ideal_div_pos (a b : Q) : (0 < b)%Q -> IFin a / IFin b = IFin (a / b)%Q.
Proof.
  intros Hb.
  assert (Hc : (0 ?= b)%Q = Lt) by (apply Qlt_alt; exact Hb).
  cbn [num_div ideal_number Ideal.div]. unfold Ideal.sgn. now rewrite Hc.
Qed.

Lemma ideal_floor_inject (q : Q) (z : Z) :
  (q == inject_Z z)%Q -> Math_floor (IFin q) = IFin (inject_Z z).
Proof. intros Hq. simpl. now rewrite Hq, Qfloor_Z. Qed.

(** C2, in exact arithmetic. For a series of [N >= 1] records, a finite
    padding and a finite positive x scale, the pixel of every index [i] of
    [0 .. N-1] is mapped back to [i]:
    [floor(((padding + i * xScale) - padding) / xScale) = i]. *)
Theorem index_round_trip_exact (s : StockChart ideal) (xs : ideal) (i : nat) :
  isFinite (padding s) = true ->
  isFinite xs = true ->
  (of_Z 0 <? xs) = true ->
  (1 <= List.length (fullData s))%nat ->
  (i <= List.length (fullData s) - 1)%nat ->
  xToIndex (padding s) xs (indexToX (padding s) xs i) = of_nat i
  /\ to_index (xToIndex (padding s) xs (indexToX (padding s) xs i)) = Some i.
Proof.
  intros Hp Hxs Hpos _ _.
  finite Hp p. finite Hxs q.
  apply ideal_ltb_lt in Hpos. change (0 < q)%Q in Hpos.
  unfold xToIndex, indexToX, of_nat.
  assert (Hfloor : Math_floor ((IFin p + of_Z (Z.of_nat i) * IFin q - IFin p) / IFin q)
                   = IFin (inject_Z (Z.of_nat i))).
  { cbn [num_add num_sub num_mul of_Z ideal_number Ideal.add Ideal.sub Ideal.mul Ideal.neg].
    rewrite ideal_div_pos by exact Hpos.
    apply ideal_floor_inject. field. lra. }
  rewrite Hfloor. split; [reflexivity|].
  cbn [to_index ideal_number Ideal.to_index]. rewrite Qfloor_Z.
  rewrite Qeq_bool_refl. simpl.
  destruct (Z.leb_spec 0 (Z.of_nat i)); [|lia].
  now rewrite Nat2Z.id.
Qed.

(** The hit test for a positive x scale, in exact arithmetic. For a
    series of [N >= 1] records and a pointer at a pixel [x] left of
    [padding] or right of [padding + N * xScale], the index
    [floor((x - padding) / xScale)] is outside [0 .. N-1]: the listener
    draws the crosshair and no text. *)
Lemma pointer_outside_positive_scale
        (s : StockChart ideal) (xs h x y : ideal) :
  isFinite (padding s) = true ->
  isFinite xs = true ->
  (of_Z 0 <? xs) = true ->
  (1 <= List.length (fullData s))%nat ->
  (x <? padding s) = true
  \/ (padding s + of_nat (List.length (fullData s)) * xs <? x) = true ->
  let dataIndex := xToIndex (padding s) xs x in
  (dataIndex >=? of_Z 0) && (dataIndex <? of_nat (List.length (fullData s))) = false
  /\ drawsText (calls (mousemove xs h s x y)) = false.
Proof.
  intros Hp Hxs Hpos _ Hout dataIndex.
  assert (Hrange : (dataIndex >=? of_Z 0)
                   && (dataIndex <? of_nat (List.length (fullData s))) = false).
  { subst dataIndex.
    finite Hp p. finite Hxs q.
    apply ideal_ltb_lt in Hpos. change (0 < q)%Q in Hpos.
    set (N := List.length (fullData s)) in *.
    assert (Hq0 : Qle_bool q 0 = false).
    { destruct (Qle_bool q 0) eqn:E; [|reflexivity].
      apply Qle_bool_iff in E. lra. }
    unfold xToIndex, of_nat in *.
    destruct x as [v| | |].
    - cbn [num_add num_sub num_mul of_Z ideal_number
           Ideal.add Ideal.sub Ideal.mul Ideal.neg] in *.
      rewrite ideal_div_pos by exact Hpos.
      cbn [Math_floor ideal_number Ideal.floor].
      destruct Hout as [Hleft | Hright].
      + apply ideal_ltb_lt in Hleft.
        apply andb_false_iff; left.
        destruct (IFin 0 <=? IFin (inject_Z (Qfloor ((v + - p) / q)))) eqn:E;
          [|exact E].
        apply ideal_leb_le in E.
        assert (Hneg : ((v + - p) / q < 0)%Q).
        { apply Qlt_shift_div_r; lra. }
        pose proof (Qfloor_le ((v + - p) / q)). lra.
      + apply ideal_ltb_lt in Hright.
        apply andb_false_iff; right.
        destruct (IFin (inject_Z (Qfloor ((v + - p) / q)))
                  <? IFin (inject_Z (Z.of_nat N))) eqn:E; [|reflexivity].
        apply ideal_ltb_lt in E. rewrite <- Zlt_Qlt in E.
        assert (Hbig : (inject_Z (Z.of_nat N) <= (v + - p) / q)%Q).
        { apply Qle_shift_div_l; lra. }
        apply Qfloor_resp_le in Hbig. rewrite Qfloor_Z in Hbig. lia.
    - simpl. rewrite Hq0. reflexivity.
    - simpl. rewrite Hq0. reflexivity.
    - destruct Hout as [Hout | Hout]; simpl in Hout; discriminate. }
  split; [exact Hrange|].
  unfold mousemove. fold dataIndex. rewrite Hrange. reflexivity.
Qed.

(** C7, in exact arithmetic and for a positive content height. With
    finite prices [minPrice < maxPrice], the y axis is inverted,
    [priceToY(maxPrice) < priceToY(minPrice)], and every price [p] between
    the two is drawn between [padding] and [height - padding]. *)
Theorem price_axis_inverted_and_bounded (s : StockChart ideal) (p : ideal) :
  isFinite (padding s) = true ->
  isFinite (height (stockCanvas s)) = true ->
  isFinite (minPrice s) = true ->
  isFinite (maxPrice s) = true ->
  (of_Z 0 <? contentHeight s) = true ->
  (minPrice s <? maxPrice s) = true ->
  (minPrice s <=? p) = true ->
  (p <=? maxPrice s) = true ->
  let Y := priceToY (padding s) (contentHeight s) (minPrice s) (yScale s) in
  (Y (maxPrice s) <? Y (minPrice s)) = true
  /\ (padding s <=? Y p) = true
  /\ (Y p <=? height (stockCanvas s) - padding s) = true.
Proof.
  intros Hpd HH Hmn Hmx Hh Hlt Hlo Hhi Y. subst Y.
  unfold yScale, contentHeight in *.
  finite Hpd pd. finite HH H. finite Hmn mn. finite Hmx mx.
  clear Hpd HH Hmn Hmx.
  destruct p as [v| | |]; try discriminate.
  cbn [num_add num_sub num_mul of_Z ideal_number
       Ideal.add Ideal.sub Ideal.mul Ideal.neg] in *.
  apply ideal_ltb_lt in Hh, Hlt. apply ideal_leb_le in Hlo, Hhi.
  change (inject_Z 0) with 0%Q in Hh. change (inject_Z 2) with 2%Q in *.
  set (h := (H + - (2 * pd))%Q) in *.
  set (d := (mx + - mn)%Q).
  assert (Hd : (0 < d)%Q) by (subst d; lra).
  rewrite ideal_div_pos by exact Hd.
  set (ys := (h / d)%Q).
  assert (Hys : (0 < ys)%Q) by (subst ys; apply Qlt_shift_div_l; lra).
  assert (Hfull : (d * ys == h)%Q) by (subst ys; field; lra).
  unfold priceToY.
  cbn [num_add num_sub num_mul ideal_number
       Ideal.add Ideal.sub Ideal.mul Ideal.neg].
  assert (Hzero : ((mn + - mn) * ys == 0)%Q) by ring.
  assert (Hpos : (0 <= (v + - mn) * ys)%Q).
  { apply Qmult_le_0_compat; lra. }
  assert (Hmost : ((v + - mn) * ys <= d * ys)%Q).
  { apply Qmult_le_compat_r; subst d; lra. }
  fold d. repeat split.
  - apply ideal_ltb_lt. lra.
  - apply ideal_leb_le. lra.
  - apply ideal_leb_le. subst h. lra.
Qed.

End ExactArithmetic.

(** Three days in exact arithmetic: the pixel of day 2 maps back to
    index 1. *)
Lemma round_trip_of_second_day :
  xToIndex (padding exactChart3) (xScale exactChart3)
           (indexToX (padding exactChart3) (xScale exactChart3) 1)
  = IFin 1
  /\ to_index (xToIndex (padding exactChart3) (xScale exactChart3)
                        (indexToX (padding exactChart3) (xScale exactChart3) 1))
     = Some 1%nat.
Proof.
  apply (index_round_trip_exact exactChart3 (xScale exactChart3) 1).
  - vm_compute. reflexivity.
  - vm_compute. reflexivity.
  - vm_compute. reflexivity.
  - vm_compute. lia.
  - vm_compute. lia.
Defined.

(** A pointer at [x = 50], left of the padding, draws no text. *)
Lemma pointer_at_50_draws_no_text :
  drawsText (calls (mousemove (xScale exactChart3) (contentHeight exactChart3)
                              exactChart3 (IFin 50) (IFin 100))) = false.
Proof.
  apply (pointer_outside_positive_scale
           exactChart3 (xScale exactChart3) (contentHeight exactChart3)
           (IFin 50) (IFin 100)).
  - vm_compute. reflexivity.
  - vm_compute. reflexivity.
  - vm_compute. reflexivity.
  - vm_compute. lia.
  - left. vm_compute. reflexivity.
Defined.

(** Two days closing at 10 and 17.25: the price 12 is drawn inside the
    content area, and the highest price above the lowest. *)
Lemma price_12_inside_content_area :
  let Y := priceToY (padding exactChart2) (contentHeight exactChart2)
                    (minPrice exactChart2) (yScale exactChart2) in
  (Y (maxPrice exactChart2) <? Y (minPrice exactChart2))%js = true
  /\ (padding exactChart2 <=? Y (IFin 12))%js = true
  /\ (Y (IFin 12) <=? height (stockCanvas exactChart2) - padding exactChart2)%js
     = true.
Proof.
  apply (price_axis_inverted_and_bounded exactChart2 (IFin 12));
    vm_compute; reflexivity.
Defined.

(* ================================================================== *)
(** * The scale, in doubles *)

Create HintDb nonfinite.

Section Doubles.

Local Open Scope js_scope.

Lemma notFinite_isFinite (x : double) : notFinite x -> isFinite x = false.
Proof.
  unfold notFinite, isFinite.
  cbn [isNaN num_eqb num_neg Infinity double_number]. unfold is_nan.
  rewrite !eqb_spec.
  change (Prim2SF infinity) with (S754_infinity false).
  change (Prim2SF (- infinity)) with (S754_infinity true).
  destruct (Prim2SF x) as [sx|[|]| |sx mx ex]; intros Hx; try contradiction;
    reflexivity.
Qed.

Lemma sub_self_zero_or_nan (a : double) : zeroOrNaN (a - a).
Proof.
  unfold zeroOrNaN. cbn [num_sub double_number]. rewrite sub_spec.
  destruct (Prim2SF a) as [[|]|[|]| |sa ma ea]; try exact I.
  unfold SF64sub, SFsub. rewrite Z.sub_diag. exact I.
Qed.

Lemma sub_equal_zero_or_nan (a b : double) :
  (a =? b) = true -> zeroOrNaN (a - b).
Proof.
  unfold zeroOrNaN. cbn [num_sub num_eqb double_number].
  rewrite sub_spec, eqb_spec. unfold SFeqb.
  destruct (Prim2SF a) as [sa|sa| |sa ma ea], (Prim2SF b) as [sb|sb| |sb mb eb];
    cbn [SFcompare]; try discriminate;
    try (destruct sa; discriminate); try (destruct sb; discriminate).
  - intros _. destruct sa, sb; exact I.
  - destruct sa, sb; try discriminate; intros _; exact I.
  - intros Heq.
  assert (Hsame : sa = sb /\ ea = eb /\ ma = mb).
  { change (Pos.compare_cont Eq ma mb) with (Pos.compare ma mb) in Heq.
    destruct sa, sb; try discriminate;
      destruct (Z.compare_spec ea eb) as [He | He | He]; try discriminate;
      destruct (Pos.compare_spec ma mb) as [Hm | Hm | Hm];
      try discriminate; auto. }
  destruct Hsame as (-> & -> & ->).
  unfold SF64sub, SFsub. rewrite Z.sub_diag. exact I.
Qed.

Lemma div_by_zero_or_nan (h d : double) : zeroOrNaN d -> notFinite (h / d).
Proof.
  unfold zeroOrNaN, notFinite. cbn [num_div double_number]. rewrite div_spec.
  destruct (Prim2SF d) as [sd|sd| |sd md ed]; try contradiction; intros _;
    destruct (Prim2SF h) as [sh|sh| |sh mh eh]; exact I.
Qed.

Lemma mul_notFinite (a b : double) : notFinite b -> notFinite (a * b).
Proof.
  unfold notFinite. cbn [num_mul double_number]. rewrite mul_spec.
  destruct (Prim2SF b) as [sb|sb| |sb mb eb]; try contradiction; intros _;
    destruct (Prim2SF a) as [sa|sa| |sa ma ea]; exact I.
Qed.

Lemma sub_notFinite (a b : double) : notFinite b -> notFinite (a - b).
Proof.
  unfold notFinite. cbn [num_sub double_number]. rewrite sub_spec.
  destruct (Prim2SF b) as [sb|[|]| |sb mb eb]; try contradiction; intros _;
    destruct (Prim2SF a) as [sa|[|]| |sa ma ea]; exact I.
Qed.

#[local] Hint Resolve notFinite_isFinite sub_notFinite mul_notFinite
  div_by_zero_or_nan sub_equal_zero_or_nan : nonfinite.

(** The price range of a single close is a zero, or [NaN]. *)
Lemma singleton_range (c : double) : zeroOrNaN (Math_max [c] - Math_min [c]).
Proof.
  unfold Math_max, Math_min. cbn [existsb fold_left].
  rewrite orb_false_r.
  change (isNegZero (num_neg Infinity : double)) with false.
  change ((Infinity : double) =? of_Z 0) with false.
  rewrite andb_false_r. cbn [andb orb].
  cbn [isNaN num_ltb num_neg Infinity NaN double_number]. unfold is_nan.
  rewrite eqb_spec, !ltb_spec.
  change (Prim2SF infinity) with (S754_infinity false).
  change (Prim2SF (- infinity)) with (S754_infinity true).
  destruct (Prim2SF c) as [sc|sc| |sc mc ec] eqn:Ec.
  - cbn. apply sub_self_zero_or_nan.
  - destruct sc; cbn; unfold zeroOrNaN; cbn [num_sub double_number];
      rewrite sub_spec, Ec; exact I.
  - cbn. exact I.
  - assert (Hrefl : SFeqb (S754_finite sc mc ec) (S754_finite sc mc ec) = true).
    { unfold SFeqb. cbn [SFcompare].
      change (Pos.compare_cont Eq mc mc) with (Pos.compare mc mc).
      rewrite Z.compare_refl, Pos.compare_refl. now destruct sc. }
    rewrite Hrefl. cbn [negb].
    replace (SFltb (S754_infinity true) (S754_finite sc mc ec)) with true
      by now destruct sc.
    replace (SFltb (S754_finite sc mc ec) (S754_infinity false)) with true
      by now destruct sc.
    apply sub_self_zero_or_nan.
Qed.

(** C3, on the code. [plotChart] has no fallback scale. When the series
    has a single record, or when [maxPrice == minPrice], the y scale
    [height / (maxPrice - minPrice)] is an infinity or [NaN], and so is
    the y coordinate that [priceToY] computes with it for any price. For
    one to nine records [plotChart] does not return, so that nothing is
    plotted; for ten records and more it returns, having drawn the price
    path to such a point for every record, and the average path to such a
    point for every average. *)
Theorem degenerate_scale_has_no_fallback
        (s : StockChart double) (showCrosshairs : bool) :
  List.length (fullData s) = 1%nat \/ (maxPrice s =? minPrice s) = true ->
  let Y := priceToY (padding s) (contentHeight s) (minPrice s) (yScale s) in
  isFinite (yScale s) = false
  /\ (forall p, isFinite (Y p) = false)
  /\ ((1 <= List.length (fullData s) <= 9)%nat ->
      forall fuel, plotChart fuel showCrosshairs s = None)
  /\ ((10 <= List.length (fullData s))%nat ->
      exists plot,
        plotChart (S (List.length (fullData s))) showCrosshairs s = Some plot
        /\ (forall j r,
              nth_error (fullData s) j = Some r ->
              In (lineTo (indexToX (padding s) (xScale s) j)
                         (Y (ToNumber (close r))))
                 (ctx plot))
        /\ (forall j ma,
              nth_error (movingAverage s) j = Some ma ->
              In (pen j (indexToX (padding s) (xScale s) j) (Y (avg ma)))
                 (ctx plot))).
Proof.
  intros Hdegenerate Y.
  assert (Hrange : zeroOrNaN (maxPrice s - minPrice s)).
  { destruct Hdegenerate as [Hone | Hequal].
    - unfold maxPrice, minPrice, closes.
      destruct (fullData s) as [|r [|r' rest]]; try discriminate.
      apply singleton_range.
    - auto with nonfinite. }
  assert (Hscale : notFinite (yScale s)).
  { unfold yScale. auto with nonfinite. }
  split; [auto with nonfinite|].
  split; [intros p; subst Y; unfold priceToY; auto with nonfinite|].
  split.
  - intros HN fuel. unfold plotChart, drawAxisLabels.
    rewrite dateLabels_zero_step; [reflexivity | apply Nat.div_small; lia | lia].
  - intros HN.
    destruct (plotChart_returns showCrosshairs s (or_intror HN)) as [plot Hplot].
    exists plot. split; [exact Hplot|]. split.
    + intros j r Hr. apply (plotChart_paths _ _ _ _ _ Hplot). left.
      now apply closing_path_points.
    + intros j ma Hma. apply (plotChart_paths _ _ _ _ _ Hplot). right.
      now apply average_path_points.
Qed.

End Doubles.

(** Twenty-five days that all close at 10, on a canvas of 800 by 600:
    the y scale is [480 / (10 - 10) = Infinity], and the first point of
    the price path and of the average path is drawn at
    [y = 540 - (10 - 10) * Infinity = NaN]. *)
Lemma flat_series_is_drawn_at_NaN :
  xScale chartFlat = 27.199999999999999%float
  /\ yScale chartFlat = Infinity
  /\ exists plot,
       plotChart 26 true chartFlat = Some plot
       /\ In (lineTo 60%float NaN) (ctx plot)
       /\ In (moveTo 60%float NaN) (ctx plot).
Proof.
  split; [vm_compute; reflexivity|]. split; [vm_compute; reflexivity|].
  destruct (degenerate_scale_has_no_fallback chartFlat true)
    as (_ & _ & _ & Hdrawn).
  - right. vm_compute. reflexivity.
  - destruct Hdrawn as (plot & Hplot & Hprices & Haverages);
      [vm_compute; lia|].
    exists plot. split; [exact Hplot|].
    destruct (nth_error (fullData chartFlat) 0) as [r|] eqn:Hr;
      [|vm_compute in Hr; discriminate].
    destruct (nth_error (movingAverage chartFlat) 0) as [ma|] eqn:Hma;
      [|vm_compute in Hma; discriminate].
    specialize (Hprices 0%nat r Hr). specialize (Haverages 0%nat ma Hma).
    vm_compute in Hr. injection Hr as <-.
    vm_compute in Hma. injection Hma as <-.
    split.
    + replace (lineTo 60%float NaN : Command double) with
        (lineTo (indexToX (padding chartFlat) (xScale chartFlat) 0)
                (priceToY (padding chartFlat) (contentHeight chartFlat)
                          (minPrice chartFlat) (yScale chartFlat)
                          (ToNumber (Some 10%float))))
        by (vm_compute; reflexivity).
      exact Hprices.
    + replace (moveTo 60%float NaN : Command double) with
        (pen 0 (indexToX (padding chartFlat) (xScale chartFlat) 0)
             (priceToY (padding chartFlat) (contentHeight chartFlat)
                       (minPrice chartFlat) (yScale chartFlat) 10%float))
        by (vm_compute; reflexivity).
      exact Haverages.
Defined.

(* ================================================================== *)
(** * Rounding to a double

    What [binary_round_aux] returns for a mantissa of at least 53 bits
    whose result is a normal number: the mantissa cut to 53 bits, or that
    plus one.  From it, the bits of a small integer as a double, and the
    integer part of its product with, and of its quotient by, the double
    nearest to [1.1]. *)

Section ShiftRight.

Local Open Scope Z_scope.

Lemma iter_pos_nat {A} (f : A -> A) (p : positive) (x : A) :
  iter_pos f p x = Nat.iter (Pos.to_nat p) f x.
Proof.
  revert x; induction p as [p IH | p IH |]; intros x; cbn [iter_pos].
  - rewrite !IH, Pos2Nat.inj_xI.
    replace (S (2 * Pos.to_nat p))%nat with (Pos.to_nat p + (Pos.to_nat p + 1))%nat by lia.
    rewrite !Nat.iter_add. reflexivity.
  - rewrite !IH, Pos2Nat.inj_xO.
    replace (2 * Pos.to_nat p)%nat with (Pos.to_nat p + Pos.to_nat p)%nat by lia.
    rewrite Nat.iter_add. reflexivity.
  - reflexivity.
Qed.

Lemma shr_1_spec (mrs : shr_record) :
  0 <= shr_m mrs ->
  shr_m (shr_1 mrs) = shr_m mrs / 2
  /\ inexact (shr_1 mrs) = Z.odd (shr_m mrs) || inexact mrs.
Proof.
  destruct mrs as [m r s]. unfold inexact. cbn [shr_m shr_r shr_s].
  intros Hm. destruct m as [|[p|p|]|p]; try lia; cbn [shr_1 shr_m shr_r shr_s].
  - split; [reflexivity|]. reflexivity.
  - split; [|reflexivity]. rewrite Pos2Z.inj_xI. 
    apply Z.div_unique with (r := 1); lia.
  - split; [|reflexivity]. rewrite Pos2Z.inj_xO.
    apply Z.div_unique with (r := 0); lia.
  - split; reflexivity.
Qed.

(** [k] shifts to the right divide the mantissa by [2^k]; the result is
    inexact only if the mantissa was, or if a bit was shifted out. *)
Lemma shr_iter_spec (k : nat) (mrs : shr_record) :
  0 <= shr_m mrs ->
  shr_m (Nat.iter k shr_1 mrs) = shr_m mrs / 2 ^ Z.of_nat k
  /\ (inexact (Nat.iter k shr_1 mrs) = true ->
      inexact mrs = true \/ shr_m mrs mod 2 ^ Z.of_nat k <> 0).
Proof.
  intros Hm. induction k as [|k [IHm IHi]].
  - change (Nat.iter 0 shr_1 mrs) with mrs.
    change (2 ^ Z.of_nat 0) with 1. rewrite Z.div_1_r. auto.
  - rewrite Nat.iter_succ.
    assert (Hk : 0 <= shr_m (Nat.iter k shr_1 mrs)).
    { rewrite IHm. apply Z.div_pos; [lia | apply Z.pow_pos_nonneg; lia]. }
    destruct (shr_1_spec _ Hk) as [H1 H2].
    rewrite H1, H2, IHm, Nat2Z.inj_succ, Z.pow_succ_r by lia.
    split.
    + rewrite Z.div_div by (try apply Z.pow_pos_nonneg; lia). f_equal. lia.
    + intros Hi.
      assert (Hp : 0 < 2 ^ Z.of_nat k) by (apply Z.pow_pos_nonneg; lia).
      pose proof (Z.mod_pos_bound (shr_m mrs) (2 ^ Z.of_nat k) Hp) as Hlow.
      pose proof (Z.mod_pos_bound (shr_m mrs / 2 ^ Z.of_nat k) 2 ltac:(lia)) as Hbit.
      assert (Hsplit : shr_m mrs mod (2 * 2 ^ Z.of_nat k)
                       = shr_m mrs mod 2 ^ Z.of_nat k
                         + 2 ^ Z.of_nat k * ((shr_m mrs / 2 ^ Z.of_nat k) mod 2)).
      { rewrite (Z.mul_comm 2). apply Z.rem_mul_r; lia. }
      apply orb_true_iff in Hi as [Hodd | Hi].
      * right. rewrite Hsplit.
        apply Z.odd_spec in Hodd. destruct Hodd as [q Hq].
        pose proof (Z.div_mod (shr_m mrs / 2 ^ Z.of_nat k) 2 ltac:(lia)) as Hdm.
        assert (Hone : (shr_m mrs / 2 ^ Z.of_nat k) mod 2 = 1) by lia.
        rewrite Hone. lia.
      * destruct (IHi Hi) as [Hin | Hmod]; [now left|].
        right. rewrite Hsplit. nia.
Qed.

End ShiftRight.

Section Rounding.

Local Open Scope Z_scope.

Lemma digits2_log2 (p : positive) : Z.pos (digits2_pos p) = Z.log2 (Z.pos p) + 1.
Proof.
  induction p as [p IH | p IH |]; cbn [digits2_pos].
  - rewrite Pos2Z.inj_succ, IH, Pos2Z.inj_xI, Z.log2_succ_double by lia. lia.
  - rewrite Pos2Z.inj_succ, IH, Pos2Z.inj_xO, Z.log2_double by lia. lia.
  - reflexivity.
Qed.

Lemma digits2_bounds (p : positive) :
  2 ^ (Z.pos (digits2_pos p) - 1) <= Z.pos p < 2 ^ Z.pos (digits2_pos p).
Proof.
  rewrite digits2_log2.
  replace (Z.log2 (Z.pos p) + 1 - 1) with (Z.log2 (Z.pos p)) by lia.
  replace (Z.log2 (Z.pos p) + 1) with (Z.succ (Z.log2 (Z.pos p))) by lia.
  apply Z.log2_spec. lia.
Qed.

Lemma digits2_unique (p : positive) (d : Z) :
  2 ^ (d - 1) <= Z.pos p < 2 ^ d -> Z.pos (digits2_pos p) = d.
Proof.
  intros Hd. rewrite digits2_log2.
  assert (0 < d).
  { destruct (Z.le_gt_cases d 0) as [Hle|]; [|lia].
    assert (2 ^ d <= 2 ^ 0) by (apply Z.pow_le_mono_r; lia). 
    change (2 ^ 0) with 1 in *. lia. }
  rewrite (Z.log2_unique (Z.pos p) (d - 1)); [lia | lia |].
  replace (Z.succ (d - 1)) with d by lia. exact Hd.
Qed.

(** Rounding a positive mantissa of at least 53 bits, in the range of the
    normal numbers: the result is the mantissa cut to 53 bits, or the
    next one. *)
(** Rounding a mantissa of [d >= 53] bits to a normal double: [n = d - 53]
    bits are shifted out, and the result is the mantissa that is left, or
    that plus one (then something was lost), possibly renormalised. *)
Lemma round_normal (sx : bool) (mx : positive) (ex : Z) (lx : location) :
  let d := Z.pos (digits2_pos mx) in
  let n := d - 53 in
  let m1 := Z.pos mx / 2 ^ n in
  53 <= d ->
  -1074 <= ex + n <= 970 ->
  exists m e,
    binary_round_aux prec emax sx (Z.pos mx) ex lx = S754_finite sx m e
    /\ Z.pos (digits2_pos m) = 53
    /\ ex + n <= e <= ex + n + 1
    /\ (Z.pos m * 2 ^ (e - (ex + n)) = m1
        \/ (Z.pos m * 2 ^ (e - (ex + n)) = m1 + 1
            /\ (lx <> loc_Exact \/ Z.pos mx mod 2 ^ n <> 0))).
Proof.
  intros d n m1 Hd He.
  pose proof (digits2_bounds mx) as Hmx. fold d in Hmx.
  assert (Hdn : n = d - 53) by reflexivity.
  assert (Hdm : m1 = Z.pos mx / 2 ^ n) by reflexivity.
  assert (Hdd : Z.pos (digits2_pos mx) = d) by reflexivity.
  clearbody m1. clearbody n. clearbody d.
  assert (Hn : 0 <= n) by (subst n; lia).
  assert (Hpow : 0 < 2 ^ n) by (apply Z.pow_pos_nonneg; lia).
  assert (Hm1 : 2 ^ 52 <= m1 < 2 ^ 53).
  { subst m1. replace d with (n + 53) in Hmx by (subst n; lia).
    replace (n + 53 - 1) with (n + 52) in Hmx by lia.
    rewrite !Z.pow_add_r in Hmx by lia.
    split.
    - apply Z.div_le_lower_bound; lia.
    - apply Z.div_lt_upper_bound; lia. }
  (* the first shift *)
  assert (Hfirst : exists mrs,
             shr_fexp prec emax (Z.pos mx) ex lx = (mrs, ex + n)
             /\ shr_m mrs = m1
             /\ (inexact mrs = true -> lx <> loc_Exact \/ Z.pos mx mod 2 ^ n <> 0)).
  { unfold shr_fexp. cbn [Zdigits2]. rewrite Hdd.
    assert (Hf : fexp prec emax (d + ex) - ex = n).
    { unfold fexp, emin, prec, emax. subst n. lia. }
    rewrite Hf. unfold shr.
    assert (Hloc : inexact (shr_record_of_loc (Z.pos mx) lx) = true -> lx <> loc_Exact).
    { destruct lx as [|[| |]]; cbn; congruence. }
    assert (Hrec : shr_m (shr_record_of_loc (Z.pos mx) lx) = Z.pos mx).
    { destruct lx as [|[| |]]; reflexivity. }
    destruct n as [|p|p] eqn:En; try lia.
    - eexists. split; [now rewrite Z.add_0_r|]. split.
      + rewrite Hrec. subst m1. change (2 ^ 0) with 1. now rewrite Z.div_1_r.
      + intros Hi. left. auto.
    - eexists. split; [reflexivity|].
      rewrite iter_pos_nat.
      destruct (shr_iter_spec (Pos.to_nat p) (shr_record_of_loc (Z.pos mx) lx))
        as [Hm Hi]; [rewrite Hrec; lia|].
      rewrite positive_nat_Z, Hrec in Hm, Hi.
      split; [now rewrite Hdm|].
      intros Hin. destruct (Hi Hin) as [H0 | H0]; auto. }
  destruct Hfirst as (mrs & Hshift & Hm & Hinexact).
  unfold binary_round_aux. rewrite Hshift.
  (* rounding *)
  set (m2 := round_nearest_even (shr_m mrs) (loc_of_shr_record mrs)).
  assert (Hm2 : m2 = m1 \/ (m2 = m1 + 1 /\ inexact mrs = true)).
  { subst m2. rewrite Hm. destruct mrs as [m r s]. unfold inexact.
    destruct r, s; cbn; auto. destruct (Z.even m1); auto. }
  assert (Hm2' : m2 < 2 ^ 53 \/ m2 = 2 ^ 53) by lia.
  destruct Hm2' as [Hsmall | Hcarry].
  - (* no carry *)
    assert (Hpos : exists p2, m2 = Z.pos p2).
    { destruct m2 as [|p2|p2]; try lia. now exists p2. }
    destruct Hpos as [p2 Hp2].
    assert (Hd2 : Z.pos (digits2_pos p2) = 53).
    { apply digits2_unique. rewrite <- Hp2. change (53 - 1) with 52. lia. }
    unfold shr_fexp. rewrite Hp2. cbn [Zdigits2]. rewrite Hd2.
    assert (Hf : fexp prec emax (53 + (ex + n)) - (ex + n) = 0).
    { unfold fexp, emin, prec, emax. lia. }
    rewrite Hf. cbn [shr shr_record_of_loc shr_m].
    assert (Hle : (ex + n <=? emax - prec) = true).
    { apply Z.leb_le. unfold emax, prec. lia. }
    rewrite Hle.
    exists p2, (ex + n). split; [reflexivity|]. split; [exact Hd2|].
    split; [lia|].
    rewrite Z.sub_diag. change (2 ^ 0) with 1. rewrite Z.mul_1_r, <- Hp2.
    destruct Hm2 as [-> | [-> Hi]]; auto.
  - (* the mantissa has become 2^53 *)
    unfold shr_fexp. rewrite Hcarry.
    change (Zdigits2 (2 ^ 53)) with 54.
    assert (Hf : fexp prec emax (54 + (ex + n)) - (ex + n) = 1).
    { unfold fexp, emin, prec, emax. lia. }
    rewrite Hf.
    change (shr (shr_record_of_loc (2 ^ 53) loc_Exact) (ex + n) 1)
      with ({| shr_m := Z.pos 4503599627370496; shr_r := false; shr_s := false |},
            ex + n + 1).
    cbn [shr_m].
    assert (Hle : (ex + n + 1 <=? emax - prec) = true).
    { apply Z.leb_le. unfold emax, prec. lia. }
    rewrite Hle.
    exists 4503599627370496%positive, (ex + n + 1).
    split; [reflexivity|]. split; [reflexivity|].
    split; [lia|]. right.
    replace (ex + n + 1 - (ex + n)) with 1 by lia.
    change (Z.pos 4503599627370496 * 2 ^ 1) with (2 ^ 53).
    destruct Hm2 as [Heq | [Heq Hi]]; [lia|].
    split; [lia | auto].
Qed.

End Rounding.

Section Integers.

Local Open Scope Z_scope.

Lemma iter_xO (p d : positive) : Z.pos (Pos.iter xO p d) = Z.pos p * 2 ^ Z.pos d.
Proof.
  induction d as [|d IH] using Pos.peano_ind.
  - cbn [Pos.iter]. change (2 ^ 1) with 2. lia.
  - rewrite Pos.iter_succ, Pos2Z.inj_succ, Z.pow_succ_r, Pos2Z.inj_xO, IH by lia. lia.
Qed.

Lemma finite_valid (s : bool) (m : positive) (e : Z) :
  Z.pos (digits2_pos m) = 53 -> -1074 <= e <= 971 ->
  valid_binary (S754_finite s m e) = true.
Proof.
  intros Hd He. unfold valid_binary. cbn [SpecFloat.valid_binary].
  unfold bounded, canonical_mantissa.
  rewrite Hd. unfold fexp, emin, emax, prec.
  apply andb_true_intro. split; [apply Z.eqb_eq | apply Z.leb_le]; lia.
Qed.

Lemma round_bounds (sx : bool) (mx : positive) (ex : Z) (lx : location) :
  let n := Z.pos (digits2_pos mx) - 53 in
  0 <= n -> -1074 <= ex + n <= 970 ->
  exists m e,
    binary_round_aux prec emax sx (Z.pos mx) ex lx = S754_finite sx m e
    /\ Z.pos (digits2_pos m) = 53
    /\ ex + n <= e <= ex + n + 1
    /\ Z.pos mx / 2 ^ n <= Z.pos m * 2 ^ (e - (ex + n)) <= Z.pos mx / 2 ^ n + 1.
Proof.
  intros n Hn He.
  destruct (round_normal sx mx ex lx) as (m & e & Hr & Hd & Hle & Hv);
    [lia | exact He |].
  exists m, e. fold n in Hle, Hv |- *. repeat split; try assumption; try lia.
Qed.

(** An integer below [2^53] is a double as it is: its bits, shifted to
    the left to fill 53 bits. *)
Lemma of_Z_shape (y : Z) :
  0 < y < 2 ^ 53 ->
  exists m,
    Prim2SF (Double.of_Z y) = S754_finite false m (Z.log2 y - 52)
    /\ Z.pos m = y * 2 ^ (52 - Z.log2 y)
    /\ Z.pos (digits2_pos m) = 53.
Proof.
  intros Hy. destruct y as [|p|p]; try lia.
  pose proof (digits2_log2 p) as Hd.
  pose proof (digits2_bounds p) as Hb.
  assert (Hl : 0 <= Z.log2 (Z.pos p) <= 52).
  { split; [apply Z.log2_nonneg|].
    assert (Z.log2 (Z.pos p) < 53); [apply Z.log2_lt_pow2; lia | lia]. }
  set (l := Z.log2 (Z.pos p)) in *.
  assert (Hal : exists mz,
             shl_align p 0 (fexp prec emax (Z.pos (digits2_pos p) + 0)) = (mz, l - 52)
             /\ Z.pos mz = Z.pos p * 2 ^ (52 - l)).
  { unfold shl_align. rewrite Hd, Z.add_0_r, Z.sub_0_r.
    replace (fexp prec emax (l + 1)) with (l - 52)
      by (unfold fexp, emin, emax, prec; lia).
    destruct (l - 52) as [|q|q] eqn:Eq; try lia.
    - exists p. split; [reflexivity|].
      replace (52 - l) with 0 by lia. lia.
    - eexists. split; [reflexivity|]. rewrite iter_xO.
      replace (52 - l) with (Z.pos q) by lia. reflexivity. }
  destruct Hal as (mz & Hal & Hmz).
  assert (Hdz : Z.pos (digits2_pos mz) = 53).
  { apply digits2_unique. rewrite Hmz. rewrite Hd in Hb.
    replace (l + 1 - 1) with l in Hb by lia.
    change (53 - 1) with 52.
    assert (E1 : 2 ^ 52 = 2 ^ l * 2 ^ (52 - l))
      by (rewrite <- Z.pow_add_r by lia; f_equal; lia).
    assert (E2 : 2 ^ 53 = 2 ^ (l + 1) * 2 ^ (52 - l))
      by (rewrite <- Z.pow_add_r by lia; f_equal; lia).
    rewrite E1, E2.
    assert (0 < 2 ^ (52 - l)) by (apply Z.pow_pos_nonneg; lia).
    split; [apply Z.mul_le_mono_nonneg_r | apply Z.mul_lt_mono_pos_r]; lia. }
  destruct (round_bounds false mz (l - 52) loc_Exact) as (m & e & Hr & Hdm & Hle & Hv);
    [lia | lia |].
  rewrite Hdz in Hle, Hv. change (53 - 53) with 0 in Hle, Hv.
  rewrite Z.add_0_r in Hle, Hv. change (2 ^ 0) with 1 in Hv. rewrite Z.div_1_r in Hv.
  assert (He : e = l - 52).
  { destruct (Z.eq_dec e (l - 52)) as [|Hne]; [assumption|].
    replace (e - (l - 52)) with 1 in Hv by lia. change (2 ^ 1) with 2 in Hv.
    pose proof (digits2_bounds m) as Hbm. pose proof (digits2_bounds mz) as Hbz.
    rewrite Hdm in Hbm. rewrite Hdz in Hbz. change (53 - 1) with 52 in Hbm, Hbz.
    pose proof (round_normal false mz (l - 52) loc_Exact) as Hn.
    cbv zeta in Hn. rewrite Hdz in Hn. change (53 - 53) with 0 in Hn.
    destruct Hn as (m' & e' & Hr' & _ & _ & Hv'); [lia | lia |].
    rewrite Hr in Hr'. injection Hr' as <- <-.
    rewrite Z.add_0_r in Hv'. replace (e - (l - 52)) with 1 in Hv' by lia.
    change (2 ^ 1) with 2 in Hv'. change (2 ^ 0) with 1 in Hv'.
    rewrite Z.div_1_r in Hv'.
    destruct Hv' as [Hv' | [_ [Hv' | Hv']]]; try congruence.
    - change (2 ^ 53) with (2 * 2 ^ 52) in Hbz. lia.
    - rewrite Z.mod_1_r in Hv'. congruence. }
  subst e. rewrite Z.sub_diag in Hv. change (2 ^ 0) with 1 in Hv.
  assert (Hm : m = mz).
  { pose proof (round_normal false mz (l - 52) loc_Exact) as Hn.
    cbv zeta in Hn. rewrite Hdz in Hn. change (53 - 53) with 0 in Hn.
    destruct Hn as (m' & e' & Hr' & _ & _ & Hv'); [lia | lia |].
    rewrite Hr in Hr'. injection Hr' as <- <-.
    rewrite Z.add_0_r, Z.sub_diag in Hv'. change (2 ^ 0) with 1 in Hv'.
    rewrite Z.div_1_r, Z.mul_1_r in Hv'.
    destruct Hv' as [Hv' | [_ [Hv' | Hv']]]; try congruence.
    rewrite Z.mod_1_r in Hv'. congruence. }
  subst m.
  exists mz. split; [|split; assumption].
  unfold Double.of_Z, Double.of_SF. cbn [binary_normalize]. unfold binary_round.
  rewrite Hal, Hr. apply Prim2SF_SF2Prim. apply finite_valid; [assumption | lia].
Qed.

End Integers.

Section Truncation.

Local Open Scope Z_scope.

(** The double nearest to [1.1] is [4953959590107546 * 2^-52]; ten times
    its mantissa is [11 * 2^52 + 4]. *)
Lemma zoomFactor_bits :
  Prim2SF (zoomFactor (num := double)) = S754_finite false 4953959590107546 (-52).
Proof. vm_compute. reflexivity. Qed.

Lemma truncate_scaled (x : float) (m : positive) (e E0 : Z) :
  Prim2SF x = S754_finite false m e ->
  E0 <= e <= 0 ->
  Double.truncate x = (Z.pos m * 2 ^ (e - E0)) / 2 ^ (- E0).
Proof.
  intros Hx He. unfold Double.truncate. rewrite Hx.
  assert (Hshift : (if 0 <=? e then Z.shiftl (Z.pos m) e else Z.shiftr (Z.pos m) (- e))
                   = Z.pos m / 2 ^ (- e)).
  { destruct (Z.leb_spec 0 e).
    - replace e with 0 by lia. cbn [Z.shiftl Z.opp]. change (2 ^ 0) with 1.
      now rewrite Z.div_1_r.
    - apply Z.shiftr_div_pow2. lia. }
  cbv zeta. rewrite Hshift.
  replace (- E0) with (- e + (e - E0)) by lia.
  rewrite Z.pow_add_r by lia.
  rewrite Z.div_mul_cancel_r; [reflexivity | |];
    apply Z.pow_nonzero; lia.
Qed.

Lemma log2_small (y : Z) : 0 < y < 2 ^ 31 -> 0 <= Z.log2 y <= 30.
Proof.
  intros Hy. split; [apply Z.log2_nonneg|].
  assert (Z.log2 y < 31); [apply Z.log2_lt_pow2; lia | lia].
Qed.

Lemma pow2_ge (a b : Z) : 0 <= a <= b -> 2 ^ a <= 2 ^ b.
Proof. intros H. apply Z.pow_le_mono_r; lia. Qed.

Lemma digits_between (p : positive) (lo hi : Z) :
  0 <= lo -> 2 ^ lo <= Z.pos p < 2 ^ hi -> lo < Z.pos (digits2_pos p) <= hi.
Proof.
  intros Hlo Hp. pose proof (digits2_bounds p) as Hb.
  set (d := Z.pos (digits2_pos p)) in *.
  split.
  - destruct (Z.lt_ge_cases lo d) as [|Hge]; [assumption|].
    pose proof (pow2_ge d lo ltac:(subst d; lia)). lia.
  - destruct (Z.le_gt_cases d hi) as [|Hgt]; [assumption|].
    assert (0 <= hi).
    { destruct (Z.le_gt_cases 0 hi); [assumption|].
      rewrite (Z.pow_neg_r 2 hi) in Hp by lia. lia. }
    pose proof (pow2_ge hi (d - 1) ltac:(lia)). lia.
Qed.

(** [width * 1.1] in doubles, cut to an integer, is [11 * width / 10]
    rounded down: the rounding error of the product is too small to reach
    the next integer. *)
Lemma truncate_mul (y : Z) :
  0 < y < 2 ^ 31 ->
  Double.truncate (PrimFloat.mul (Double.of_Z y) (zoomFactor (num := double))) = 11 * y / 10.
Proof.
  intros Hy.
  destruct (of_Z_shape y) as (m & Hsf & Hm & Hd); [lia|].
  pose proof (log2_small y Hy) as Hl.
  set (l := Z.log2 y) in *.
  set (scale := 2 ^ (52 - l)) in *.
  assert (HS : 2 ^ 22 <= scale) by (apply pow2_ge; lia).
  pose proof (digits2_bounds m) as Hbm. rewrite Hd in Hbm.
  change (53 - 1) with 52 in Hbm.
  set (a := Z.pos m) in *.
  set (K := 11 * y / 10).
  pose proof (Z.mul_div_le (11 * y) 10 ltac:(lia)) as HK1.
  pose proof (Z.mod_pos_bound (11 * y) 10 ltac:(lia)) as HK2.
  pose proof (Z.div_mod (11 * y) 10 ltac:(lia)) as HK3.
  fold K in HK1, HK3.
  set (b := K * scale).
  assert (Hb1 : 10 * b <= 11 * a).
  { subst b. rewrite Hm. 
    replace (10 * (K * scale)) with ((10 * K) * scale) by ring.
    replace (11 * (y * scale)) with ((11 * y) * scale) by ring.
    apply Z.mul_le_mono_nonneg_r; lia. }
  assert (Hb2 : 11 * a - 9 * scale <= 10 * b).
  { subst b. rewrite Hm.
    replace (11 * (y * scale) - 9 * scale) with ((11 * y - 9) * scale) by ring.
    replace (10 * (K * scale)) with ((10 * K) * scale) by ring.
    apply Z.mul_le_mono_nonneg_r; lia. }
  (* the product and its rounding *)
  set (P := (m * 4953959590107546)%positive).
  assert (HP : Z.pos P = a * 4953959590107546) by (subst P a; apply Pos2Z.inj_mul).
  assert (HdP : 104 < Z.pos (digits2_pos P) <= 106).
  { apply digits_between; [lia|]. rewrite HP.
    change (2 ^ 104) with (2 ^ 52 * 2 ^ 52). change (2 ^ 106) with (2 ^ 53 * 2 ^ 53).
    change (2 ^ 52) with 4503599627370496 in *.
    change (2 ^ 53) with 9007199254740992 in *. nia. }
  destruct (round_bounds false P (l - 52 + -52) loc_Exact)
    as (m' & e' & Hr & Hd' & Hle & Hv); [lia | lia |].
  set (n := Z.pos (digits2_pos P) - 53) in *.
  set (E0 := l - 52 + -52 + n) in *.
  assert (Hprod : Prim2SF (PrimFloat.mul (Double.of_Z y) (zoomFactor (num := double))) = S754_finite false m' e').
  { rewrite mul_spec, Hsf, zoomFactor_bits. exact Hr. }
  rewrite (truncate_scaled _ m' e' E0 Hprod) by lia.
  set (R := Z.pos m' * 2 ^ (e' - E0)) in *.
  set (t := 2 ^ (- E0)).
  set (N := 2 ^ n) in *.
  assert (HN : 0 < N <= 2 ^ 53).
  { split; [apply Z.pow_pos_nonneg; lia | apply pow2_ge; lia]. }
  assert (Ht : 0 < t) by (apply Z.pow_pos_nonneg; lia).
  assert (HtN : t * N = 2 ^ 52 * scale).
  { subst t N scale. rewrite <- !Z.pow_add_r by lia. f_equal. lia. }
  change (2 ^ 52) with 4503599627370496 in *.
  change (2 ^ 53) with 9007199254740992 in *.
  change (2 ^ 22) with 4194304 in *.
  assert (Hlow : K * t <= Z.pos P / N).
  { apply Z.div_le_lower_bound; [lia|].
    replace (N * (K * t)) with (K * (t * N)) by ring. rewrite HtN.
    replace (K * (4503599627370496 * scale)) with (4503599627370496 * b) by (subst b; ring).
    lia. }
  assert (Hhigh : Z.pos P / N < (K + 1) * t - 1).
  { apply Z.div_lt_upper_bound; [lia|].
    replace (N * ((K + 1) * t - 1)) with ((K + 1) * (t * N) - N) by ring. rewrite HtN.
    replace ((K + 1) * (4503599627370496 * scale))
      with (4503599627370496 * b + 4503599627370496 * scale) by (subst b; ring).
    lia. }
  symmetry. apply Z.div_unique with (r := R - t * K). 
  - left. lia.
  - lia.
Qed.

Lemma div_eucl_pair (a b : Z) : Z.div_eucl a b = (a / b, a mod b).
Proof. unfold Z.div, Z.modulo. destruct (Z.div_eucl a b); reflexivity. Qed.

(** [width / 1.1] in doubles, cut to an integer, is [10 * width / 11]
    rounded down, or one less than that when [width] is a multiple of
    [11] (the quotient is then just below the integer). *)
Lemma truncate_div (y : Z) :
  0 < y < 2 ^ 31 ->
  let tr := Double.truncate (PrimFloat.div (Double.of_Z y) (zoomFactor (num := double))) in
  11 * tr <= 10 * y < 11 * tr + 12.
Proof.
  intros Hy.
  destruct (of_Z_shape y) as (m & Hsf & Hm & Hd); [lia|].
  pose proof (log2_small y Hy) as Hl.
  set (l := Z.log2 y) in *.
  set (scale := 2 ^ (52 - l)) in *.
  assert (HS : 2 ^ 22 <= scale) by (apply pow2_ge; lia).
  pose proof (digits2_bounds m) as Hbm. rewrite Hd in Hbm.
  change (53 - 1) with 52 in Hbm.
  set (a := Z.pos m) in *.
  (* the quotient of the mantissas *)
  set (q := a * 2 ^ 53 / 4953959590107546).
  assert (Hcore : SFdiv_core_binary prec emax (Z.pos m) (l - 52) 4953959590107546 (-52)
                  = (q, l - 53, new_location 4953959590107546
                                  (a * 2 ^ 53 mod 4953959590107546))).
  { unfold SFdiv_core_binary. cbn [Zdigits2]. rewrite Hd.
    change (Z.pos (digits2_pos 4953959590107546)) with 53.
    cbv zeta.
    replace (Z.min (fexp prec emax (53 + (l - 52) - (53 + -52))) (l - 52 - -52))
      with (l - 53) by (unfold fexp, emin, emax, prec; lia).
    replace (l - 52 - -52 - (l - 53)) with 53 by lia.
    cbv iota. rewrite Z.shiftl_mul_pow2 by lia. fold a.
    rewrite div_eucl_pair. reflexivity. }
  change (2 ^ 52) with 4503599627370496 in *.
  change (2 ^ 53) with 9007199254740992 in *.
  change (2 ^ 22) with 4194304 in *.
  pose proof (Z.mul_div_le (a * 9007199254740992) 4953959590107546 ltac:(lia)) as Hq1.
  pose proof (Z.mod_pos_bound (a * 9007199254740992) 4953959590107546 ltac:(lia)) as Hq2.
  pose proof (Z.div_mod (a * 9007199254740992) 4953959590107546 ltac:(lia)) as Hq3.
  fold q in Hq1, Hq3.
  assert (Hq : 2 ^ 52 <= q < 2 ^ 54).
  { change (2 ^ 52) with 4503599627370496. change (2 ^ 54) with 18014398509481984. lia. }
  destruct q as [|pq|pq] eqn:Eq; try lia.
  assert (Hdq : 52 < Z.pos (digits2_pos pq) <= 54) by (apply digits_between; lia).
  destruct (round_bounds false pq (l - 53)
              (new_location 4953959590107546 (a * 9007199254740992 mod 4953959590107546)))
    as (m' & e' & Hr & Hd' & Hle & Hv); [lia | lia |].
  set (n := Z.pos (digits2_pos pq) - 53) in *.
  set (E0 := l - 53 + n) in *.
  assert (Hquot : Prim2SF (PrimFloat.div (Double.of_Z y) (zoomFactor (num := double)))
                  = S754_finite false m' e').
  { rewrite div_spec, Hsf, zoomFactor_bits. unfold SF64div, SFdiv.
    rewrite Hcore. exact Hr. }
  cbv zeta. rewrite (truncate_scaled _ m' e' E0 Hquot) by lia.
  set (R := Z.pos m' * 2 ^ (e' - E0)) in *.
  set (t := 2 ^ (- E0)).
  set (N := 2 ^ n) in *.
  assert (HN : 0 < N <= 2).
  { split; [apply Z.pow_pos_nonneg; lia | apply (pow2_ge n 1); lia]. }
  assert (Ht : 0 < t) by (apply Z.pow_pos_nonneg; lia).
  assert (HtN : t * N = 2 * scale).
  { subst t N scale. change (2 * 2 ^ (52 - l)) with (2 ^ 1 * 2 ^ (52 - l)).
    rewrite <- !Z.pow_add_r by lia. f_equal. lia. }
  set (tr := R / t).
  pose proof (Z.mul_div_le R t Ht) as Htr1.
  pose proof (Z.mod_pos_bound R t Ht) as Htr2.
  pose proof (Z.div_mod R t ltac:(lia)) as Htr3.
  fold tr in Htr1, Htr3.
  pose proof (Z.mul_div_le (Z.pos pq) N ltac:(lia)) as Hn1.
  pose proof (Z.mod_pos_bound (Z.pos pq) N ltac:(lia)) as Hn2.
  pose proof (Z.div_mod (Z.pos pq) N ltac:(lia)) as Hn3.
  set (qn := Z.pos pq / N) in *.
  (* everything in units of scale *)
  assert (Hup : t * tr * N <= Z.pos pq + N).
  { assert ((t * tr) * N <= (qn + 1) * N) by (apply Z.mul_le_mono_nonneg_r; lia).
    lia. }
  assert (Hdown : Z.pos pq < (t * tr + t) * N).
  { assert ((qn + 1) * N <= (t * tr + t) * N) by (apply Z.mul_le_mono_nonneg_r; lia).
    lia. }
  replace (t * tr * N) with (2 * (tr * scale)) in Hup
    by (replace (t * tr * N) with (tr * (t * N)) by ring; rewrite HtN; ring).
  replace ((t * tr + t) * N) with (2 * (tr * scale) + 2 * scale) in Hdown
    by (replace ((t * tr + t) * N) with ((t * N) * tr + t * N) by ring; rewrite HtN; ring).
  set (c := tr * scale) in *.
  assert (Hc1 : 11 * c <= 10 * a + 11 * 4).
  { lia. }
  assert (Hc2 : 10 * a < 11 * c + 12 * scale).
  { lia. }
  rewrite Hm in Hc1, Hc2. subst c.
  split.
  - destruct (Z.le_gt_cases (11 * tr) (10 * y)) as [|Hgt]; [assumption|].
    assert (10 * y + 1 <= 11 * tr) by lia.
    assert ((10 * y + 1) * scale <= (11 * tr) * scale) by (apply Z.mul_le_mono_nonneg_r; lia).
    lia.
  - destruct (Z.lt_ge_cases (10 * y) (11 * tr + 12)) as [|Hge]; [assumption|].
    assert ((11 * tr + 12) * scale <= (10 * y) * scale) by (apply Z.mul_le_mono_nonneg_r; lia).
    lia.
Qed.

End Truncation.


(* ================================================================== *)
(** * Zooming in and out, in doubles *)

Section ZoomSteps.

Local Open Scope Z_scope.

(** One wheel step in, on a canvas [y] wide. *)
Lemma zoom_in_step (deltaY : double) (y : Z) :
  (deltaY <? of_Z 0)%js = true -> 0 <= y -> 11 * y / 10 <= 2147483647 ->
  zoom deltaY (of_Z y) = of_Z (11 * y / 10).
Proof.
  intros Hd Hy Hmax.
  assert (Hstep : zoom deltaY (of_Z y)
                  = Double.of_Z
                      (let n := Double.truncate
                                  (PrimFloat.mul (Double.of_Z y) (zoomFactor (num := double)))
                                mod 2 ^ 32 in
                       if n <=? 2147483647 then n else 300)).
  { unfold zoom. rewrite Hd. reflexivity. }
  rewrite Hstep. clear Hstep.
  destruct (Z.eq_dec y 0) as [-> | Hne]; [vm_compute; reflexivity|].
  pose proof (Z.mul_div_le (11 * y) 10 ltac:(lia)).
  pose proof (Z.mod_pos_bound (11 * y) 10 ltac:(lia)).
  pose proof (Z.div_mod (11 * y) 10 ltac:(lia)).
  rewrite truncate_mul by (change (2 ^ 31) with 2147483648; lia).
  cbv zeta. rewrite Z.mod_small by (change (2 ^ 32) with 4294967296; lia).
  destruct (Z.leb_spec (11 * y / 10) 2147483647); [reflexivity | lia].
Qed.

(** One wheel step out, on a canvas [y] wide. *)
Lemma zoom_out_step (deltaY : double) (y : Z) :
  (deltaY <? of_Z 0)%js = false -> 0 <= y <= 2147483647 ->
  exists y', zoom deltaY (of_Z y) = of_Z y' /\ 0 <= y' /\ 11 * y' <= 10 * y < 11 * y' + 12.
Proof.
  intros Hd Hy.
  assert (Hstep : zoom deltaY (of_Z y)
                  = Double.of_Z
                      (let n := Double.truncate
                                  (PrimFloat.div (Double.of_Z y) (zoomFactor (num := double)))
                                mod 2 ^ 32 in
                       if n <=? 2147483647 then n else 300)).
  { unfold zoom. rewrite Hd. reflexivity. }
  rewrite Hstep. clear Hstep.
  destruct (Z.eq_dec y 0) as [-> | Hne].
  { exists 0. split; [vm_compute; reflexivity | lia]. }
  pose proof (truncate_div y ltac:(change (2 ^ 31) with 2147483648; lia)) as Htr.
  cbv zeta in Htr.
  set (tr := Double.truncate (PrimFloat.div (Double.of_Z y) (zoomFactor (num := double)))) in *.
  exists tr. cbv zeta.
  rewrite Z.mod_small by (change (2 ^ 32) with 4294967296; lia).
  destruct (Z.leb_spec tr 2147483647); [|lia].
  split; [reflexivity | lia].
Qed.

(** C6, as the script has it on a canvas of the document.  The width of
    [stockCanvas] is an integer: what [width *= 1.1] and [width /= 1.1]
    compute is cut to its integer part when it is stored.  From a width
    [w], [n] wheel steps with [deltaY < 0] followed by [n] wheel steps
    with any other [deltaY] (the [else] branch: [deltaY > 0], [0] or
    [NaN]) give an integer width that is at most [w] and at least
    [w - n]: the way back loses less than one pixel a step, and it does
    lose pixels (800 comes back as 799).  The widths on the way have to
    fit the attribute: [w * 1.1^n <= 2147483647]. *)
Theorem zoom_in_then_out_loses_under_a_pixel_a_step
    (deltaIn deltaOut : double) (n : nat) (w : Z) :
  (deltaIn <? of_Z 0)%js = true ->
  (deltaOut <? of_Z 0)%js = false ->
  0 <= w ->
  w * 11 ^ Z.of_nat n <= 2147483647 * 10 ^ Z.of_nat n ->
  exists w',
    zoomSteps deltaOut n (zoomSteps deltaIn n (of_Z w)) = of_Z w'
    /\ 0 <= w' /\ w - Z.of_nat n <= w' <= w.
Proof.
  intros Hin Hout. revert w. induction n as [|n IH]; intros w Hw Hmax.
  - exists w. split; [reflexivity | cbn; lia].
  - rewrite Nat2Z.inj_succ, !Z.pow_succ_r in Hmax by lia.
    set (A := 11 ^ Z.of_nat n) in *. set (B := 10 ^ Z.of_nat n) in *.
    assert (HB : 0 < B) by (apply Z.pow_pos_nonneg; lia).
    assert (HAB : B <= A) by (apply Z.pow_le_mono_l; lia).
    set (w1 := 11 * w / 10).
    pose proof (Z.mul_div_le (11 * w) 10 ltac:(lia)) as Hw1.
    pose proof (Z.mod_pos_bound (11 * w) 10 ltac:(lia)) as Hw2.
    pose proof (Z.div_mod (11 * w) 10 ltac:(lia)) as Hw3.
    fold w1 in Hw1, Hw3.
    assert (Hmax1 : w1 * A <= 2147483647 * B).
    { assert ((10 * w1) * A <= (11 * w) * A) by (apply Z.mul_le_mono_nonneg_r; lia).
      lia. }
    assert (Hw1max : w1 <= 2147483647).
    { destruct (Z.le_gt_cases w1 2147483647) as [|Hgt]; [assumption|].
      assert (w1 * B <= w1 * A) by (apply Z.mul_le_mono_nonneg_l; lia).
      assert ((2147483647 + 1) * B <= w1 * B) by (apply Z.mul_le_mono_nonneg_r; lia).
      lia. }
    destruct (IH w1 ltac:(lia) Hmax1) as (v & Hv & Hv0 & Hvw).
    destruct (zoom_out_step deltaOut v Hout ltac:(lia)) as (y' & Hy' & Hy0 & Hyv).
    exists y'. split; [|lia].
    unfold zoomSteps in *. rewrite Nat.iter_succ_r with (f := zoom deltaIn).
    rewrite (zoom_in_step deltaIn w Hin Hw Hw1max). fold w1.
    cbn [Nat.iter]. 
    change (zoom deltaOut (Nat.iter n (zoom deltaOut) (Nat.iter n (zoom deltaIn) (of_Z w1))) = of_Z y').
    rewrite Hv. exact Hy'.
Qed.

(** Three steps in and three steps out from a canvas 300 wide: 330, 363,
    399, then 362, 329 and 299. *)
Lemma three_steps_in_and_out_from_300 :
  zoomSteps (of_Z (-1)) 3 (of_Z 300) = 399%float
  /\ zoomSteps (of_Z 1) 3 399%float = 299%float
  /\ exists w',
       zoomSteps (of_Z 1) 3 (zoomSteps (of_Z (-1)) 3 (of_Z 300)) = (of_Z w' : double)
       /\ 0 <= w' /\ 300 - Z.of_nat 3 <= w' <= 300.
Proof.
  split; [vm_compute; reflexivity|]. split; [vm_compute; reflexivity|].
  apply (zoom_in_then_out_loses_under_a_pixel_a_step (of_Z (-1)) (of_Z 1) 3 300);
    [reflexivity | reflexivity | lia | vm_compute; discriminate].
Defined.

End ZoomSteps.

(* ================================================================== *)
(** * Where rounding and the sign of the scale show *)

(** C2, as stated, fails in doubles. Three days on a canvas 800 pixels
    wide: the x scale is [680 / 3 = 226.66666666666666]; index 1 is drawn
    at [60 + 226.66666666666666 = 286.66666666666663] (rounded down); the
    way back, [(286.66666666666663 - 60) / 226.66666666666666], is
    [0.9999999999999999], whose floor is 0. A pointer at the pixel of
    day 2 shows the values of day 1. *)
Lemma index_round_trip_fails_in_doubles :
  let s := chart3 in
  let xs := xScale s in
  let x := indexToX (padding s) xs 1 in
  List.length (fullData s) = 3%nat
  /\ isFinite xs = true
  /\ (of_Z 0 <? xs)%js = true
  /\ xs = 226.66666666666666%float
  /\ x = 286.66666666666663%float
  /\ ((x - padding s) / xs)%js = 0.99999999999999989%float
  /\ xToIndex (padding s) xs x = 0%float
  /\ (xToIndex (padding s) xs x =? of_nat 1)%js = false
  /\ mousemove xs (contentHeight s) s x 100%float
     = Normal [clearRect 0%float 0%float 800%float 600%float;
               strokeStyle "rgba(0, 0, 0, 0.5)";
               beginPath; moveTo x 60%float; lineTo x 540%float; stroke;
               beginPath; moveTo 60%float 100%float; lineTo 740%float 100%float;
               stroke;
               fillStyle "black";
               fillText (OHLC 1%float 2%float 0.5%float 10%float)
                        296.66666666666663%float 90%float].
Proof. vm_compute. repeat split. Qed.

(** C7, as stated, fails. In doubles, for two days closing at 10 and
    17.25 on a canvas 600 pixels high: the content height is 480, the y
    scale [480 / 7.25 = 66.206896551724142], and [7.25 *
    66.206896551724142] rounds to [480.00000000000006], so that the
    highest price is drawn at [540 - 480.00000000000006 =
    59.999999999999943], above the padding line at 60. And in exact
    arithmetic, on a canvas 100 pixels high, where the content height is
    [100 - 120 < 0]: the highest price is drawn at 60, below the lowest
    price at 40. *)
Lemma price_axis_bound_fails :
  let Yd := priceToY (padding chart2) (contentHeight chart2)
                     (minPrice chart2) (yScale chart2) in
  let Yi := priceToY (padding chartLow) (contentHeight chartLow)
                     (minPrice chartLow) (yScale chartLow) in
  ((minPrice chart2 <? maxPrice chart2)%js = true
   /\ contentHeight chart2 = 480%float
   /\ Yd (maxPrice chart2) = 59.999999999999943%float
   /\ (padding chart2 <=? Yd (maxPrice chart2))%js = false)
  /\ ((minPrice chartLow <? maxPrice chartLow)%js = true
      /\ (Yi (maxPrice chartLow) <? Yi (minPrice chartLow))%js = false).
Proof. vm_compute. repeat split. Qed.


(** C6, on the code. From a canvas 800 pixels wide, one wheel step in
    gives [800 * 1.1 = 880.0000000000001], of which the canvas keeps 880,
    and one step out gives [880 / 1.1 = 799.9999999999999], of which the
    canvas keeps 799. *)
Lemma zoom_in_and_out_from_800 :
  ((of_Z 800 * zoomFactor)%js = 880.00000000000011%float
   /\ zoom (of_Z (-1)) (of_Z 800) = 880%float
   /\ (880%float / zoomFactor)%js = 799.99999999999989%float
   /\ zoom (of_Z 1) 880%float = 799%float
   /\ zoomSteps (of_Z 1) 1 (zoomSteps (of_Z (-1)) 1 (of_Z 800)) = 799%float)
  /\ exists s,
       wheels 26 [of_Z (-1); of_Z 1] chart25 = Some s
       /\ width (stockCanvas chart25) = 800%float
       /\ width (stockCanvas s) = 799%float.
Proof.
  split; [vm_compute; repeat split|].
  destruct (wheels 26 [of_Z (-1); of_Z 1] chart25) as [s|] eqn:Hs;
    [|vm_compute in Hs; discriminate].
  exists s. split; [reflexivity|].
  vm_compute in Hs. injection Hs as <-.
  vm_compute. repeat split.
Qed.

(* ================================================================== *)
(** * More on parsing *)

Section Splitting.

Lemma split_length (sep : ascii) (s : string) :
  List.length (split sep s) = S (occurrences sep s).
Proof.
  induction s as [|c s IH]; simpl; [reflexivity|].
  destruct (Ascii.eqb c sep); simpl; [now rewrite IH|].
  destruct (split sep s) as [|h t] eqn:E; simpl in *; lia.
Qed.

Lemma join_split (sep : ascii) (s : string) : join sep (split sep s) = s.
Proof.
  unfold join. induction s as [|c s IH]; simpl; [reflexivity|].
  destruct (Ascii.eqb_spec c sep) as [-> | Hc].
  - destruct (split sep s) as [|h t] eqn:E.
    + now destruct (split_not_nil sep s).
    + simpl in *. now rewrite IH.
  - destruct (split sep s) as [|h t] eqn:E.
    + now destruct (split_not_nil sep s).
    + destruct t; simpl in *; now rewrite <- IH.
Qed.

Lemma split_fields_free (sep : ascii) (s : string) :
  Forall (fun field => occurrences sep field = 0%nat) (split sep s).
Proof.
  induction s as [|c s IH]; simpl; [repeat constructor|].
  destruct (Ascii.eqb c sep) eqn:Hc; [constructor; [reflexivity | exact IH]|].
  destruct (split sep s) as [|h t]; [repeat constructor; simpl; now rewrite Hc|].
  inversion IH as [|? ? Hh Ht]; subst.
  constructor; [simpl; now rewrite Hc, Hh | exact Ht].
Qed.

End Splitting.

Section Trimming.

Lemma list_ascii_of_append (a b : string) :
  list_ascii_of_string (a ++ b) = list_ascii_of_string a ++ list_ascii_of_string b.
Proof. induction a as [|c a IH]; simpl; [reflexivity | now rewrite IH]. Qed.

Lemma string_of_list_ascii_app (a b : list ascii) :
  string_of_list_ascii (a ++ b)
  = (string_of_list_ascii a ++ string_of_list_ascii b)%string.
Proof. induction a as [|c a IH]; simpl; [reflexivity | now rewrite IH]. Qed.

Lemma reverse_append (a b : string) :
  reverse (a ++ b) = (reverse b ++ reverse a)%string.
Proof.
  unfold reverse.
  now rewrite list_ascii_of_append, rev_app_distr, string_of_list_ascii_app.
Qed.

Lemma allWhiteSpace_forallb (s : string) :
  allWhiteSpace s = forallb isWhiteSpace (list_ascii_of_string s).
Proof. induction s as [|c s IH]; simpl; [reflexivity | now rewrite IH]. Qed.

Lemma allWhiteSpace_reverse (ws : string) :
  allWhiteSpace ws = true -> allWhiteSpace (reverse ws) = true.
Proof.
  rewrite !allWhiteSpace_forallb. unfold reverse.
  rewrite list_ascii_of_string_of_list_ascii, !forallb_forall.
  intros Hws c Hc. apply Hws. now apply in_rev.
Qed.

Lemma trimStart_whitespace_prefix (ws s : string) :
  allWhiteSpace ws = true -> trimStart (ws ++ s) = trimStart s.
Proof.
  induction ws as [|c ws IH]; simpl; [reflexivity|].
  intros Hws. apply andb_true_iff in Hws as [Hc Hws]. now rewrite Hc, IH.
Qed.

Lemma trimStart_allWhiteSpace (ws : string) :
  allWhiteSpace ws = true -> trimStart ws = "".
Proof.
  induction ws as [|c ws IH]; simpl; [reflexivity|].
  intros Hws. apply andb_true_iff in Hws as [Hc Hws]. now rewrite Hc, IH.
Qed.

Lemma trimStart_whitespace_suffix (s ws : string) :
  allWhiteSpace ws = true ->
  trimStart (s ++ ws) = (trimStart s ++ ws)%string
  \/ (trimStart (s ++ ws) = "" /\ trimStart s = "").
Proof.
  intros Hws. induction s as [|c s IH]; simpl.
  - right. split; [now apply trimStart_allWhiteSpace | reflexivity].
  - destruct (isWhiteSpace c); [exact IH | now left].
Qed.

Lemma trim_whitespace_prefix (ws s : string) :
  allWhiteSpace ws = true -> trim (ws ++ s) = trim s.
Proof. intros Hws. unfold trim. now rewrite trimStart_whitespace_prefix. Qed.

Lemma trim_whitespace_suffix (s ws : string) :
  allWhiteSpace ws = true -> trim (s ++ ws) = trim s.
Proof.
  intros Hws. unfold trim.
  destruct (trimStart_whitespace_suffix s ws Hws) as [Hkeep | [Hnil Hnil']].
  - rewrite Hkeep, reverse_append, trimStart_whitespace_prefix; [reflexivity|].
    now apply allWhiteSpace_reverse.
  - now rewrite Hnil, Hnil'.
Qed.

End Trimming.

Section Records.

Context {num : Type} `{JSNumber num}.

(** X1. [processCSVData] adds one record for every line break of the
    trimmed text, whatever the lines hold: blank and malformed lines count,
    and a text that is a header line alone, or empty, adds nothing. *)
Theorem one_record_per_line_break (csvData : string) (s : StockChart num) :
  let s' := processCSVData csvData s in
  List.length (fullData s')
  = (List.length (fullData s) + occurrences "010" (trim csvData))%nat
  /\ List.length (closingPrices s')
     = (List.length (closingPrices s) + occurrences "010" (trim csvData))%nat
  /\ (occurrences "010" (trim csvData) = 0%nat ->
      fullData s' = fullData s /\ closingPrices s' = closingPrices s).
Proof.
  cbv zeta.
  rewrite processCSVData_fullData, processCSVData_closingPrices.
  rewrite !length_app, !length_map.
  assert (Hlines : List.length (dataLines csvData)
                   = occurrences "010" (trim csvData)).
  { unfold dataLines.
    pose proof (split_length "010" (trim csvData)) as Hl.
    destruct (split "010" (trim csvData)); simpl in *; lia. }
  rewrite Hlines. split; [reflexivity|]. split; [reflexivity|].
  intros Hnone. rewrite Hnone in Hlines.
  destruct (dataLines csvData); [|discriminate].
  simpl. now rewrite !app_nil_r.
Qed.

(** X2. Splitting loses nothing and leaves no separator behind: the
    fields of a line, joined by commas, are the line again, and none of
    them holds a comma; in particular the date of a record is the text of
    its line up to the first comma. *)
Theorem fields_partition_the_line (line : string) :
  join "," (split "," line) = line
  /\ Forall (fun field => occurrences "," field = 0%nat) (split "," line)
  /\ occurrences "," (date (parseLine line)) = 0%nat
  /\ (line = date (parseLine line)
      \/ exists rest, line = (date (parseLine line) ++ "," ++ rest)%string).
Proof.
  pose proof (join_split "," line) as Hjoin.
  pose proof (split_fields_free "," line) as Hfree.
  split; [exact Hjoin|]. split; [exact Hfree|].
  unfold parseLine; simpl. unfold join in Hjoin.
  destruct (split "," line) as [|d [|f fields]] eqn:E.
  - now destruct (split_not_nil "," line).
  - simpl in *. inversion Hfree as [|? ? Hd _]. auto.
  - inversion Hfree as [|? ? Hd _]. split; [exact Hd|].
    right. exists (String.concat "," (f :: fields)).
    symmetry. exact Hjoin.
Qed.

(** X3. White space around the text does not count: blank lines and
    spaces before the header or after the last line give the same chart as
    the text without them. *)
Theorem surrounding_white_space_is_ignored
        (before csvData after : string) (s : StockChart num) :
  allWhiteSpace before = true ->
  allWhiteSpace after = true ->
  processCSVData (before ++ csvData ++ after) s = processCSVData csvData s.
Proof.
  intros Hb Ha. unfold processCSVData, dataLines.
  now rewrite trim_whitespace_prefix, trim_whitespace_suffix.
Qed.

End Records.

(** The 25 days with a blank line before and two line ends after give the
    chart of the 25 days. *)
Lemma csv25_with_blank_lines :
  processCSVData (newline ++ csv25 ++ (newline ++ newline)) fresh
  = processCSVData csv25 fresh.
Proof.
  apply (surrounding_white_space_is_ignored newline csv25 (newline ++ newline) fresh);
    vm_compute; reflexivity.
Defined.

(* ================================================================== *)
(** * More on the moving average *)

Section AverageAgain.

Context {num : Type} `{JSNumber num}.
Local Open Scope js_scope.

Lemma averageStep_frame (s : StockChart num) (i : nat) :
  sameButAverage s (averageStep s i).
Proof.
  unfold averageStep, sameButAverage.
  destruct (period - 1 <=? i)%nat; [|tauto].
  destruct (nth_error (closingPrices s) i); simpl; tauto.
Qed.

Lemma averageSteps_frame (indices : list nat) (s : StockChart num) :
  sameButAverage s (fold_left averageStep indices s).
Proof.
  revert s; induction indices as [|i indices IH]; intros s; simpl.
  - unfold sameButAverage; tauto.
  - specialize (IH (averageStep s i)).
    pose proof (averageStep_frame s i) as Hs.
    unfold sameButAverage in *. intuition congruence.
Qed.

Lemma calculateMovingAverage_windowMeans (s : StockChart num) :
  movingAverage (calculateMovingAverage s)
  = movingAverage s ++ windowMeans (closingPrices s).
Proof. apply calculateMovingAverage_points. Qed.

(** X4. [calculateMovingAverage] never clears [movingAverage]: it adds
    the window means of the closing prices after the points that are
    there and changes nothing else of the chart; called a second time, it
    adds the same points once more. *)
Theorem moving_average_is_appended (s : StockChart num) :
  let once := calculateMovingAverage s in
  let twice := calculateMovingAverage once in
  sameButAverage s once
  /\ movingAverage once = movingAverage s ++ windowMeans (closingPrices s)
  /\ movingAverage twice
     = movingAverage s ++ windowMeans (closingPrices s)
                       ++ windowMeans (closingPrices s).
Proof.
  cbv zeta.
  pose proof (averageSteps_frame (seq 0 (List.length (closingPrices s))) s) as Hframe.
  fold (calculateMovingAverage s) in Hframe.
  split; [exact Hframe|]. split; [apply calculateMovingAverage_windowMeans|].
  rewrite (calculateMovingAverage_windowMeans (calculateMovingAverage s)).
  rewrite calculateMovingAverage_windowMeans, <- app_assoc.
  destruct Hframe as (_ & _ & _ & _ & Hc & _). now rewrite Hc.
Qed.

Lemma processCSVData_frame (csvData : string) (s : StockChart num) :
  stockCanvas (processCSVData csvData s) = stockCanvas s
  /\ overlayCanvas (processCSVData csvData s) = overlayCanvas s
  /\ padding (processCSVData csvData s) = padding s
  /\ movingAverage (processCSVData csvData s) = movingAverage s
  /\ crosshairs (processCSVData csvData s) = crosshairs s.
Proof.
  unfold processCSVData. generalize (dataLines csvData) as lines.
  intros lines; revert s; induction lines as [|l lines IH]; intros s; simpl.
  - tauto.
  - specialize (IH (pushLine s l)). simpl in IH. exact IH.
Qed.

Lemma load_aligned (csvData : string) (s : StockChart num) :
  aligned s -> aligned (load csvData s).
Proof.
  unfold aligned, load. intros Hs.
  destruct (averageSteps_frame
              (seq 0 (List.length (closingPrices (processCSVData csvData s))))
              (processCSVData csvData s)) as (_ & _ & _ & Hf & Hc & _).
  fold (calculateMovingAverage (processCSVData csvData s)) in Hf, Hc.
  rewrite Hf, Hc, processCSVData_fullData, processCSVData_closingPrices, Hs.
  now rewrite map_app.
Qed.

(** X5. Loading a second text into a loaded chart keeps what the first
    load left: the records of the second text come after those of the
    first, in [fullData] and in [closingPrices] alike, which stay aligned;
    and the second load adds, after the averages of the first, the window
    means of all the closing prices together. *)
Theorem second_load_accumulates (first second : string) (s : StockChart num) :
  aligned s ->
  let s1 := load first s in
  let s2 := load second s1 in
  fullData s2
  = fullData s ++ map parseLine (dataLines first) ++ map parseLine (dataLines second)
  /\ aligned s2
  /\ movingAverage s2
     = movingAverage s1 ++ windowMeans (closingPrices s2).
Proof.
  intros Hs s1 s2.
  assert (Hfull : forall csvData t,
             fullData (load csvData t) = fullData t ++ map parseLine (dataLines csvData)
             /\ closingPrices (load csvData t)
                = closingPrices (processCSVData csvData t)
             /\ movingAverage (load csvData t)
                = movingAverage t ++ windowMeans (closingPrices (load csvData t))).
  { intros csvData t. unfold load.
    destruct (averageSteps_frame
                (seq 0 (List.length (closingPrices (processCSVData csvData t))))
                (processCSVData csvData t)) as (_ & _ & _ & Hf & Hc & _).
    fold (calculateMovingAverage (processCSVData csvData t)) in Hf, Hc.
    rewrite Hf, Hc, processCSVData_fullData, calculateMovingAverage_windowMeans.
    destruct (processCSVData_frame csvData t) as (_ & _ & _ & Hm & _).
    now rewrite Hm. }
  subst s1 s2.
  destruct (Hfull second (load first s)) as (Hf2 & _ & Hm2).
  destruct (Hfull first s) as (Hf1 & _ & _).
  split; [now rewrite Hf2, Hf1, <- app_assoc|].
  split; [now apply load_aligned, load_aligned|].
  exact Hm2.
Qed.

End AverageAgain.

(** Loading the three days and then the two days gives five records. *)
Lemma three_days_then_two :
  map date (fullData (load csv2 (load csv3 fresh))) = ["d1"; "d2"; "d3"; "d1"; "d2"].
Proof.
  destruct (second_load_accumulates csv3 csv2 fresh) as (Hrecords & _).
  - vm_compute. reflexivity.
  - rewrite Hrecords. vm_compute. reflexivity.
Defined.

(* ================================================================== *)
(** * [NaN] in the data, in doubles *)

Section NaNInData.

Local Open Scope js_scope.

Lemma slice_nth_error {A} (l : list A) (i n k : nat) :
  (k < n)%nat -> nth_error (slice i (i + n) l) k = nth_error l (i + k).
Proof.
  intros Hk. unfold slice.
  replace (i + n - i)%nat with n by lia.
  rewrite nth_error_firstn.
  destruct (Nat.ltb_spec k n); [|lia].
  apply nth_error_skipn.
Qed.

Lemma SFeqb_refl (x : spec_float) : x <> S754_nan -> SFeqb x x = true.
Proof.
  destruct x as [s|s| |s m e]; intros Hx; try reflexivity.
  - now destruct s.
  - congruence.
  - unfold SFeqb. cbn [SFcompare].
    change (Pos.compare_cont Eq m m) with (Pos.compare m m).
    rewrite Z.compare_refl, Pos.compare_refl. now destruct s.
Qed.

Lemma isNaN_Prim2SF (x : double) : isNaN x = true <-> Prim2SF x = S754_nan.
Proof.
  cbn [isNaN double_number]. unfold is_nan. rewrite eqb_spec. split.
  - intros Hx. destruct (Prim2SF x) eqn:E; try reflexivity;
      rewrite SFeqb_refl in Hx by discriminate; discriminate.
  - intros ->. reflexivity.
Qed.

Lemma add_NaN (a b : double) :
  isNaN a = true \/ isNaN b = true -> isNaN (a + b) = true.
Proof.
  rewrite !isNaN_Prim2SF. cbn [num_add double_number]. rewrite add_spec.
  intros [-> | ->]; [reflexivity|]. now destruct (Prim2SF a).
Qed.

Lemma sub_NaN (a b : double) :
  isNaN a = true \/ isNaN b = true -> isNaN (a - b) = true.
Proof.
  rewrite !isNaN_Prim2SF. cbn [num_sub double_number]. rewrite sub_spec.
  intros [-> | ->]; [reflexivity|]. now destruct (Prim2SF a).
Qed.

Lemma mul_NaN (a b : double) :
  isNaN a = true \/ isNaN b = true -> isNaN (a * b) = true.
Proof.
  rewrite !isNaN_Prim2SF. cbn [num_mul double_number]. rewrite mul_spec.
  intros [-> | ->]; [reflexivity|]. now destruct (Prim2SF a).
Qed.

Lemma div_NaN (a b : double) :
  isNaN a = true \/ isNaN b = true -> isNaN (a / b) = true.
Proof.
  rewrite !isNaN_Prim2SF. cbn [num_div double_number]. rewrite div_spec.
  intros [-> | ->]; [reflexivity|]. now destruct (Prim2SF a).
Qed.

Lemma sum_from_NaN (l : list double) (acc : double) :
  isNaN acc = true -> isNaN (fold_left num_add l acc) = true.
Proof.
  revert acc; induction l as [|x l IH]; intros acc Hacc; simpl; [exact Hacc|].
  apply IH, add_NaN. now left.
Qed.

Lemma sum_with_NaN (l : list double) (acc x : double) :
  In x l -> isNaN x = true -> isNaN (fold_left num_add l acc) = true.
Proof.
  revert acc; induction l as [|y l IH]; intros acc Hin Hx; [contradiction|].
  simpl. destruct Hin as [-> | Hin].
  - apply sum_from_NaN, add_NaN. now right.
  - now apply IH.
Qed.

(** X6. A closing price that is [undefined] or [NaN] spoils every average
    whose window holds it: with such a price at index [k], the points [i]
    with [i <= k <= i + 19] all have the average [NaN]. *)
Theorem NaN_close_spoils_its_windows
        (s : StockChart double) (i k : nat) (c : ClosingPrice double) :
  movingAverage s = [] ->
  nth_error (closingPrices s) k = Some c ->
  isNaN (closeValue c) = true ->
  (i <= k <= i + 19)%nat ->
  (i + 19 < List.length (closingPrices s))%nat ->
  exists point,
    nth_error (movingAverage (calculateMovingAverage s)) i = Some point
    /\ isNaN (avg point) = true.
Proof.
  intros Hempty Hc Hnan Hk Hi.
  destruct (calculateMovingAverage_points s) as [_ Hm].
  rewrite Hempty in Hm; simpl in Hm. rewrite Hm.
  rewrite nth_error_map, nth_error_seq.
  unfold period. cbn [Nat.add Nat.sub].
  destruct (Nat.ltb_spec i (List.length (closingPrices s) - 19)); [|lia].
  cbn [option_map]. eexists. split; [reflexivity|]. cbn [avg].
  unfold mean. apply div_NaN; left.
  apply sum_with_NaN with (x := closeValue c); [|exact Hnan].
  apply in_map. apply nth_error_In with (n := (k - i)%nat).
  rewrite (slice_nth_error _ i 20) by lia.
  now replace (i + (k - i))%nat with k by lia.
Qed.

(** The price range when a close is [NaN]. *)
Lemma range_with_NaN (l : list double) :
  existsb isNaN l = true -> Math_max l = NaN /\ Math_min l = NaN.
Proof. intros HN. unfold Math_max, Math_min. now rewrite HN. Qed.

(** X7. A single record whose close is [undefined] or [NaN] takes the
    price axis with it: [maxPrice], [minPrice] and the y scale are [NaN],
    all six price labels show [NaN], and so is the y coordinate of every
    price, the valid ones included. *)
Theorem NaN_close_spoils_the_price_axis
        (s : StockChart double) (r : QuoteRecord double) :
  In r (fullData s) ->
  isNaN (ToNumber (close r)) = true ->
  isNaN (maxPrice s) = true
  /\ isNaN (minPrice s) = true
  /\ isNaN (yScale s) = true
  /\ (forall p,
        isNaN (priceToY (padding s) (contentHeight s) (minPrice s) (yScale s) p)
        = true)
  /\ Forall (fun call => exists price x y,
                 call = fillText (Price price) x y /\ isNaN price = true)
            (priceLabels (contentHeight s) (maxPrice s) (minPrice s) s).
Proof.
  intros Hr Hnan.
  assert (HN : existsb isNaN (closes s) = true).
  { apply existsb_exists. exists (ToNumber (close r)). split; [|exact Hnan].
    unfold closes. now apply (in_map (fun p => ToNumber (close p))). }
  destruct (range_with_NaN _ HN) as [Hmax Hmin].
  unfold yScale, maxPrice, minPrice, priceToY. rewrite Hmax, Hmin.
  assert (Hys : isNaN (contentHeight s / (NaN - NaN) : double) = true).
  { apply div_NaN; right. reflexivity. }
  repeat split; try reflexivity; try exact Hys.
  - intros p. apply sub_NaN; right. apply mul_NaN; now right.
  - unfold priceLabels. apply Forall_forall. intros call Hcall.
    apply in_map_iff in Hcall as (i & <- & _).
    do 3 eexists. split; [reflexivity|]. apply sub_NaN; now left.
Qed.

End NaNInData.

(** With the line of day 22 cut short, the averages of days 22 to 25 are
    [NaN]; those of days 20 and 21 are not. *)
Lemma averages_after_a_short_line :
  exists point,
    nth_error (movingAverage (calculateMovingAverage chartGap)) 2 = Some point
    /\ isNaN (avg point) = true.
Proof.
  apply (NaN_close_spoils_its_windows
           chartGap 2 21 {| cp_date := "d22"; cp_close := None |}).
  - vm_compute. reflexivity.
  - vm_compute. reflexivity.
  - vm_compute. reflexivity.
  - lia.
  - vm_compute. lia.
Defined.

Lemma price_axis_after_a_short_line :
  isNaN (maxPrice chartGap) = true /\ isNaN (yScale chartGap) = true.
Proof.
  destruct (NaN_close_spoils_the_price_axis
              chartGap
              {| date := "d22"; open := Some 1%float; high := Some 2%float;
                 low := None; close := None |})
    as (Hmax & _ & Hscale & _).
  - apply nth_error_In with (n := 21%nat). vm_compute. reflexivity.
  - vm_compute. reflexivity.
  - split; assumption.
Defined.

(* ================================================================== *)
(** * The price range *)

(** [Math.max] and [Math.min] over numbers that are ordered as numbers
    are: the laws below hold of the doubles and of the exact numbers. *)
Section RangeFromOrder.

Context {num : Type} `{JSNumber num}.
Local Open Scope js_scope.

Hypothesis leb_refl : forall x, isNaN x = false -> (x <=? x) = true.
Hypothesis ltb_leb : forall a b, (a <? b) = true -> (a <=? b) = true.
Hypothesis not_ltb_leb :
  forall a b, isNaN a = false -> isNaN b = false -> (a <? b) = false -> (b <=? a) = true.
Hypothesis leb_trans :
  forall a b c, (a <=? b) = true -> (b <=? c) = true -> (a <=? c) = true.
Hypothesis negzero_leb :
  forall a b, isNegZero a = true -> (b =? of_Z 0) = true -> (a <=? b) = true.
Hypothesis infinities_not_NaN :
  isNaN (Infinity : num) = false /\ isNaN (num_neg Infinity : num) = false.
Hypothesis infinities_bound :
  forall x, isNaN x = false ->
            (num_neg Infinity <=? x) = true /\ (x <=? Infinity) = true.

Lemma maxStep_bounds (highest number : num) :
  isNaN highest = false -> isNaN number = false ->
  isNaN (maxStep highest number) = false
  /\ (highest <=? maxStep highest number) = true
  /\ (number <=? maxStep highest number) = true.
Proof.
  intros Hh Hn. unfold maxStep.
  destruct (isNegZero highest && (number =? of_Z 0) && negb (isNegZero number))
           eqn:Hzero; cbn [orb].
  - apply andb_true_iff in Hzero as [Hzero _].
    apply andb_true_iff in Hzero as [Hneg Heq]. auto.
  - destruct (highest <? number) eqn:Hlt; auto.
Qed.

Lemma minStep_bounds (lowest number : num) :
  isNaN lowest = false -> isNaN number = false ->
  isNaN (minStep lowest number) = false
  /\ (minStep lowest number <=? lowest) = true
  /\ (minStep lowest number <=? number) = true.
Proof.
  intros Hl Hn. unfold minStep.
  destruct (isNegZero number && (lowest =? of_Z 0) && negb (isNegZero lowest))
           eqn:Hzero; cbn [orb].
  - apply andb_true_iff in Hzero as [Hzero _].
    apply andb_true_iff in Hzero as [Hneg Heq]. auto.
  - destruct (number <? lowest) eqn:Hlt; auto.
Qed.

Lemma fold_maxStep (l : list num) (acc : num) :
  isNaN acc = false -> existsb isNaN l = false ->
  isNaN (fold_left maxStep l acc) = false
  /\ (acc <=? fold_left maxStep l acc) = true
  /\ (forall x, In x l -> (x <=? fold_left maxStep l acc) = true)
  /\ (fold_left maxStep l acc = acc \/ In (fold_left maxStep l acc) l).
Proof.
  revert acc; induction l as [|y l IH]; intros acc Hacc Hl; simpl.
  - repeat split; auto; contradiction.
  - simpl in Hl. apply orb_false_iff in Hl as [Hy Hl].
    destruct (maxStep_bounds acc y Hacc Hy) as (Hs & Ha & Hy').
    destruct (IH (maxStep acc y) Hs Hl) as (Hn & Hle & Hall & Hin).
    repeat split; eauto.
    + intros x [-> | Hx]; eauto.
    + destruct Hin as [Heq | Hin]; [|now right; right].
      rewrite Heq. unfold maxStep.
      destruct (_ || _); [right; now left | now left].
Qed.

Lemma fold_minStep (l : list num) (acc : num) :
  isNaN acc = false -> existsb isNaN l = false ->
  isNaN (fold_left minStep l acc) = false
  /\ (fold_left minStep l acc <=? acc) = true
  /\ (forall x, In x l -> (fold_left minStep l acc <=? x) = true)
  /\ (fold_left minStep l acc = acc \/ In (fold_left minStep l acc) l).
Proof.
  revert acc; induction l as [|y l IH]; intros acc Hacc Hl; simpl.
  - repeat split; auto; contradiction.
  - simpl in Hl. apply orb_false_iff in Hl as [Hy Hl].
    destruct (minStep_bounds acc y Hacc Hy) as (Hs & Ha & Hy').
    destruct (IH (minStep acc y) Hs Hl) as (Hn & Hle & Hall & Hin).
    repeat split; eauto.
    + intros x [-> | Hx]; eauto.
    + destruct Hin as [Heq | Hin]; [|now right; right].
      rewrite Heq. unfold minStep.
      destruct (_ || _); [right; now left | now left].
Qed.

Lemma range_bounds (l : list num) :
  existsb isNaN l = false ->
  (forall x, In x l -> (Math_min l <=? x) = true /\ (x <=? Math_max l) = true)
  /\ (Math_max l = num_neg Infinity \/ In (Math_max l) l)
  /\ (Math_min l = Infinity \/ In (Math_min l) l)
  /\ isNaN (Math_max l) = false
  /\ isNaN (Math_min l) = false.
Proof.
  intros Hl. unfold Math_max, Math_min. rewrite Hl.
  destruct infinities_not_NaN as [Hinf Hninf].
  destruct (fold_maxStep l (num_neg Infinity) Hninf Hl) as (Hn & _ & Hmax & Hin).
  destruct (fold_minStep l Infinity Hinf Hl) as (Hn' & _ & Hmin & Hin').
  repeat split; auto.
Qed.

End RangeFromOrder.

(** ** The order of the doubles *)

Section DoubleOrder.

Local Open Scope js_scope.

Lemma SFcompare_antisym (x y : spec_float) :
  SFcompare y x = option_map CompOpp (SFcompare x y).
Proof.
  destruct x as [sx|sx| |sx mx ex], y as [sy|sy| |sy my ey]; cbn [SFcompare option_map];
    try reflexivity;
    try (destruct sx; reflexivity); try (destruct sy; reflexivity);
    try (destruct sx, sy; reflexivity).
  change (Pos.compare_cont Eq my mx) with (Pos.compare my mx).
  change (Pos.compare_cont Eq mx my) with (Pos.compare mx my).
  rewrite (Z.compare_antisym ex ey), (Pos.compare_antisym mx my).
  destruct sx, sy; try reflexivity;
    destruct (ex ?= ey)%Z; cbn [CompOpp]; try reflexivity;
    destruct (mx ?= my)%positive; reflexivity.
Qed.

Lemma SFleb_trans (x y z : spec_float) :
  SFleb x y = true -> SFleb y z = true -> SFleb x z = true.
Proof.
  unfold SFleb.
  destruct x as [sx|sx| |sx mx ex], y as [sy|sy| |sy my ey], z as [sz|sz| |sz mz ez];
    cbn [SFcompare]; try discriminate; try reflexivity;
    try (destruct sx; try discriminate; try reflexivity;
         destruct sy; try discriminate; try reflexivity;
         destruct sz; try discriminate; reflexivity);
    try (destruct sy; try discriminate; try reflexivity;
         destruct sz; try discriminate; try reflexivity;
         destruct sx; try discriminate; reflexivity);
    try (destruct sx, sy; try discriminate; try reflexivity;
         destruct sz; try discriminate; reflexivity);
    try (destruct sx, sz; try discriminate; try reflexivity;
         destruct sy; try discriminate; reflexivity).
  all: change (Pos.compare_cont Eq mx my) with (Pos.compare mx my);
    change (Pos.compare_cont Eq my mz) with (Pos.compare my mz);
    change (Pos.compare_cont Eq mx mz) with (Pos.compare mx mz).
  all: destruct sx, sy, sz; try discriminate; try reflexivity;
    destruct (Z.compare_spec ex ey), (Z.compare_spec ey ez), (Z.compare_spec ex ez);
    try discriminate; try reflexivity; try lia;
    destruct (Pos.compare_spec mx my), (Pos.compare_spec my mz),
      (Pos.compare_spec mx mz);
    cbn [CompOpp]; try discriminate; try reflexivity; lia.
Qed.

Lemma double_leb_refl (x : double) : isNaN x = false -> (x <=? x) = true.
Proof.
  intros Hx. cbn [num_leb double_number]. rewrite leb_spec.
  assert (Hn : Prim2SF x <> S754_nan).
  { intros E. apply isNaN_Prim2SF in E. congruence. }
  pose proof (SFeqb_refl _ Hn) as He. unfold SFeqb, SFleb in *.
  destruct (SFcompare (Prim2SF x) (Prim2SF x)) as [[| |]|]; congruence.
Qed.

Lemma double_ltb_leb (a b : double) : (a <? b) = true -> (a <=? b) = true.
Proof.
  cbn [num_ltb num_leb double_number]. rewrite ltb_spec, leb_spec.
  unfold SFltb, SFleb. destruct (SFcompare _ _) as [[| |]|]; congruence.
Qed.

Lemma double_not_ltb_leb (a b : double) :
  isNaN a = false -> isNaN b = false -> (a <? b) = false -> (b <=? a) = true.
Proof.
  intros Ha Hb. cbn [num_ltb num_leb double_number]. rewrite ltb_spec, leb_spec.
  assert (Hna : Prim2SF a <> S754_nan).
  { intros E. apply isNaN_Prim2SF in E. congruence. }
  assert (Hnb : Prim2SF b <> S754_nan).
  { intros E. apply isNaN_Prim2SF in E. congruence. }
  unfold SFltb, SFleb. rewrite (SFcompare_antisym (Prim2SF a) (Prim2SF b)).
  destruct (SFcompare (Prim2SF a) (Prim2SF b)) as [[| |]|] eqn:E;
    cbn; try congruence.
  destruct (Prim2SF a), (Prim2SF b); cbn in E; congruence.
Qed.

Lemma double_leb_trans (a b c : double) :
  (a <=? b) = true -> (b <=? c) = true -> (a <=? c) = true.
Proof.
  cbn [num_leb double_number]. rewrite !leb_spec. apply SFleb_trans.
Qed.

Lemma double_negzero_leb (a b : double) :
  isNegZero a = true -> (b =? of_Z 0) = true -> (a <=? b) = true.
Proof.
  cbn [isNegZero num_eqb num_leb of_Z double_number]. unfold Double.isNegZero.
  rewrite eqb_spec, leb_spec.
  change (Prim2SF (Double.of_Z 0)) with (S754_zero false).
  destruct (Prim2SF a) as [[|]| | |]; try discriminate. intros _.
  destruct (Prim2SF b) as [sb|sb| |sb mb eb]; cbn; try discriminate; try reflexivity;
    destruct sb; discriminate.
Qed.

Lemma double_infinities_bound (x : double) :
  isNaN x = false ->
  (num_neg Infinity <=? x) = true /\ (x <=? Infinity) = true.
Proof.
  intros Hx.
  assert (Hn : Prim2SF x <> S754_nan).
  { intros E. apply isNaN_Prim2SF in E. congruence. }
  cbn [num_leb num_neg Infinity double_number]. rewrite !leb_spec.
  change (Prim2SF infinity) with (S754_infinity false).
  change (Prim2SF (- infinity)) with (S754_infinity true).
  destruct (Prim2SF x) as [s|[|]| |[|] m e]; try congruence; split; reflexivity.
Qed.

Lemma double_range_bounds (l : list double) :
  existsb isNaN l = false ->
  (forall x, In x l -> (Math_min l <=? x) = true /\ (x <=? Math_max l) = true)
  /\ (Math_max l = num_neg Infinity \/ In (Math_max l) l)
  /\ (Math_min l = Infinity \/ In (Math_min l) l)
  /\ isNaN (Math_max l) = false
  /\ isNaN (Math_min l) = false.
Proof.
  apply range_bounds;
    first [ exact double_leb_refl | exact double_ltb_leb | exact double_not_ltb_leb
          | exact double_leb_trans | exact double_negzero_leb
          | exact double_infinities_bound | split; reflexivity ].
Qed.

End DoubleOrder.

Section DoubleRange.

Local Open Scope js_scope.

Lemma leb_neg_infinity (x : double) :
  (x <=? num_neg Infinity) = true -> x = num_neg Infinity.
Proof.
  cbn [num_leb num_neg Infinity double_number]. rewrite leb_spec. intros Hx.
  apply Prim2SF_inj.
  change (Prim2SF (- infinity)) with (S754_infinity true) in *.
  destruct (Prim2SF x) as [s|[|]| |[|] m e]; try discriminate; reflexivity.
Qed.

Lemma infinity_leb (x : double) :
  (Infinity <=? x) = true -> x = Infinity.
Proof.
  cbn [num_leb Infinity double_number]. rewrite leb_spec. intros Hx.
  apply Prim2SF_inj.
  change (Prim2SF infinity) with (S754_infinity false) in *.
  destruct (Prim2SF x) as [s|[|]| |[|] m e]; try discriminate; reflexivity.
Qed.

(** X8. When no close is [undefined] or [NaN], [minPrice] and [maxPrice]
    bound the close of every record from below and from above, and for a
    series that is not empty each of them is the close of some record. *)
Theorem price_range_bounds_every_close (s : StockChart double) :
  existsb isNaN (closes s) = false ->
  (forall r, In r (fullData s) ->
             (minPrice s <=? ToNumber (close r)) = true
             /\ (ToNumber (close r) <=? maxPrice s) = true)
  /\ (fullData s <> [] ->
      In (maxPrice s) (closes s) /\ In (minPrice s) (closes s)).
Proof.
  intros Hl. unfold minPrice, maxPrice.
  destruct (double_range_bounds (closes s) Hl) as (Hall & Hmax & Hmin & _).
  split.
  - intros r Hr. apply Hall. unfold closes.
    now apply (in_map (fun p => ToNumber (close p))).
  - intros Hne.
    assert (Hfirst : exists x, In x (closes s)).
    { unfold closes. destruct (fullData s) as [|r rest]; [congruence|].
      eexists. left. reflexivity. }
    destruct Hfirst as [x Hx]. destruct (Hall x Hx) as [Hlo Hhi]. split.
    + destruct Hmax as [Heq | Hin]; [|exact Hin].
      rewrite Heq in Hhi |- *. apply leb_neg_infinity in Hhi. now rewrite <- Hhi.
    + destruct Hmin as [Heq | Hin]; [|exact Hin].
      rewrite Heq in Hlo |- *. apply infinity_leb in Hlo. now rewrite <- Hlo.
Qed.

End DoubleRange.

(** The 25 days: the close of day 7 lies between the two. *)
Lemma range_of_25_days :
  (minPrice chart25 <=? 7%float)%js = true
  /\ (7%float <=? maxPrice chart25)%js = true.
Proof.
  destruct (price_range_bounds_every_close chart25) as [Hall _].
  - vm_compute. reflexivity.
  - apply (Hall {| date := "d7"; open := Some 1%float; high := Some 2%float;
                   low := Some 0.5%float; close := Some 7%float |}).
    apply nth_error_In with (n := 6%nat). vm_compute. reflexivity.
Defined.

(* ================================================================== *)
(** * The drawing stays inside the content area, in exact arithmetic *)

(** Names the rational behind a number known to be finite. *)
Ltac as_rational H q := apply ideal_finite in H as [q H]; rewrite H in *.

Section ExactOrder.

Local Open Scope js_scope.

Lemma ideal_leb_refl (x : ideal) : isNaN x = false -> (x <=? x) = true.
Proof.
  destruct x as [q| | |]; try reflexivity; try discriminate.
  intros _. apply ideal_leb_le. lra.
Qed.

Lemma ideal_ltb_leb (a b : ideal) : (a <? b) = true -> (a <=? b) = true.
Proof.
  cbn [num_ltb num_leb ideal_number]. unfold Ideal.ltb, Ideal.leb.
  destruct (Ideal.compare a b) as [[| |]|]; congruence.
Qed.

Lemma ideal_not_ltb_leb (a b : ideal) :
  isNaN a = false -> isNaN b = false -> (a <? b) = false -> (b <=? a) = true.
Proof.
  destruct a as [p| | |], b as [q| | |]; try reflexivity; try discriminate.
  intros _ _ Hlt. apply ideal_leb_le.
  destruct (Qlt_le_dec p q) as [Hpq | Hqp]; [|exact Hqp].
  apply ideal_ltb_lt in Hpq. congruence.
Qed.

Lemma ideal_leb_trans (a b c : ideal) :
  (a <=? b) = true -> (b <=? c) = true -> (a <=? c) = true.
Proof.
  destruct a as [p| | |], b as [q| | |], c as [r| | |];
    try reflexivity; try discriminate.
  rewrite !ideal_leb_le. lra.
Qed.

Lemma ideal_range_bounds (l : list ideal) :
  existsb isNaN l = false ->
  (forall x, In x l -> (Math_min l <=? x) = true /\ (x <=? Math_max l) = true)
  /\ (Math_max l = num_neg Infinity \/ In (Math_max l) l)
  /\ (Math_min l = Infinity \/ In (Math_min l) l)
  /\ isNaN (Math_max l) = false
  /\ isNaN (Math_min l) = false.
Proof.
  apply range_bounds;
    first [ exact ideal_leb_refl | exact ideal_ltb_leb | exact ideal_not_ltb_leb
          | exact ideal_leb_trans | discriminate | split; reflexivity
          | intros [q| | |] Hx; try discriminate; split; reflexivity ].
Qed.

End ExactOrder.

Section ExactArea.

Local Open Scope js_scope.

Lemma finiteCloses_forallb (s : StockChart ideal) :
  forallb (fun r => isFinite (ToNumber (close r))) (fullData s) = true ->
  finiteCloses s.
Proof. intros Hall r Hr. now apply (proj1 (forallb_forall _ _) Hall). Qed.

Lemma finiteCloses_no_NaN (s : StockChart ideal) :
  finiteCloses s -> existsb isNaN (closes s) = false.
Proof.
  intros Hfin. destruct (existsb isNaN (closes s)) eqn:E; [|reflexivity].
  apply existsb_exists in E as (x & Hx & Hnan).
  unfold closes in Hx. apply in_map_iff in Hx as (r & <- & Hr).
  specialize (Hfin r Hr). destruct (ToNumber (close r)); discriminate.
Qed.

(** With finite closes that are not all equal, the price range is a
    proper interval of rationals that holds every close. *)
Lemma price_range_exact (s : StockChart ideal) :
  finiteCloses s ->
  (minPrice s <? maxPrice s) = true ->
  exists mn mx,
    minPrice s = IFin mn /\ maxPrice s = IFin mx /\ (mn < mx)%Q
    /\ forall r, In r (fullData s) ->
                 exists v, ToNumber (close r) = IFin v /\ (mn <= v <= mx)%Q.
Proof.
  intros Hfin Hlt.
  destruct (ideal_range_bounds (closes s) (finiteCloses_no_NaN s Hfin))
    as (Hall & Hmax & Hmin & _).
  fold (maxPrice s) in Hall, Hmax. fold (minPrice s) in Hall, Hmin.
  assert (Hmember : forall x, In x (closes s) -> exists q, x = IFin q).
  { intros x Hx. unfold closes in Hx. apply in_map_iff in Hx as (r & <- & Hr).
    now apply ideal_finite, Hfin. }
  assert (Hmx : exists mx, maxPrice s = IFin mx).
  { destruct Hmax as [Heq | Hin]; [|now apply Hmember].
    rewrite Heq in Hlt. destruct (minPrice s); discriminate. }
  assert (Hmn : exists mn, minPrice s = IFin mn).
  { destruct Hmin as [Heq | Hin]; [|now apply Hmember].
    rewrite Heq in Hlt. destruct (maxPrice s); discriminate. }
  destruct Hmx as [mx Hmx], Hmn as [mn Hmn]. exists mn, mx.
  rewrite Hmx, Hmn in *. apply ideal_ltb_lt in Hlt.
  repeat split; auto.
  intros r Hr.
  destruct (Hmember (ToNumber (close r))) as [v Hv].
  { unfold closes. now apply (in_map (fun p => ToNumber (close p))). }
  exists v. split; [exact Hv|].
  destruct (Hall (ToNumber (close r))) as [Hlo Hhi].
  { unfold closes. now apply (in_map (fun p => ToNumber (close p))). }
  rewrite Hv in Hlo, Hhi. apply ideal_leb_le in Hlo, Hhi. lra.
Qed.

(** The y coordinate of a price inside the range. *)
Lemma priceToY_exact (pd ch mn mx v : Q) :
  (0 < ch + - (2 * pd))%Q -> (mn < mx)%Q -> (mn <= v <= mx)%Q ->
  exists y,
    priceToY (IFin pd) (IFin ch - of_Z 2 * IFin pd) (IFin mn)
             ((IFin ch - of_Z 2 * IFin pd) / (IFin mx - IFin mn)) (IFin v)
    = IFin y
    /\ (pd <= y <= ch + - pd)%Q.
Proof.
  intros Hh Hlt Hv.
  cbn [num_add num_sub num_mul of_Z ideal_number
       Ideal.add Ideal.sub Ideal.mul Ideal.neg].
  change (inject_Z 2) with 2%Q.
  set (h := (ch + - (2 * pd))%Q) in *.
  set (d := (mx + - mn)%Q).
  assert (Hd : (0 < d)%Q) by (subst d; lra).
  rewrite ideal_div_pos by exact Hd.
  set (ys := (h / d)%Q).
  assert (Hys : (0 < ys)%Q) by (subst ys; apply Qlt_shift_div_l; lra).
  assert (Hfull : (d * ys == h)%Q) by (subst ys; field; lra).
  unfold priceToY.
  cbn [num_add num_sub num_mul ideal_number
       Ideal.add Ideal.sub Ideal.mul Ideal.neg].
  eexists. split; [reflexivity|].
  assert (Hpos : (0 <= (v + - mn) * ys)%Q).
  { apply Qmult_le_0_compat; lra. }
  assert (Hmost : ((v + - mn) * ys <= d * ys)%Q).
  { apply Qmult_le_compat_r; subst d; lra. }
  subst h. lra.
Qed.

(** The x coordinate of an index of the series. *)
Lemma indexToX_exact (pd cw : Q) (n j : nat) :
  (0 < cw + - (2 * pd))%Q -> (j < n)%nat ->
  exists x,
    indexToX (IFin pd) ((IFin cw - of_Z 2 * IFin pd) / of_nat n) j = IFin x
    /\ (pd <= x)%Q /\ (x < cw + - pd)%Q.
Proof.
  intros Hw Hj.
  cbn [num_add num_sub num_mul of_Z ideal_number
       Ideal.add Ideal.sub Ideal.mul Ideal.neg].
  change (inject_Z 2) with 2%Q.
  set (w := (cw + - (2 * pd))%Q) in *.
  unfold of_nat. cbn [of_Z ideal_number].
  assert (Hn : (0 < inject_Z (Z.of_nat n))%Q).
  { change 0%Q with (inject_Z 0). rewrite <- Zlt_Qlt. lia. }
  rewrite ideal_div_pos by exact Hn.
  unfold indexToX, of_nat.
  cbn [num_add num_mul of_Z ideal_number Ideal.add Ideal.mul].
  eexists. split; [reflexivity|].
  set (xs := (w / inject_Z (Z.of_nat n))%Q).
  assert (Hxs : (0 < xs)%Q) by (subst xs; apply Qlt_shift_div_l; lra).
  assert (Hfull : (inject_Z (Z.of_nat n) * xs == w)%Q) by (subst xs; field; lra).
  assert (Hj0 : (0 <= inject_Z (Z.of_nat j))%Q).
  { change 0%Q with (inject_Z 0). rewrite <- Zle_Qle. lia. }
  assert (Hjn : (inject_Z (Z.of_nat j) < inject_Z (Z.of_nat n))%Q).
  { rewrite <- Zlt_Qlt. lia. }
  assert (Hpos : (0 <= inject_Z (Z.of_nat j) * xs)%Q).
  { apply Qmult_le_0_compat; lra. }
  assert (Hless : (inject_Z (Z.of_nat j) * xs < inject_Z (Z.of_nat n) * xs)%Q).
  { apply Qmult_lt_compat_r; lra. }
  subst w. lra.
Qed.

(** X9. In exact arithmetic, on a canvas larger than twice the padding
    and for finite closes that are not all equal, [plotClosingPrices]
    draws a line to a point of every record, and that point lies inside
    the content area: [padding <= x < width - padding] and
    [padding <= y <= height - padding]. *)
Theorem price_path_inside_content_area
        (s : StockChart ideal) (j : nat) (r : QuoteRecord ideal) :
  isFinite (padding s) = true ->
  isFinite (width (stockCanvas s)) = true ->
  isFinite (height (stockCanvas s)) = true ->
  (of_Z 0 <? contentWidth s) = true ->
  (of_Z 0 <? contentHeight s) = true ->
  finiteCloses s ->
  (minPrice s <? maxPrice s) = true ->
  nth_error (fullData s) j = Some r ->
  let x := indexToX (padding s) (xScale s) j in
  let y := priceToY (padding s) (contentHeight s) (minPrice s) (yScale s)
                    (ToNumber (close r)) in
  In (lineTo x y)
     (plotClosingPrices (xScale s) (yScale s) (contentHeight s) (minPrice s) s)
  /\ insideContentArea s x y.
Proof.
  intros Hpd Hcw Hch Hw Hh Hfin Hlt Hr x y.
  split; [now apply closing_path_points|].
  destruct (price_range_exact s Hfin Hlt) as (mn & mx & Hmn & Hmx & Hrange & Hall).
  destruct (Hall r (nth_error_In _ _ Hr)) as (v & Hv & Hbounds).
  assert (Hj : (j < List.length (fullData s))%nat).
  { apply nth_error_Some. rewrite Hr. discriminate. }
  subst x y. unfold insideContentArea, xScale, yScale, contentWidth, contentHeight in *.
  as_rational Hpd pd. as_rational Hcw cw. as_rational Hch ch.
  rewrite Hmn, Hmx, Hv.
  assert (Hw' : (0 < cw + - (2 * pd))%Q) by (apply ideal_ltb_lt in Hw; exact Hw).
  assert (Hh' : (0 < ch + - (2 * pd))%Q) by (apply ideal_ltb_lt in Hh; exact Hh).
  destruct (indexToX_exact pd cw _ j Hw' Hj) as (x & -> & Hx0 & Hx1).
  destruct (priceToY_exact pd ch mn mx v Hh' Hrange Hbounds) as (y & -> & Hy).
  cbn [num_sub ideal_number Ideal.sub Ideal.add Ideal.neg].
  repeat split.
  - now apply ideal_leb_le.
  - now apply ideal_ltb_lt.
  - apply ideal_leb_le. lra.
  - apply ideal_leb_le. lra.
Qed.

(** ** The average line *)

Lemma ideal_sum_rational (l : list ideal) (acc : Q) :
  (forall x, In x l -> exists q, x = IFin q) ->
  fold_left num_add l (IFin acc) = IFin (fold_left Qplus (map toQ l) acc).
Proof.
  revert acc; induction l as [|x l IH]; intros acc Hl; simpl; [reflexivity|].
  destruct (Hl x (or_introl eq_refl)) as [q ->]. simpl.
  apply IH. intros y Hy. apply Hl. now right.
Qed.

Lemma Qsum_bounds (l : list Q) (mn mx acc : Q) :
  (forall q, In q l -> mn <= q <= mx)%Q ->
  (acc + inject_Z (Z.of_nat (List.length l)) * mn <= fold_left Qplus l acc
   /\ fold_left Qplus l acc <= acc + inject_Z (Z.of_nat (List.length l)) * mx)%Q.
Proof.
  revert acc; induction l as [|q l IH]; intros acc Hl.
  - simpl. change (inject_Z 0) with 0%Q. lra.
  - cbn [fold_left List.length].
    destruct (IH (acc + q)%Q) as [Hlo Hhi]; [intros; apply Hl; now right|].
    destruct (Hl q (or_introl eq_refl)) as [Hq0 Hq1].
    rewrite Nat2Z.inj_succ. unfold Z.succ. rewrite inject_Z_plus.
    change (inject_Z 1) with 1%Q. lra.
Qed.

Lemma mean_exact_bounds (l : list ideal) (mn mx : Q) :
  l <> [] ->
  (forall x, In x l -> exists q, x = IFin q /\ (mn <= q <= mx)%Q) ->
  exists a, mean l = IFin a /\ (mn <= a <= mx)%Q.
Proof.
  intros Hne Hl. unfold mean, sum.
  change (of_Z 0 : ideal) with (IFin 0).
  rewrite ideal_sum_rational by (intros x Hx; destruct (Hl x Hx) as (q & -> & _); eauto).
  unfold of_nat. cbn [of_Z ideal_number].
  assert (Hn : (0 < inject_Z (Z.of_nat (List.length l)))%Q).
  { change 0%Q with (inject_Z 0). rewrite <- Zlt_Qlt.
    destruct l; [congruence | simpl; lia]. }
  rewrite ideal_div_pos by exact Hn.
  eexists. split; [reflexivity|].
  destruct (Qsum_bounds (map toQ l) mn mx 0) as [Hlo Hhi].
  { intros q Hq. apply in_map_iff in Hq as (x & <- & Hx).
    destruct (Hl x Hx) as (q & -> & Hq). exact Hq. }
  rewrite length_map in Hlo, Hhi.
  split.
  - apply Qle_shift_div_l; [exact Hn | lra].
  - apply Qle_shift_div_r; [exact Hn | lra].
Qed.

Lemma In_slice {A} (x : A) (from to : nat) (l : list A) :
  In x (slice from to l) -> In x l.
Proof.
  unfold slice. intros Hx.
  rewrite <- (firstn_skipn from l). apply in_or_app; right.
  rewrite <- (firstn_skipn (to - from) (skipn from l)). apply in_or_app; now left.
Qed.

(** X10. In exact arithmetic, on a canvas larger than twice the padding
    and for finite closes that are not all equal, every moving average
    lies between [minPrice] and [maxPrice], and the point at which it is
    plotted lies inside the content area. *)
Theorem average_line_inside_content_area
        (s : StockChart ideal) (i : nat) (point : MovingAveragePoint ideal) :
  isFinite (padding s) = true ->
  isFinite (width (stockCanvas s)) = true ->
  isFinite (height (stockCanvas s)) = true ->
  (of_Z 0 <? contentWidth s) = true ->
  (of_Z 0 <? contentHeight s) = true ->
  finiteCloses s ->
  (minPrice s <? maxPrice s) = true ->
  aligned s ->
  movingAverage s = [] ->
  nth_error (movingAverage (calculateMovingAverage s)) i = Some point ->
  (minPrice s <=? avg point) = true
  /\ (avg point <=? maxPrice s) = true
  /\ insideContentArea
       s (indexToX (padding s) (xScale s) i)
       (priceToY (padding s) (contentHeight s) (minPrice s) (yScale s) (avg point)).
Proof.
  intros Hpd Hcw Hch Hw Hh Hfin Hlt Haligned Hempty Hpoint.
  destruct (price_range_exact s Hfin Hlt) as (mn & mx & Hmn & Hmx & Hrange & Hall).
  destruct (calculateMovingAverage_points s) as [_ Hm].
  rewrite Hempty in Hm; simpl in Hm. rewrite Hm in Hpoint. clear Hm.
  rewrite nth_error_map, nth_error_seq in Hpoint.
  unfold period in Hpoint. cbn [Nat.sub Nat.add] in Hpoint.
  destruct (Nat.ltb_spec i (List.length (closingPrices s) - 19))
    as [Hi | Hi]; [|discriminate].
  cbn [option_map] in Hpoint. injection Hpoint as <-. cbn [avg].
  assert (Hlen : List.length (closingPrices s) = List.length (fullData s)).
  { rewrite Haligned. apply length_map. }
  destruct (mean_exact_bounds
              (map closeValue (slice i (i + 20) (closingPrices s))) mn mx)
    as (a & Ha & Hbounds).
  { intros Hnil. apply (f_equal (@List.length _)) in Hnil.
    rewrite length_map in Hnil. unfold slice in Hnil.
    rewrite length_firstn, length_skipn in Hnil. simpl in Hnil. lia. }
  { intros x Hx. apply in_map_iff in Hx as (c & <- & Hc).
    apply In_slice in Hc. rewrite Haligned in Hc.
    apply in_map_iff in Hc as (r & <- & Hr).
    exact (Hall r Hr). }
  change (Ideal.div (sum (map closeValue (slice i (i + 20) (closingPrices s))))
                    _)
    with (mean (map closeValue (slice i (i + 20) (closingPrices s)))).
  rewrite Ha, Hmn, Hmx.
  split; [apply ideal_leb_le; lra|]. split; [apply ideal_leb_le; lra|].
  unfold insideContentArea, xScale, yScale, contentWidth, contentHeight in *.
  as_rational Hpd pd. as_rational Hcw cw. as_rational Hch ch.
  rewrite Hmn, Hmx.
  assert (Hw' : (0 < cw + - (2 * pd))%Q) by (apply ideal_ltb_lt in Hw; exact Hw).
  assert (Hh' : (0 < ch + - (2 * pd))%Q) by (apply ideal_ltb_lt in Hh; exact Hh).
  destruct (indexToX_exact pd cw (List.length (fullData s)) i Hw') as (x & -> & Hx0 & Hx1);
    [lia|].
  destruct (priceToY_exact pd ch mn mx a Hh' Hrange Hbounds) as (y & -> & Hy).
  cbn [num_sub ideal_number Ideal.sub Ideal.add Ideal.neg].
  repeat split.
  - now apply ideal_leb_le.
  - now apply ideal_ltb_lt.
  - apply ideal_leb_le. lra.
  - apply ideal_leb_le. lra.
Qed.

(** ** The price labels *)

(** X11. In exact arithmetic and for finite [minPrice < maxPrice], the
    label of grid line [i] shows the price that is plotted on that line:
    label [i] is drawn three pixels below the line at
    [y = padding + i * (height / 5)], and [priceToY] of the price it shows
    is that [y]. *)
Theorem price_labels_match_the_scale (s : StockChart ideal) (i : nat) :
  isFinite (padding s) = true ->
  isFinite (height (stockCanvas s)) = true ->
  isFinite (minPrice s) = true ->
  isFinite (maxPrice s) = true ->
  (minPrice s <? maxPrice s) = true ->
  (i <= 5)%nat ->
  let h := contentHeight s in
  let y := padding s + of_nat i * (h / of_Z 5) in
  let price := maxPrice s - of_nat i * ((maxPrice s - minPrice s) / of_Z 5) in
  nth_error (priceLabels h (maxPrice s) (minPrice s) s) i
  = Some (fillText (Price price) (padding s - of_Z 10) (y + of_Z 3))
  /\ nth_error (drawGridLines h (contentWidth s) s) (3 + 4 * i)
     = Some (moveTo (padding s) y)
  /\ (priceToY (padding s) h (minPrice s) (yScale s) price =? y) = true.
Proof.
  intros Hpd Hch Hmn Hmx Hlt Hi h y price.
  split; [|split].
  - subst h y price. unfold priceLabels.
    do 6 (destruct i as [|i]; [reflexivity|]). lia.
  - subst h y. unfold drawGridLines.
    do 6 (destruct i as [|i]; [reflexivity|]). lia.
  - subst h y price. unfold yScale, contentHeight, priceToY in *.
    as_rational Hpd pd. as_rational Hch ch.
    as_rational Hmn mn. as_rational Hmx mx.
    apply ideal_ltb_lt in Hlt.
    unfold of_nat.
    cbn [num_add num_sub num_mul of_Z ideal_number
         Ideal.add Ideal.sub Ideal.mul Ideal.neg].
    assert (Hd : (0 < mx + - mn)%Q) by lra.
    assert (H5 : (0 < inject_Z 5)%Q) by reflexivity.
    rewrite !ideal_div_pos by assumption.
    cbn [num_add num_sub num_mul ideal_number
         Ideal.add Ideal.sub Ideal.mul Ideal.neg].
    apply ideal_eqb_eq. change (inject_Z 5) with 5%Q. field. lra.
Qed.

End ExactArea.

(** Three days: the point of day 2 lies inside the content area. *)
Lemma second_day_inside_content_area :
  insideContentArea
    exactChart3
    (indexToX (padding exactChart3) (xScale exactChart3) 1)
    (priceToY (padding exactChart3) (contentHeight exactChart3)
              (minPrice exactChart3) (yScale exactChart3) (IFin 12)).
Proof.
  destruct (nth_error (fullData exactChart3) 1) as [r|] eqn:Hr;
    [|vm_compute in Hr; discriminate Hr].
  destruct (price_path_inside_content_area exactChart3 1 r) as [_ Harea];
    try (vm_compute; reflexivity); try exact Hr.
  - apply finiteCloses_forallb. vm_compute. reflexivity.
  - vm_compute in Hr. injection Hr as <-. exact Harea.
Defined.

(** The 25 days: the first average, 10.5, lies between the lowest and the
    highest close. *)
Lemma first_average_inside_range :
  (minPrice exactChart25 <=? IFin 10.5)%js = true
  /\ (IFin 10.5 <=? maxPrice exactChart25)%js = true.
Proof.
  destruct (average_line_inside_content_area
              exactChart25 0
              {| ma_date := "d20";
                 avg := mean (map closeValue (slice 0 20 (closingPrices exactChart25))) |})
    as (Hlo & Hhi & _).
  all: try (vm_compute; reflexivity).
  - apply finiteCloses_forallb. vm_compute. reflexivity.
  - split; [exact Hlo | exact Hhi].
Defined.

(** Two days closing at 10 and 17.25: the label of the third grid line
    shows the price plotted on it. *)
Lemma third_label_matches :
  (priceToY (padding exactChart2) (contentHeight exactChart2)
            (minPrice exactChart2) (yScale exactChart2)
            (maxPrice exactChart2
             - of_nat 2 * ((maxPrice exactChart2 - minPrice exactChart2) / of_Z 5))
   =? padding exactChart2 + of_nat 2 * (contentHeight exactChart2 / of_Z 5))%js
  = true.
Proof.
  apply (price_labels_match_the_scale exactChart2 2);
    try (vm_compute; reflexivity). lia.
Defined.

(* ================================================================== *)
(** * The empty series, in doubles *)

Section EmptySeries.

Local Open Scope js_scope.

Lemma empty_price_label (i : nat) :
  (i <= 5)%nat ->
  (num_neg Infinity - of_nat i * ((num_neg Infinity - Infinity) / of_Z 5) : double)
  = NaN.
Proof.
  intros Hi. do 6 (destruct i as [|i]; [vm_compute; reflexivity|]). lia.
Qed.

(** X12. A chart without records (a header line alone) is drawn without
    an error and without a loop: [plotChart] returns after one test of
    the label loop, [maxPrice] is [-Infinity] and [minPrice] is
    [Infinity], the six price labels all show [NaN], no date label is
    drawn, the price path is a single line to
    [x = padding - width / 0] on the base line, and the average path is
    empty. *)
Theorem empty_series_is_drawn (s : StockChart double) (showCrosshairs : bool) :
  fullData s = [] ->
  movingAverage s = [] ->
  let w := contentWidth s in
  let h := contentHeight s in
  maxPrice s = num_neg Infinity
  /\ minPrice s = Infinity
  /\ exists plot,
       plotChart 1 showCrosshairs s = Some plot
       /\ ctx plot
          = [clearRect (of_Z 0) (of_Z 0) (width (stockCanvas s)) (height (stockCanvas s))]
            ++ drawGridLines h w s
            ++ [textAlign "right"; fillStyle "#000"; font "12px Arial"]
            ++ map (fun i =>
                      fillText (Price NaN) (padding s - of_Z 10)
                               (padding s + of_nat i * (h / of_Z 5) + of_Z 3))
                   (seq 0 6)
            ++ [textAlign "center";
                fillStyle "rgba(0, 0, 255, 0.2)"; strokeStyle "blue"; beginPath;
                lineTo (padding s + of_Z (-1) * (w / of_Z 0)) (h + padding s);
                closePath; fill; stroke;
                strokeStyle "red"; beginPath; stroke].
Proof.
  intros Hfull Hma w h.
  assert (Hmax : maxPrice s = num_neg Infinity)
    by (unfold maxPrice, closes; now rewrite Hfull).
  assert (Hmin : minPrice s = Infinity)
    by (unfold minPrice, closes; now rewrite Hfull).
  split; [exact Hmax|]. split; [exact Hmin|].
  unfold plotChart, drawAxisLabels. cbn [dateLabels].
  rewrite Hfull. cbn [List.length Nat.ltb Nat.leb option_map].
  eexists. split; [reflexivity|]. cbn [ctx].
  fold w h. rewrite Hmax, Hmin.
  unfold plotClosingPrices, plotMovingAverage, forEach, xScale.
  rewrite Hfull, Hma. cbn [List.length seq combine flat_map app].
  fold w.
  assert (Hlabels : priceLabels h (num_neg Infinity) Infinity s
                    = map (fun i =>
                             fillText (Price NaN) (padding s - of_Z 10)
                                      (padding s + of_nat i * (h / of_Z 5) + of_Z 3))
                          (seq 0 6)).
  { unfold priceLabels. apply map_ext_in. intros i Hi.
    apply in_seq in Hi. rewrite empty_price_label by lia. reflexivity. }
  rewrite Hlabels.
  change (of_nat 0 - of_Z 1 : double) with (of_Z (-1) : double).
  change (of_nat 0 : double) with (of_Z 0 : double).
  repeat (rewrite <- ?app_assoc; cbn [app]). reflexivity.
Qed.

End EmptySeries.

(** A header line alone. *)
Lemma header_alone_is_drawn :
  exists plot, plotChart 1 true (load (csvText []) fresh) = Some plot.
Proof.
  destruct (empty_series_is_drawn (load (csvText []) fresh) true)
    as (_ & _ & plot & Hplot & _).
  - vm_compute. reflexivity.
  - vm_compute. reflexivity.
  - exists plot. exact Hplot.
Defined.

(* ================================================================== *)
(** * The pointer listener, in exact arithmetic *)

Section ExactPointer.

Local Open Scope js_scope.

(** A pointer in the cell of index [i], from the pixel of [i] up to the
    pixel of [i + 1], passes the range test and reads record [i]. *)
Lemma pointer_in_cell (s : StockChart ideal) (xs x : ideal) (i : nat) :
  isFinite (padding s) = true ->
  isFinite xs = true ->
  (of_Z 0 <? xs) = true ->
  (i < List.length (fullData s))%nat ->
  (indexToX (padding s) xs i <=? x) = true ->
  (x <? indexToX (padding s) xs (S i)) = true ->
  let dataIndex := xToIndex (padding s) xs x in
  (dataIndex >=? of_Z 0) && (dataIndex <? of_nat (List.length (fullData s))) = true
  /\ to_index dataIndex = Some i.
Proof.
  intros Hp Hxs Hpos Hi Hleft Hright dataIndex. subst dataIndex.
  as_rational Hp p. as_rational Hxs q.
  apply ideal_ltb_lt in Hpos. change (0 < q)%Q in Hpos.
  unfold xToIndex, indexToX, of_nat in *.
  destruct x as [v| | |];
    cbn [num_add num_sub num_mul of_Z ideal_number
         Ideal.add Ideal.sub Ideal.mul Ideal.neg] in *;
    try (simpl in Hleft; discriminate); try (simpl in Hright; discriminate).
  apply ideal_leb_le in Hleft. apply ideal_ltb_lt in Hright.
  rewrite Nat2Z.inj_succ, <- Z.add_1_r, inject_Z_plus in Hright.
  change (inject_Z 1) with 1%Q in Hright.
  rewrite ideal_div_pos by exact Hpos.
  cbn [Math_floor ideal_number Ideal.floor].
  assert (Hlow : (inject_Z (Z.of_nat i) <= (v + - p) / q)%Q)
    by (apply Qle_shift_div_l; lra).
  assert (Hhigh : ((v + - p) / q < inject_Z (Z.of_nat i) + 1)%Q)
    by (apply Qlt_shift_div_r; lra).
  assert (Hfloor : Qfloor ((v + - p) / q) = Z.of_nat i).
  { apply Qfloor_resp_le in Hlow. rewrite Qfloor_Z in Hlow.
    pose proof (Qfloor_le ((v + - p) / q)) as Hle.
    assert (Hlt : (inject_Z (Qfloor ((v + - p) / q)) < inject_Z (Z.of_nat i + 1))%Q)
      by (rewrite inject_Z_plus; change (inject_Z 1) with 1%Q; lra).
    rewrite <- Zlt_Qlt in Hlt. lia. }
  rewrite Hfloor. split.
  - apply andb_true_iff. split.
    + apply ideal_leb_le. change 0%Q with (inject_Z 0). rewrite <- Zle_Qle. lia.
    + apply ideal_ltb_lt. rewrite <- Zlt_Qlt. lia.
  - cbn [to_index ideal_number Ideal.to_index]. rewrite Qfloor_Z.
    rewrite Qeq_bool_refl. simpl.
    destruct (Z.leb_spec 0 (Z.of_nat i)); [|lia].
    now rewrite Nat2Z.id.
Qed.

(** X13. In exact arithmetic and for a finite positive x scale, a
    pointer anywhere in the cell of record [i] (from the pixel of [i] up
    to, and without, the pixel of [i + 1]) shows the four prices of
    record [i] and of no other, at [(x + 10, y - 10)], after the
    crosshair, which holds no text. *)
Theorem pointer_shows_the_record_of_its_cell
        (s : StockChart ideal) (xs h x y : ideal) (i : nat)
        (d : string) (o hi lo c : ideal) :
  isFinite (padding s) = true ->
  isFinite xs = true ->
  (of_Z 0 <? xs) = true ->
  nth_error (fullData s) i
  = Some {| date := d; open := Some o; high := Some hi;
            low := Some lo; close := Some c |} ->
  (indexToX (padding s) xs i <=? x) = true ->
  (x <? indexToX (padding s) xs (S i)) = true ->
  exists crosshair,
    mousemove xs h s x y
    = Normal (crosshair
              ++ [fillStyle "black";
                  fillText (OHLC o hi lo c) (x + of_Z 10) (y - of_Z 10)])
    /\ drawsText crosshair = false.
Proof.
  intros Hp Hxs Hpos Hr Hleft Hright.
  assert (Hi : (i < List.length (fullData s))%nat)
    by (apply nth_error_Some; congruence).
  destruct (pointer_in_cell s xs x i Hp Hxs Hpos Hi Hleft Hright) as [Hrange Hindex].
  unfold mousemove. rewrite Hrange, Hindex, Hr.
  eexists. split; [reflexivity|reflexivity].
Qed.

(** X14. In exact arithmetic and for a finite positive x scale, a
    pointer in the cell of a record with an undefined price (a line with
    fewer than five fields) ends the listener with a [TypeError]: the
    crosshair is drawn, the fill style is set, and no text is drawn. *)
Theorem pointer_on_short_record_throws
        (s : StockChart ideal) (xs h x y : ideal) (i : nat) (r : QuoteRecord ideal) :
  isFinite (padding s) = true ->
  isFinite xs = true ->
  (of_Z 0 <? xs) = true ->
  nth_error (fullData s) i = Some r ->
  open r = None \/ high r = None \/ low r = None \/ close r = None ->
  (indexToX (padding s) xs i <=? x) = true ->
  (x <? indexToX (padding s) xs (S i)) = true ->
  exists done,
    mousemove xs h s x y = TypeError done
    /\ drawsText done = false.
Proof.
  intros Hp Hxs Hpos Hr Hmissing Hleft Hright.
  assert (Hi : (i < List.length (fullData s))%nat)
    by (apply nth_error_Some; congruence).
  destruct (pointer_in_cell s xs x i Hp Hxs Hpos Hi Hleft Hright) as [Hrange Hindex].
  unfold mousemove. rewrite Hrange, Hindex, Hr.
  destruct r as [d [o|] [hi|] [lo|] [c|]]; cbn [open high low close] in Hmissing;
    try (eexists; split; reflexivity).
  destruct Hmissing as [H|[H|[H|H]]]; discriminate.
Qed.

End ExactPointer.

(** The pointer at pixel 400 of the three-day chart, whose cells are
    [680 / 3] pixels wide, is in the cell of the second day. *)
Lemma pointer_at_400_shows_second_day :
  exists crosshair,
    mousemove (xScale exactChart3) (contentHeight exactChart3) exactChart3
              (IFin 400) (IFin 100)
    = Normal (crosshair
              ++ [fillStyle "black";
                  fillText (OHLC (IFin 1) (IFin 2) (IFin 0.5) (IFin 12))
                           (IFin 400 + of_Z 10)%js (IFin 100 - of_Z 10)%js])
    /\ drawsText crosshair = false.
Proof.
  destruct (nth_error (fullData exactChart3) 1) as [r|] eqn:Hr;
    [|vm_compute in Hr; discriminate].
  destruct r as [d [o|] [hi|] [lo|] [c|]];
    try (vm_compute in Hr; discriminate).
  destruct (pointer_shows_the_record_of_its_cell
              exactChart3 (xScale exactChart3) (contentHeight exactChart3)
              (IFin 400) (IFin 100) 1 d o hi lo c)
    as (crosshair & Hmove & Htext);
    try (vm_compute; reflexivity).
  - exact Hr.
  - exists crosshair. split; [|exact Htext].
    rewrite Hmove. vm_compute in Hr. injection Hr as <- <- <- <- <-.
    reflexivity.
Defined.

(** The second line of [exactChartShort] has three fields. *)
Lemma pointer_on_short_line_throws :
  exists done,
    mousemove (xScale exactChartShort) (contentHeight exactChartShort) exactChartShort
              (IFin 500) (IFin 100)
    = TypeError done
    /\ drawsText done = false.
Proof.
  destruct (nth_error (fullData exactChartShort) 1) as [r|] eqn:Hr;
    [|vm_compute in Hr; discriminate].
  apply (pointer_on_short_record_throws
           exactChartShort (xScale exactChartShort) (contentHeight exactChartShort)
           (IFin 500) (IFin 100) 1 r);
    try (vm_compute; reflexivity).
  - exact Hr.
  - right; right; left. vm_compute in Hr. injection Hr as <-. reflexivity.
Defined.

(* ================================================================== *)
(** * Date labels and redraws *)

Section LabelsAndRedraws.

Context {num : Type} `{JSNumber num}.
Local Open Scope js_scope.

(** With a positive step the loop started at [i] visits [i], [i + step],
    [i + 2 * step], ... below the length. *)
Lemma dateLabels_spaced (h w : num) (s : StockChart num) (fuel i : nat) :
  (0 < List.length (fullData s) / 10)%nat ->
  (List.length (fullData s) - i < fuel)%nat ->
  exists labels,
    dateLabels fuel h w s i = Some labels
    /\ List.length labels
       = ((List.length (fullData s) - i + List.length (fullData s) / 10 - 1)
          / (List.length (fullData s) / 10))%nat
    /\ forall k, (k < List.length labels)%nat ->
         exists r,
           nth_error (fullData s) (i + k * (List.length (fullData s) / 10)) = Some r
           /\ nth_error labels k
              = Some (fillText (Label (date r))
                               (indexToX (padding s)
                                         (w / of_nat (List.length (fullData s)))
                                         (i + k * (List.length (fullData s) / 10)))
                               (h + padding s + of_Z 20)).
Proof.
  set (N := List.length (fullData s)). set (step := (N / 10)%nat).
  intros Hstep. revert i.
  induction fuel as [|fuel IH]; intros i Hfuel; [lia|]. cbn [dateLabels].
  fold N. fold step.
  destruct (Nat.ltb_spec i N) as [Hi | Hi].
  - destruct (nth_error (fullData s) i) as [r|] eqn:Hr;
      [|apply nth_error_None in Hr; fold N in Hr; lia].
    destruct (IH (i + step)%nat) as (labels & Hl & Hlen & Hk); [lia|].
    rewrite Hl. cbn [option_map]. eexists. split; [reflexivity|]. split.
    + cbn [List.length]. rewrite Hlen.
      destruct (Nat.lt_ge_cases (N - i) step) as [Hsmall | Hlarge].
      * replace (N - (i + step) + step - 1)%nat with (step - 1)%nat by lia.
        rewrite Nat.div_small by lia.
        apply Nat.div_unique with (r := (N - i - 1)%nat); lia.
      * replace (N - i + step - 1)%nat with (N - (i + step) + step - 1 + 1 * step)%nat
          by lia.
        rewrite Nat.div_add by lia. lia.
    + intros [|k] Hlt.
      * exists r. cbn [Nat.mul]. rewrite Nat.add_0_r. split; [exact Hr|reflexivity].
      * cbn [List.length] in Hlt.
        destruct (Hk k) as (r' & Hr' & Hlabel); [lia|].
        replace (i + S k * step)%nat with (i + step + k * step)%nat
          by (cbn [Nat.mul]; lia).
        exists r'. split; [exact Hr'|exact Hlabel].
  - exists []. split; [reflexivity|]. split.
    + cbn [List.length].
      replace (N - i + step - 1)%nat with (step - 1)%nat by lia.
      rewrite Nat.div_small by lia. reflexivity.
    + cbn [List.length]. intros k Hk. lia.
Qed.

(** X15. For a series of [N >= 10] records the label loop ends and
    draws between 10 and 19 date labels: label [k] carries the date of
    record [k * floor(N / 10)] and stands at the pixel of that index,
    [20] below the base line. *)
Theorem date_labels_every_tenth_of_the_series (h w : num) (s : StockChart num) :
  (10 <= List.length (fullData s))%nat ->
  exists labels,
    dateLabels (S (List.length (fullData s))) h w s 0 = Some labels
    /\ (10 <= List.length labels <= 19)%nat
    /\ forall k, (k < List.length labels)%nat ->
         exists r,
           nth_error (fullData s) (k * (List.length (fullData s) / 10)) = Some r
           /\ nth_error labels k
              = Some (fillText (Label (date r))
                               (indexToX (padding s)
                                         (w / of_nat (List.length (fullData s)))
                                         (k * (List.length (fullData s) / 10)))
                               (h + padding s + of_Z 20)).
Proof.
  intros HN.
  assert (Hstep : (0 < List.length (fullData s) / 10)%nat)
    by (apply Nat.div_str_pos; lia).
  destruct (dateLabels_spaced h w s (S (List.length (fullData s))) 0 Hstep)
    as (labels & Hl & Hlen & Hk); [lia|].
  exists labels. split; [exact Hl|]. split; [|exact Hk].
  rewrite Hlen, Nat.sub_0_r.
  pose proof (Nat.Div0.mul_div_le (List.length (fullData s)) 10) as Hlow.
  pose proof (Nat.mul_succ_div_gt (List.length (fullData s)) 10) as Hhigh.
  set (N := List.length (fullData s)) in *. set (step := (N / 10)%nat) in *.
  split.
  - apply Nat.div_le_lower_bound; lia.
  - apply Nat.lt_succ_r. apply Nat.Div0.div_lt_upper_bound; lia.
Qed.

(** One wheel event on a chart whose label loop ends. *)
Lemma wheel_redraws (deltaY : num) (s : StockChart num) :
  (List.length (fullData s) = 0 \/ 10 <= List.length (fullData s))%nat ->
  exists plot,
    wheel (S (List.length (fullData s))) deltaY s = Some plot
    /\ chart plot
       = addCrosshairsFunctionality
           (xScale (setWidth (zoom deltaY (width (stockCanvas s))) s))
           (contentHeight s)
           (setWidth (zoom deltaY (width (stockCanvas s))) s).
Proof.
  intros HN. unfold wheel, plotChart.
  destruct (drawAxisLabels_terminates
              (contentHeight (setWidth (zoom deltaY (width (stockCanvas s))) s))
              (maxPrice (setWidth (zoom deltaY (width (stockCanvas s))) s))
              (minPrice (setWidth (zoom deltaY (width (stockCanvas s))) s))
              (contentWidth (setWidth (zoom deltaY (width (stockCanvas s))) s))
              (setWidth (zoom deltaY (width (stockCanvas s))) s) HN)
    as [labels Hlabels].
  cbn [fullData setWidth] in Hlabels |- *. rewrite Hlabels.
  eexists. split; reflexivity.
Qed.

(** X16. On a chart whose label loop ends (no record, or ten and more),
    a sequence of wheel events is handled to the end; it leaves the
    records, the averages, the padding and the canvas height as they
    were, applies the zoom steps to the canvas width one after the other,
    and registers one more pointer listener per event, behind those
    already there: no listener is ever removed. *)
Theorem every_wheel_event_adds_a_listener (deltas : list num) (s : StockChart num) :
  (List.length (fullData s) = 0 \/ 10 <= List.length (fullData s))%nat ->
  exists s' added,
    wheels (S (List.length (fullData s))) deltas s = Some s'
    /\ crosshairs s' = crosshairs s ++ added
    /\ List.length added = List.length deltas
    /\ width (stockCanvas s')
       = fold_left (fun w deltaY => zoom deltaY w) deltas (width (stockCanvas s))
    /\ height (stockCanvas s') = height (stockCanvas s)
    /\ overlayCanvas s' = overlayCanvas s
    /\ padding s' = padding s
    /\ fullData s' = fullData s
    /\ closingPrices s' = closingPrices s
    /\ movingAverage s' = movingAverage s.
Proof.
  revert s. induction deltas as [|deltaY deltas IH]; intros s HN.
  - exists s, []. cbn [wheels fold_left List.length].
    rewrite app_nil_r. repeat split; reflexivity.
  - destruct (wheel_redraws deltaY s HN) as (plot & Hwheel & Hchart).
    cbn [wheels fold_left]. rewrite Hwheel.
    destruct (IH (chart plot)) as (s' & added & Hs' & Hc & Hlen & Hw & Hh & Ho & Hp & Hf & Hcp & Hma).
    { rewrite Hchart. exact HN. }
    rewrite Hchart in Hs', Hc, Hw, Hh, Ho, Hp, Hf, Hcp, Hma.
    cbn [addCrosshairsFunctionality setWidth fullData crosshairs stockCanvas
         width height overlayCanvas padding closingPrices movingAverage]
      in Hs', Hc, Hw, Hh, Ho, Hp, Hf, Hcp, Hma.
    exists s', ((xScale (setWidth (zoom deltaY (width (stockCanvas s))) s),
                 contentHeight s) :: added).
    rewrite Hchart.
    cbn [addCrosshairsFunctionality setWidth fullData].
    split; [exact Hs'|].
    split; [rewrite Hc, <- app_assoc; reflexivity|].
    split; [cbn [List.length]; now rewrite Hlen|].
    repeat split; assumption.
Qed.

End LabelsAndRedraws.

(** The 25 days: 13 labels, two records apart. *)
Lemma date_labels_of_25_days :
  exists labels,
    dateLabels 26 (contentHeight chart25) (contentWidth chart25) chart25 0 = Some labels
    /\ (10 <= List.length labels <= 19)%nat.
Proof.
  destruct (date_labels_every_tenth_of_the_series
              (contentHeight chart25) (contentWidth chart25) chart25)
    as (labels & Hl & Hlen & _).
  - vm_compute. lia.
  - exists labels. split; [exact Hl|exact Hlen].
Defined.

(** One step in and one step out on the 25 days, drawn once before. *)
Lemma two_wheel_events_two_listeners :
  exists s',
    wheels 26 [Double.of_Z (-1); Double.of_Z 1] chart25 = Some s'
    /\ List.length (crosshairs s') = 2%nat.
Proof.
  destruct (every_wheel_event_adds_a_listener
              [Double.of_Z (-1); Double.of_Z 1] chart25)
    as (s' & added & Hs' & Hc & Hlen & _).
  - right. vm_compute. lia.
  - exists s'. split; [exact Hs'|].
    rewrite Hc, length_app, Hlen. reflexivity.
Defined.

(* ================================================================== *)
(** * Successive averages, in exact arithmetic *)

Section ExactSliding.

Local Open Scope js_scope.

Lemma skipn_nth_error {A} (l : list A) (i : nat) (a : A) :
  nth_error l i = Some a -> skipn i l = a :: skipn (S i) l.
Proof.
  revert l; induction i as [|i IH]; intros [|x l] Ha; try discriminate.
  - injection Ha as ->. reflexivity.
  - cbn [nth_error] in Ha. apply IH in Ha. exact Ha.
Qed.

Lemma firstn_nth_error {A} (l : list A) (n : nat) (b : A) :
  nth_error l n = Some b -> firstn (S n) l = firstn n l ++ [b].
Proof.
  revert l; induction n as [|n IH]; intros [|x l] Hb; try discriminate.
  - injection Hb as ->. reflexivity.
  - cbn [nth_error] in Hb. apply IH in Hb.
    change (firstn (S (S n)) (x :: l)) with (x :: firstn (S n) l).
    rewrite Hb. reflexivity.
Qed.

(** A window loses its first element ... *)
Lemma slice_first {A} (l : list A) (i n : nat) (a : A) :
  nth_error l i = Some a ->
  slice i (i + S n) l = a :: slice (S i) (S i + n) l.
Proof.
  intros Ha. unfold slice.
  replace (i + S n - i)%nat with (S n) by lia.
  replace (S i + n - S i)%nat with n by lia.
  rewrite (skipn_nth_error l i a Ha). reflexivity.
Qed.

(** ... and gains a last one. *)
Lemma slice_last {A} (l : list A) (i n : nat) (b : A) :
  nth_error l (i + n) = Some b ->
  slice i (i + S n) l = slice i (i + n) l ++ [b].
Proof.
  intros Hb. unfold slice.
  replace (i + S n - i)%nat with (S n) by lia.
  replace (i + n - i)%nat with n by lia.
  apply firstn_nth_error. now rewrite nth_error_skipn.
Qed.

Lemma Qsum_from (l : list Q) (acc : Q) :
  (fold_left Qplus l acc == acc + fold_left Qplus l 0)%Q.
Proof.
  revert acc; induction l as [|q l IH]; intros acc; cbn [fold_left]; [lra|].
  rewrite (IH (acc + q)%Q), (IH (0 + q)%Q). lra.
Qed.

(** The exact mean of a window of 20 finite closes. *)
Lemma mean_of_window (window : list (ClosingPrice ideal)) :
  List.length window = 20%nat ->
  (forall c, In c window -> isFinite (closeValue c) = true) ->
  mean (map closeValue window)
  = IFin (fold_left Qplus (map toQ (map closeValue window)) 0 / 20).
Proof.
  intros Hlen Hfin. unfold mean, sum.
  change (of_Z 0 : ideal) with (IFin 0).
  rewrite ideal_sum_rational.
  - rewrite length_map, Hlen.
    change (of_nat 20 : ideal) with (IFin 20).
    apply ideal_div_pos. lra.
  - intros x Hx. apply in_map_iff in Hx as (c & <- & Hc).
    apply ideal_finite. now apply Hfin.
Qed.

(** X17. In exact arithmetic and for finite closes, each moving average
    follows from the one before it: the close that leaves the window of
    20 is taken out and the one that enters is put in,
    [avg(i + 1) = avg(i) + (close(i + 20) - close(i)) / 20]. *)
Theorem each_average_follows_from_the_one_before
        (s : StockChart ideal) (i : nat) (leaving entering : ClosingPrice ideal) :
  movingAverage s = [] ->
  forallb (fun c => isFinite (closeValue c)) (closingPrices s) = true ->
  nth_error (closingPrices s) i = Some leaving ->
  nth_error (closingPrices s) (i + 20) = Some entering ->
  exists p p',
    nth_error (movingAverage (calculateMovingAverage s)) i = Some p
    /\ nth_error (movingAverage (calculateMovingAverage s)) (S i) = Some p'
    /\ (avg p' =? avg p + (closeValue entering - closeValue leaving) / of_Z 20) = true.
Proof.
  intros Hempty Hfinite Hleaving Hentering.
  assert (Hfin : forall c, In c (closingPrices s) -> isFinite (closeValue c) = true).
  { intros c Hc. rewrite forallb_forall in Hfinite. now apply Hfinite. }
  assert (HN : (i + 20 < List.length (closingPrices s))%nat)
    by (apply nth_error_Some; congruence).
  destruct (calculateMovingAverage_points s) as [_ Hm].
  rewrite Hempty in Hm; cbn [app] in Hm. rewrite Hm. clear Hm.
  unfold period. cbn [Nat.sub Nat.add].
  do 2 eexists. split; [|split].
  - rewrite nth_error_map, nth_error_seq.
    destruct (Nat.ltb_spec i (List.length (closingPrices s) - 19)); [|lia].
    reflexivity.
  - rewrite nth_error_map, nth_error_seq.
    destruct (Nat.ltb_spec (S i) (List.length (closingPrices s) - 19)); [|lia].
    reflexivity.
  - cbn [avg Nat.add].
    set (middle := slice (S i) (S i + 19) (closingPrices s)).
    assert (Hold : slice i (i + 20) (closingPrices s) = leaving :: middle)
      by (apply (slice_first (closingPrices s) i 19 leaving Hleaving)).
    assert (Hnew : slice (S i) (S (i + 20)) (closingPrices s) = middle ++ [entering]).
    { replace (S (i + 20)) with (S i + 20)%nat by lia.
      apply (slice_last (closingPrices s) (S i) 19 entering).
      replace (S i + 19)%nat with (i + 20)%nat by lia. exact Hentering. }
    assert (Hmiddle : List.length middle = 19%nat).
    { subst middle. unfold slice. rewrite length_firstn, length_skipn. lia. }
    assert (Hin : forall c, In c middle -> isFinite (closeValue c) = true).
    { intros c Hc. apply Hfin. subst middle. now apply In_slice in Hc. }
    rewrite Hold, Hnew.
    rewrite (mean_of_window (leaving :: middle)),
            (mean_of_window (middle ++ [entering])).
    + pose proof (Hfin leaving (nth_error_In _ _ Hleaving)) as Ha.
      pose proof (Hfin entering (nth_error_In _ _ Hentering)) as Hb.
      apply ideal_finite in Ha as [a Ha]. apply ideal_finite in Hb as [b Hb].
      rewrite !map_app. cbn [map]. rewrite Ha, Hb. cbn [toQ].
      rewrite fold_left_app. cbn [fold_left].
      change (of_Z 20 : ideal) with (IFin 20).
      cbn [num_add num_sub ideal_number Ideal.add Ideal.sub Ideal.neg].
      rewrite ideal_div_pos by lra.
      cbn [num_add ideal_number Ideal.add].
      apply ideal_eqb_eq.
      rewrite (Qsum_from (map toQ (map closeValue middle)) (0 + a)).
      field.
    + rewrite length_app, Hmiddle. reflexivity.
    + intros c Hc. apply in_app_or in Hc as [Hc | [<- | []]].
      * now apply Hin.
      * apply Hfin. exact (nth_error_In _ _ Hentering).
    + cbn [List.length]. now rewrite Hmiddle.
    + intros c [<- | Hc].
      * apply Hfin. exact (nth_error_In _ _ Hleaving).
      * now apply Hin.
Qed.

End ExactSliding.

(** The 25 days: from the first average to the second, day 1 leaves the
    window and day 21 enters it. *)
Lemma second_average_of_25_days :
  exists p p',
    nth_error (movingAverage (calculateMovingAverage exactChart25)) 0 = Some p
    /\ nth_error (movingAverage (calculateMovingAverage exactChart25)) 1 = Some p'
    /\ (avg p' =? avg p
                  + (closeValue (nth 20 (closingPrices exactChart25) noClosingPrice)
                     - closeValue (nth 0 (closingPrices exactChart25) noClosingPrice))
                    / of_Z 20)%js
       = true.
Proof.
  apply (each_average_follows_from_the_one_before exactChart25 0);
    vm_compute; reflexivity.
Defined.

(* ================================================================== *)
(** * Windows line endings *)

Section CarriageReturn.

Local Open Scope string_scope.

Lemma prefix_before (p u : string) (c : ascii) :
  forallb (fun a => negb (Ascii.eqb a c)) (list_ascii_of_string p) = true ->
  prefix p (u ++ String c "") = prefix p u.
Proof.
  revert u; induction p as [|a p IH]; intros u Hp; [destruct u; reflexivity|].
  cbn [list_ascii_of_string forallb] in Hp.
  apply andb_true_iff in Hp as [Ha Hp].
  destruct u as [|b u]; cbn [append prefix].
  - destruct (ascii_dec a c) as [-> | _]; [|reflexivity].
    now rewrite Ascii.eqb_refl in Ha.
  - destruct (ascii_dec a b); [now apply IH | reflexivity].
Qed.

Lemma decimalDigits_cr (u : string) (acc : N) (k : nat) :
  decimalDigits acc k (u ++ cr)
  = let '(a, n, r) := decimalDigits acc k u in (a, n, r ++ cr).
Proof.
  revert acc k; induction u as [|c u IH]; intros acc k; [reflexivity|].
  cbn [append decimalDigits].
  destruct (digitValue c); [apply IH | reflexivity].
Qed.

Lemma exponentPart_cr (r : string) : exponentPart (r ++ cr) = exponentPart r.
Proof.
  destruct r as [|c s]; [reflexivity|].
  cbn [append exponentPart].
  destruct (Ascii.eqb c "e" || Ascii.eqb c "E"); [|reflexivity].
  destruct s as [|c' t]; [reflexivity|].
  cbn [append].
  destruct (Ascii.eqb c' "-"); [|destruct (Ascii.eqb c' "+")].
  - rewrite decimalDigits_cr. now destruct (decimalDigits 0 0 t) as [[v n] r3].
  - rewrite decimalDigits_cr. now destruct (decimalDigits 0 0 t) as [[v n] r3].
  - change (String c' (t ++ cr)) with (String c' t ++ cr).
    rewrite decimalDigits_cr.
    now destruct (decimalDigits 0 0 (String c' t)) as [[v n] r3].
Qed.

Lemma trimStart_cr (f : string) :
  trimStart (f ++ cr) = trimStart f ++ cr
  \/ (trimStart (f ++ cr) = "" /\ trimStart f = "").
Proof. apply trimStart_whitespace_suffix. reflexivity. Qed.

(** [split] when a carriage return is put behind the line: it ends up
    behind the last field. *)
Lemma split_cr (sep : ascii) (line : string) :
  Ascii.eqb "013" sep = false ->
  split sep (line ++ cr)
  = (removelast (split sep line) ++ [(last (split sep line) "" ++ cr)%string])%list.
Proof.
  intros Hsep. induction line as [|c line IH].
  - unfold cr. cbn [append split]. rewrite Hsep. reflexivity.
  - cbn [append split]. rewrite IH.
    pose proof (split_not_nil sep line) as Hne.
    destruct (split sep line) as [|h [|x t]]; [congruence| |];
      destruct (Ascii.eqb c sep); reflexivity.
Qed.

(** [crlf] and [lfcr] through the string functions of [processCSVData]. *)
Lemma crlf_append (a b : string) : crlf (a ++ b) = crlf a ++ crlf b.
Proof.
  induction a as [|c a IH]; [reflexivity|]. cbn [append crlf].
  destruct (Ascii.eqb c "010"); cbn [append]; now rewrite IH.
Qed.

Lemma lfcr_append (a b : string) : lfcr (a ++ b) = lfcr a ++ lfcr b.
Proof.
  induction a as [|c a IH]; [reflexivity|]. cbn [append lfcr].
  destruct (Ascii.eqb c "010"); cbn [append]; now rewrite IH.
Qed.

Lemma reverse_String (c : ascii) (s : string) :
  reverse (String c s) = reverse s ++ String c "".
Proof. exact (reverse_append (String c "") s). Qed.

Lemma reverse_crlf (s : string) : reverse (crlf s) = lfcr (reverse s).
Proof.
  induction s as [|c s IH]; [reflexivity|].
  rewrite reverse_String, lfcr_append, <- IH. cbn [crlf lfcr].
  destruct (Ascii.eqb c "010") eqn:Hc.
  - rewrite !reverse_String, string_append_assoc. reflexivity.
  - rewrite reverse_String. reflexivity.
Qed.

Lemma reverse_lfcr (s : string) : reverse (lfcr s) = crlf (reverse s).
Proof.
  induction s as [|c s IH]; [reflexivity|].
  rewrite reverse_String, crlf_append, <- IH. cbn [crlf lfcr].
  destruct (Ascii.eqb c "010") eqn:Hc.
  - rewrite !reverse_String, string_append_assoc. reflexivity.
  - rewrite reverse_String. reflexivity.
Qed.

Lemma trimStart_crlf (s : string) : trimStart (crlf s) = crlf (trimStart s).
Proof.
  induction s as [|c s IH]; [reflexivity|]. cbn [crlf trimStart].
  destruct (Ascii.eqb_spec c "010") as [-> | Hc].
  - cbn. exact IH.
  - cbn [trimStart]. destruct (isWhiteSpace c); [exact IH|].
    cbn [crlf]. destruct (Ascii.eqb_spec c "010"); [contradiction | reflexivity].
Qed.

Lemma trimStart_lfcr (s : string) : trimStart (lfcr s) = lfcr (trimStart s).
Proof.
  induction s as [|c s IH]; [reflexivity|]. cbn [lfcr trimStart].
  destruct (Ascii.eqb_spec c "010") as [-> | Hc].
  - cbn. exact IH.
  - cbn [trimStart]. destruct (isWhiteSpace c); [exact IH|].
    cbn [lfcr]. destruct (Ascii.eqb_spec c "010"); [contradiction | reflexivity].
Qed.

Lemma trim_crlf (s : string) : trim (crlf s) = crlf (trim s).
Proof.
  unfold trim.
  now rewrite trimStart_crlf, reverse_crlf, trimStart_lfcr, reverse_lfcr.
Qed.

(** The lines of a text with Windows line endings: every line but the
    last has a carriage return behind it. *)
Lemma split_crlf (s : string) :
  split "010" (crlf s)
  = (map (fun line => (line ++ cr)%string) (removelast (split "010" s))
     ++ [last (split "010" s) ""])%list.
Proof.
  induction s as [|c s IH]; [reflexivity|].
  cbn [crlf split].
  pose proof (split_not_nil "010" s) as Hne.
  destruct (Ascii.eqb c "010") eqn:Hc.
  - cbn [split]. change (Ascii.eqb "013" "010") with false. cbn match.
    rewrite Ascii.eqb_refl, IH.
    destruct (split "010" s) as [|h [|x t]]; [congruence| |]; reflexivity.
  - cbn [split]. rewrite Hc, IH.
    destruct (split "010" s) as [|h [|x t]]; [congruence| |]; reflexivity.
Qed.

End CarriageReturn.

Section WindowsLineEndings.

Context {num : Type} `{JSNumber num}.
Local Open Scope string_scope.

Lemma unsignedLiteral_cr (negative : bool) (u : string) :
  unsignedLiteral negative (u ++ cr) = unsignedLiteral (num := num) negative u.
Proof.
  unfold unsignedLiteral.
  replace (prefix "Infinity" (u ++ cr)) with (prefix "Infinity" u)
    by (symmetry; apply (prefix_before "Infinity" u "013"); reflexivity).
  destruct (prefix "Infinity" u); [reflexivity|].
  rewrite decimalDigits_cr.
  destruct (decimalDigits 0 0 u) as [[ip n1] r1].
  rewrite exponentPart_cr.
  destruct r1 as [|c r2]; [reflexivity|].
  cbn [append].
  destruct (Ascii.eqb c "."); [|reflexivity].
  rewrite decimalDigits_cr.
  destruct (decimalDigits ip 0 r2) as [[m n2] r3].
  now rewrite exponentPart_cr.
Qed.

(** [parseFloat] does not see a carriage return behind its argument. *)
Lemma parseFloat_cr (field : string) :
  parseFloat (field ++ cr) = parseFloat (num := num) field.
Proof.
  unfold parseFloat.
  destruct (trimStart_cr field) as [-> | [-> ->]]; [|reflexivity].
  destruct (trimStart field) as [|c r].
  - exact (unsignedLiteral_cr false "").
  - cbn [append].
    destruct (Ascii.eqb c "-"); [apply unsignedLiteral_cr|].
    destruct (Ascii.eqb c "+"); [apply unsignedLiteral_cr|].
    exact (unsignedLiteral_cr false (String c r)).
Qed.

Lemma number_cr (fields : list string) (field : string) (index : nat) :
  option_map parseFloat (nth_error (fields ++ [(field ++ cr)%string])%list index)
  = option_map (parseFloat (num := num)) (nth_error (fields ++ [field])%list index).
Proof.
  revert index; induction fields as [|f fields IH]; intros [|index]; cbn.
  - now rewrite parseFloat_cr.
  - now destruct index.
  - reflexivity.
  - apply IH.
Qed.

(** A line with a comma gives the same record with a carriage return
    behind it. *)
Lemma parseLine_cr (line : string) :
  (2 <= List.length (split "," line))%nat ->
  parseLine (line ++ cr) = parseLine (num := num) line.
Proof.
  intros Hfields. unfold parseLine.
  rewrite split_cr by reflexivity.
  assert (Hsplit : exists first rest field,
             split "," line = (first :: rest ++ [field])%list
             /\ removelast (split "," line) = (first :: rest)%list
             /\ last (split "," line) "" = field).
  { pose proof (split_not_nil "," line) as Hne.
    pose proof (app_removelast_last "" Hne) as Hlast.
    destruct (removelast (split "," line)) as [|first rest] eqn:Hinit.
    - rewrite Hlast in Hfields. cbn in Hfields. lia.
    - exists first, rest, (last (split "," line) ""). now rewrite Hlast at 1. }
  destruct Hsplit as (first & rest & field & Hall & Hinit & Hlast).
  rewrite Hinit, Hlast, Hall.
  change (first :: rest ++ [field])%list with ((first :: rest) ++ [field])%list.
  rewrite !number_cr. reflexivity.
Qed.

Lemma pushLines_records (lines lines' : list string) (s : StockChart num) :
  map (parseLine (num := num)) lines = map parseLine lines' ->
  fold_left pushLine lines s = fold_left pushLine lines' s.
Proof.
  revert lines' s; induction lines as [|l lines IH]; intros [|l' lines'] s Hmap;
    try discriminate; [reflexivity|].
  cbn [map] in Hmap.
  assert (Hl : parseLine (num := num) l = parseLine l') by congruence.
  assert (Hrest : map (parseLine (num := num)) lines = map parseLine lines')
    by congruence.
  cbn [fold_left].
  replace (pushLine s l) with (pushLine s l') by (unfold pushLine; now rewrite Hl).
  now apply IH.
Qed.

(** X18. A file with Windows line endings gives the records of the same
    file with Unix line endings, as long as every data line holds a
    comma: the lines are split at the line feeds alone, the carriage
    return stays behind the last field of its line, and [parseFloat]
    does not see it. *)
Theorem windows_line_endings_give_the_same_records
        (csvData : string) (s : StockChart num) :
  (forall line, In line (dataLines csvData) ->
                (2 <= List.length (split "," line))%nat) ->
  processCSVData (crlf csvData) s = processCSVData csvData s.
Proof.
  intros Hcomma. unfold processCSVData. apply pushLines_records.
  unfold dataLines in *. rewrite trim_crlf, split_crlf.
  pose proof (split_not_nil "010" (trim csvData)) as Hne.
  rewrite (app_removelast_last "" Hne) at 3.
  rewrite (app_removelast_last "" Hne) in Hcomma.
  destruct (removelast (split "010" (trim csvData))) as [|header lines].
  - reflexivity.
  - cbn [map app tl] in *. rewrite !map_app, map_map. f_equal.
    apply map_ext_in. intros line Hline.
    apply parseLine_cr. apply Hcomma. apply in_or_app. now left.
Qed.

End WindowsLineEndings.

(** The three days, with Windows line endings. *)
Lemma three_days_with_windows_line_endings :
  processCSVData (crlf csv3) fresh = processCSVData csv3 fresh.
Proof.
  apply windows_line_endings_give_the_same_records.
  intros line Hline. vm_compute in Hline.
  repeat (destruct Hline as [<- | Hline]; [vm_compute; lia|]).
  contradiction.
Defined.

(* ================================================================== *)
(** * From the text to the chart *)

Section Fetch.

Context {num : Type} `{JSNumber num}.
Local Open Scope js_scope.

Lemma dataLines_length (csvData : string) :
  List.length (dataLines csvData) = occurrences "010" (trim csvData).
Proof.
  unfold dataLines.
  pose proof (split_length "010" (trim csvData)) as Hl.
  destruct (split "010" (trim csvData)); simpl in *; lia.
Qed.

Lemma plotChart_chart (fuel : nat) (showCrosshairs : bool) (s : StockChart num)
      (plot : Plot num) :
  plotChart fuel showCrosshairs s = Some plot ->
  chart plot
  = if showCrosshairs
    then addCrosshairsFunctionality (xScale s) (contentHeight s) s
    else s.
Proof.
  unfold plotChart.
  destruct (drawAxisLabels fuel (contentHeight s) (maxPrice s) (minPrice s)
                           (contentWidth s) s); [|discriminate].
  intros Hplot. injection Hplot as <-. reflexivity.
Qed.

(** What [load] leaves on the freshly constructed chart. *)
Lemma load_fresh (csvData : string) (stock overlay : Canvas num) :
  let s := load csvData (constructor stock overlay) in
  stockCanvas s = stock
  /\ overlayCanvas s = overlay
  /\ fullData s = map parseLine (dataLines csvData)
  /\ closingPrices s = map closingOf (fullData s)
  /\ movingAverage s = windowMeans (closingPrices s)
  /\ crosshairs s = [].
Proof.
  cbv zeta.
  pose proof (load_aligned csvData (constructor stock overlay) eq_refl) as Haligned.
  unfold load in *.
  destruct (averageSteps_frame
              (seq 0 (List.length
                        (closingPrices (processCSVData csvData (constructor stock overlay)))))
              (processCSVData csvData (constructor stock overlay)))
    as (Hs & Ho & _ & Hf & Hc & Hx).
  fold (calculateMovingAverage (processCSVData csvData (constructor stock overlay)))
    in Hs, Ho, Hf, Hc, Hx.
  destruct (processCSVData_frame csvData (constructor stock overlay))
    as (Hs' & Ho' & _ & Hm' & Hx').
  split; [now rewrite Hs, Hs'|].
  split; [now rewrite Ho, Ho'|].
  split; [now rewrite Hf, processCSVData_fullData|].
  split; [exact Haligned|].
  split; [|now rewrite Hx, Hx'].
  rewrite calculateMovingAverage_windowMeans, Hm', Hc. reflexivity.
Qed.

(** X19. From the response text to the chart, on the freshly constructed
    object, with [N] the number of line breaks of the trimmed text. For
    [N = 0] or [N >= 10], [fetchCSVData] returns: the chart holds the
    records of the [N] data lines, their closing prices, the
    [max(0, N - 19)] window means, and one pointer listener; the
    canvases are untouched. For [1 <= N <= 9] it never returns. *)
Theorem fetch_draws_no_line_or_ten (csvData : string) (stock overlay : Canvas num) :
  ((occurrences "010" (trim csvData) = 0
    \/ 10 <= occurrences "010" (trim csvData))%nat ->
   exists plot,
     fetchCSVData (S (occurrences "010" (trim csvData))) csvData
                  (constructor stock overlay)
     = Some plot
     /\ stockCanvas (chart plot) = stock
     /\ overlayCanvas (chart plot) = overlay
     /\ fullData (chart plot) = map parseLine (dataLines csvData)
     /\ closingPrices (chart plot) = map closingOf (fullData (chart plot))
     /\ movingAverage (chart plot) = windowMeans (closingPrices (chart plot))
     /\ List.length (movingAverage (chart plot))
        = (occurrences "010" (trim csvData) - 19)%nat
     /\ List.length (crosshairs (chart plot)) = 1%nat)
  /\ ((1 <= occurrences "010" (trim csvData) <= 9)%nat ->
      forall fuel,
        fetchCSVData fuel csvData (constructor stock overlay) = None).
Proof.
  destruct (load_fresh csvData stock overlay) as (Hs & Ho & Hf & Hc & Hm & Hx).
  assert (HN : List.length (fullData (load csvData (constructor stock overlay)))
               = occurrences "010" (trim csvData))
    by (rewrite Hf, length_map; apply dataLines_length).
  unfold fetchCSVData. split.
  - intros Hlines. rewrite <- HN in Hlines |- *.
    destruct (plotChart_returns true _ Hlines) as [plot Hplot].
    exists plot. split; [exact Hplot|].
    rewrite (plotChart_chart _ _ _ _ Hplot).
    cbn [addCrosshairsFunctionality stockCanvas overlayCanvas fullData
         closingPrices movingAverage crosshairs].
    repeat (split; [assumption|]).
    split.
    + rewrite Hm. unfold windowMeans. rewrite length_map, length_seq, Hc, length_map.
      reflexivity.
    + rewrite Hx. reflexivity.
  - intros Hlines fuel. rewrite <- HN in Hlines.
    unfold plotChart, drawAxisLabels.
    rewrite dateLabels_zero_step; [reflexivity | apply Nat.div_small; lia | lia].
Qed.

End Fetch.
